(** * Shallow embedding of the Thanos store proxy mergers

    The development follows [pkg/store/proxy_tree.go] (the tournament tree
    with [treeAuxNode] back references, [initialFix], [Fix] and [Pop]) and
    [pkg/store/proxy_heap.go] ([ProxyResponseHeap], [respSet] and
    [dedupResponseHeap]).  Go values of type [int] are integers of [Z];
    slices are lists read with [!!] and written with [<[ _ := _ ]>], with
    the run-time bounds check of Go made explicit; pointers to streams are
    indices into a store of stream objects, so that the leaves and the
    auxiliary nodes of a tree alias the same cursors. *)

From Stdlib Require Import ZArith List String Lia.
From stdpp Require Import base option list strings gmap sorting.

Local Open Scope string_scope.
Local Open Scope list_scope.
Local Open Scope Z_scope.

(** ** Label sets *)

Module labels.

(** [labels.Label]: a name and a value. *)
Record Label := mkLabel { Name : string; Value : string }.

(** [labels.Labels]: a slice of labels; the nil slice is the empty list. *)
Definition Labels := list Label.

Definition FromStrings (n v : string) : Labels := [mkLabel n v].

(** Modelled from the spec: [labels.Compare] belongs to the Prometheus
    library and is missing from the sources; it is the lexicographic
    comparison of the pair sequences, names before values, strings as
    byte strings, the shorter sequence first when one is a prefix of the
    other.  The result is negative, zero or positive. *)
Fixpoint Compare (a b : Labels) : Z :=
  match a, b with
  | [], [] => 0
  | [], _ :: _ => - Z.of_nat (length b)
  | _ :: _, [] => Z.of_nat (length a)
  | x :: a', y :: b' =>
      match String.compare (Name x) (Name y) with
      | Lt => -1
      | Gt => 1
      | Eq =>
          match String.compare (Value x) (Value y) with
          | Lt => -1
          | Gt => 1
          | Eq => Compare a' b'
          end
      end
  end.

End labels.

Import labels.

(** ** Outcomes of Go code: a value, a panic, or a loop that never ends *)

Inductive outcome (A : Type) : Type :=
| Ret (a : A)
| Panic (msg : string)
| Diverge
| OutOfFuel.

Arguments Ret {A} a.
Arguments Panic {A} msg.
Arguments Diverge {A}.
Arguments OutOfFuel {A}.

#[global] Instance outcome_fmap : FMap outcome :=
  fun A B f o =>
    match o with
    | Ret a => Ret (f a)
    | Panic msg => Panic msg
    | Diverge => Diverge
    | OutOfFuel => OutOfFuel
    end.

Definition index_out_of_range : string := "runtime error: index out of range".
Definition nil_dereference : string :=
  "runtime error: invalid memory address or nil pointer dereference".

(** A computation over a mutable world [W]: the world at the end is
    returned also when the code panics, so that what was written before
    the panic stays visible. *)
Definition M (W A : Type) : Type := W -> outcome A * W.

Definition ret {W A} (a : A) : M W A := fun w => (Ret a, w).
Definition panic {W A} (msg : string) : M W A := fun w => (Panic msg, w).
Definition diverge {W A} : M W A := fun w => (Diverge, w).
Definition out_of_fuel {W A} : M W A := fun w => (OutOfFuel, w).

Definition bind {W A B} (m : M W A) (k : A -> M W B) : M W B :=
  fun w =>
    match m w with
    | (Ret a, w') => k a w'
    | (Panic msg, w') => (Panic msg, w')
    | (Diverge, w') => (Diverge, w')
    | (OutOfFuel, w') => (OutOfFuel, w')
    end.

Definition get {W} : M W W := fun w => (Ret w, w).
Definition put {W} (w : W) : M W unit := fun _ => (Ret tt, w).
Definition modify {W} (f : W -> W) : M W unit := fun w => (Ret tt, f w).

(** A relation between the world before and the world after that a
    computation keeps on every way out. *)
Definition preserves {W} (R : W -> W -> Prop) {A} (m : M W A) : Prop :=
  forall w o w', m w = (o, w') -> R w w'.

(** The fuel of the loops of a computation is never used up. *)
Definition fuel_suffices {W A} (m : M W A) : Prop :=
  forall w, fst (m w) <> OutOfFuel.

Declare Scope go_scope.
Delimit Scope go_scope with go.
Notation "'let*' x ':=' m 'in' k" := (bind m (fun x => k))
  (at level 10, x name, m at level 100, k at level 200) : go_scope.
Notation "'do*' m 'in' k" := (bind m (fun _ => k))
  (at level 10, m at level 100, k at level 200) : go_scope.
Local Open Scope go_scope.

(** [for x := range xs { body }], the body run for its effect. *)
Fixpoint forM {W A} (xs : list A) (body : A -> M W unit) : M W unit :=
  match xs with
  | [] => ret tt
  | x :: xs' => do* body x in forM xs' body
  end.

(** Slice indexing with the bounds check of Go. *)
Definition index {A} (l : list A) (i : Z) : option A :=
  if (i <? 0) then None else l !! Z.to_nat i.

Definition in_range {A} (l : list A) (i : Z) : bool :=
  (0 <=? i) && (i <? Z.of_nat (length l)).

Definition len {A} (l : list A) : Z := Z.of_nat (length l).

(** The integers [from, from+1, ..., from+n-1]. *)
Fixpoint zrange (from : Z) (n : nat) : list Z :=
  match n with
  | O => []
  | S n' => from :: zrange (from + 1) n'
  end.

(** ** Streams *)

(** [mockSeriesSet]: the cursor the tree is exercised with.  The cursor
    starts on its first element ([i] is the zero value 0). *)
Record mockSeriesSet := mkMock { series : list Labels; i : Z }.

(** A pointer to a stream object. *)
Definition ref := nat.

(** [storepb.SeriesSet] as a leaf value: [None] is the nil interface.  The
    package variable [infinity] is declared and never assigned, so the
    sentinel is the nil interface as well. *)
Definition SeriesSet := option ref.
Definition infinity : SeriesSet := None.

(** [mockSeriesSet.Next]. *)
Definition mock_Next (m : mockSeriesSet) : bool * mockSeriesSet :=
  let m' := mkMock (series m) (i m + 1) in
  (i m' <? len (series m'), m').

(** [mockSeriesSet.At]: the labels under the cursor, nil past the end. *)
Definition mock_At (m : mockSeriesSet) : outcome Labels :=
  if len (series m) <=? i m then Ret []
  else match index (series m) (i m) with
       | Some l => Ret l
       | None => Panic index_out_of_range
       end.

(** [for x := from; x < until; x += step], as the list of the values of
    [x]; the bounds do not change inside the loops that use it. *)
Fixpoint for_range_fuel (fuel : nat) (from until step : Z) : list Z :=
  match fuel with
  | O => []
  | S f =>
      if from <? until then from :: for_range_fuel f (from + step) until step
      else []
  end.

Definition for_range (from until step : Z) : list Z :=
  for_range_fuel (Z.to_nat (until - from)) from until step.

(** A loop over a list that threads a local variable. *)
Fixpoint foldM {W A B} (xs : list A) (acc : B) (body : B -> A -> M W B)
  : M W B :=
  match xs with
  | [] => ret acc
  | x :: xs' => let* acc' := body acc x in foldM xs' acc' body
  end.

(** ** The tournament tree *)

Module tree.

(** [treeAuxNode]: the stream that won and where it came from. *)
Record treeAuxNode := mkAux {
  ss : SeriesSet;
  previousAuxIndex : Z;
  previousNodeIndex : Z;
}.

(** [ProxyTournamentTree].  An auxiliary slot is a pointer: [None] is
    nil.  Auxiliary nodes are allocated afresh at every write and never
    updated in place, so that they are values here. *)
Record ProxyTournamentTree := mkTree {
  nodes : list SeriesSet;
  auxiliaryNodes : list (option treeAuxNode);
  lastChangedNodeIndex : Z;
}.

(** The tree together with the stream objects its leaves point to. *)
Record world := mkWorld {
  store : list mockSeriesSet;
  t : ProxyTournamentTree;
}.

Definition set_nodes (ns : list SeriesSet) (w : world) : world :=
  mkWorld (store w)
    (mkTree ns (auxiliaryNodes (t w)) (lastChangedNodeIndex (t w))).
Definition set_aux (a : list (option treeAuxNode)) (w : world) : world :=
  mkWorld (store w) (mkTree (nodes (t w)) a (lastChangedNodeIndex (t w))).
Definition set_last (l : Z) (w : world) : world :=
  mkWorld (store w) (mkTree (nodes (t w)) (auxiliaryNodes (t w)) l).
Definition set_store (s : list mockSeriesSet) (w : world) : world :=
  mkWorld s (t w).

(** [t.nodes[i]] *)
Definition getNode (i : Z) : M world SeriesSet :=
  fun w => match index (nodes (t w)) i with
           | Some s => (Ret s, w)
           | None => (Panic index_out_of_range, w)
           end.

(** [t.nodes[i] = s] *)
Definition setNode (i : Z) (s : SeriesSet) : M world unit :=
  fun w => if in_range (nodes (t w)) i
           then (Ret tt, set_nodes (<[Z.to_nat i := s]> (nodes (t w))) w)
           else (Panic index_out_of_range, w).

(** [t.auxiliaryNodes[i]] *)
Definition getAux (i : Z) : M world (option treeAuxNode) :=
  fun w => match index (auxiliaryNodes (t w)) i with
           | Some a => (Ret a, w)
           | None => (Panic index_out_of_range, w)
           end.

(** [t.auxiliaryNodes[i] = a] *)
Definition setAux (i : Z) (a : option treeAuxNode) : M world unit :=
  fun w => if in_range (auxiliaryNodes (t w)) i
           then (Ret tt,
                 set_aux (<[Z.to_nat i := a]> (auxiliaryNodes (t w))) w)
           else (Panic index_out_of_range, w).

(** [p.ss] through a pointer [p] to an auxiliary node. *)
Definition deref_ss (p : option treeAuxNode) : M world SeriesSet :=
  match p with
  | Some a => ret (ss a)
  | None => panic nil_dereference
  end.

(** [s.At()], labels only, for the stream [s] points to in [st]: a
    method call on the nil interface panics. *)
Definition labelsAt (st : list mockSeriesSet) (s : SeriesSet)
  : outcome Labels :=
  match s with
  | None => Panic nil_dereference
  | Some r =>
      match st !! r with
      | Some m => mock_At m
      | None => Panic nil_dereference
      end
  end.

Definition callAt (s : SeriesSet) : M world Labels :=
  fun w => (labelsAt (store w) s, w).

(** [s.Next()]: the stream object is advanced in place. *)
Definition callNext (s : SeriesSet) : M world bool :=
  fun w => match s with
           | None => (Panic nil_dereference, w)
           | Some r =>
               match store w !! r with
               | Some m =>
                   let '(b, m') := mock_Next m in
                   (Ret b, set_store (<[r := m']> (store w)) w)
               | None => (Panic nil_dereference, w)
               end
           end.

Definition isInfinity (s : SeriesSet) : bool :=
  match s with None => true | Some _ => false end.

(** [nextLevelNodeCount] *)
Definition nextLevelNodeCount (n : Z) : Z :=
  if Z.rem n 2 =? 0 then Z.quot n 2
  else if n =? 1 then 0
  else 1 + Z.quot n 2.

(** The loop of [NewProxyTournamentTree] that counts the auxiliary
    nodes: [for n > 1 { ... }]. *)
Fixpoint countAuxNodes (fuel : nat) (n auxNodes : Z) : Z :=
  match fuel with
  | O => auxNodes
  | S f =>
      if 1 <? n then
        if Z.rem n 2 =? 0
        then countAuxNodes f (Z.quot n 2) (auxNodes + Z.quot n 2)
        else countAuxNodes f (1 + Z.quot n 2) (auxNodes + (1 + Z.quot n 2))
      else auxNodes
  end.

(** Body of the first loop of [initialFix], for one pair of leaves. *)
Definition initialFix_leaves (left : Z) : M world Z :=
  let right := left + 1 in
  let loserIndex := Z.quot left 2 in
  let* r := getNode right in
  let* l := getNode left in
  do* (if isInfinity r && negb (isInfinity l) then
         setAux loserIndex (Some (mkAux l (-1) left))
       else if isInfinity l && negb (isInfinity r) then
         setAux loserIndex (Some (mkAux r (-1) left))
       else if isInfinity l && isInfinity r then
         setAux loserIndex (Some (mkAux infinity 0 0))
       else
         let* leftLbls := callAt l in
         let* rightLbls := callAt r in
         if Compare leftLbls rightLbls <? 0 then
           setAux loserIndex (Some (mkAux l (-1) left))
         else
           setAux loserIndex (Some (mkAux r (-1) right)))
  in ret loserIndex.

(** The closure [nilAuxNode] of [initialFix]. *)
Definition nilAuxNode (i : Z) : M world bool :=
  let* a := getAux i in
  match a with
  | None => ret true
  | Some n => ret (isInfinity (ss n))
  end.

(** Body of the inner loop of [initialFix] over one upper level; the
    local [previousLevelIdx] is threaded. *)
Definition initialFix_upper (from : Z) (previousLevelIdx loserIdx : Z)
  : M world Z :=
  let leftIdx :=
    if Z.rem previousLevelIdx 2 =? 0 then previousLevelIdx
    else previousLevelIdx - 1 in
  let rightIdx :=
    if Z.rem previousLevelIdx 2 =? 0 then previousLevelIdx + 1
    else previousLevelIdx in
  let takeLeft :=
    let* la := getAux leftIdx in
    let* s := deref_ss la in
    setAux loserIdx (Some (mkAux s leftIdx (-1))) in
  let takeRight :=
    let* ra := getAux rightIdx in
    let* s := deref_ss ra in
    setAux loserIdx (Some (mkAux s rightIdx (-1))) in
  let* c1 := (if from <=? rightIdx then ret true else nilAuxNode rightIdx) in
  do* (if (c1 : bool) then takeLeft
       else
         let* nl := nilAuxNode leftIdx in
         let* c2 := (if (nl : bool)
                     then (let* nr := nilAuxNode rightIdx in ret (negb nr))
                     else ret false) in
         if (c2 : bool) then takeRight
         else
           let* la := getAux leftIdx in
           let* ls := deref_ss la in
           let* leftLbls := callAt ls in
           let* ra := getAux rightIdx in
           let* rs := deref_ss ra in
           let* rightLbls := callAt rs in
           if Compare leftLbls rightLbls <? 0 then takeLeft else takeRight)
  in ret (previousLevelIdx + 2).

(** The outer loop of [initialFix]: [for nodesInLevel >= 1 { ... }]. *)
Fixpoint initialFix_levels (fuel : nat)
    (from until lastLoserIndex nodesInLevel : Z) : M world unit :=
  if nodesInLevel <? 1 then ret tt
  else
    match fuel with
    | O => out_of_fuel
    | S f =>
        let previousLevelIdx := from in
        let from := lastLoserIndex + 1 in
        let until := lastLoserIndex + nodesInLevel in
        do* foldM (for_range from (until + 1) 1) previousLevelIdx
              (initialFix_upper from)
        in initialFix_levels f from until until
             (nextLevelNodeCount nodesInLevel)
    end.

(** [initialFix] *)
Definition initialFix : M world unit :=
  let* w := get in
  let n := len (nodes (t w)) in
  let* lastLoserIndex :=
    foldM (for_range 0 n 2) (-1) (fun _ left => initialFix_leaves left) in
  if lastLoserIndex <? len (auxiliaryNodes (t w)) then
    let nodesInLevel := nextLevelNodeCount (nextLevelNodeCount n) in
    initialFix_levels (Z.to_nat nodesInLevel) 0 0 lastLoserIndex
      nodesInLevel
  else ret tt.

(** [NewProxyTournamentTree]: [st] holds the stream objects the
    elements of [ns] point to. *)
Definition NewProxyTournamentTree (st : list mockSeriesSet)
    (ns : list SeriesSet) : outcome unit * world :=
  let ns := if Z.rem (len ns) 2 =? 0 then ns else ns ++ [infinity] in
  let auxNodes := countAuxNodes (length ns) (len ns) 0 in
  initialFix
    (mkWorld st (mkTree ns (replicate (Z.to_nat auxNodes) None) (-1))).

Definition fix_before_pop : string :=
  "BUG: please call Fix() only after Pop()".

(** The closure [nilNode] of [Fix]. *)
Definition nilNode (i : Z) (lookInNodes : bool) : M world bool :=
  let* w := get in
  if lookInNodes then
    match index (nodes (t w)) i with
    | None => ret true
    | Some s => ret (isInfinity s)
    end
  else
    match index (auxiliaryNodes (t w)) i with
    | None => ret true
    | Some None => ret true
    | Some (Some a) => ret (isInfinity (ss a))
    end.

(** The closure [peekNode] of [Fix]. *)
Definition peekNode (i : Z) (lookInNodes : bool) : M world SeriesSet :=
  let* w := get in
  if lookInNodes then
    match index (nodes (t w)) i with
    | None => ret infinity
    | Some s => ret s
    end
  else
    match index (auxiliaryNodes (t w)) i with
    | None => ret infinity
    | Some None => ret infinity
    | Some (Some a) => ret (ss a)
    end.

(** The auxiliary node [Fix] allocates for a winner found at [idx]. *)
Definition winnerNode (s : SeriesSet) (idx : Z) (lookInNodes : bool)
  : option treeAuxNode :=
  if lookInNodes then Some (mkAux s (-1) idx) else Some (mkAux s idx (-1)).

(** The locals of the loop of [Fix]. *)
Record fixLocals := mkLocals {
  nodesInLevel : Z;
  from : Z;
  until : Z;
  auxNodeOffset : Z;
  leftIdx : Z;
  rightIdx : Z;
  lookInNodes : bool;
}.

(** One iteration of the loop of [Fix]. *)
Definition Fix_step (v : fixLocals) : M world fixLocals :=
  let loserIdx := from v + auxNodeOffset v in
  let look := lookInNodes v in
  let* c1 := (if from v <=? rightIdx v then ret true
              else nilNode (rightIdx v) look) in
  do* (if (c1 : bool) then
         let* s := peekNode (leftIdx v) look in
         setAux loserIdx (winnerNode s (leftIdx v) look)
       else
         let* nr := nilNode (rightIdx v) look in
         let* c2 := (if negb nr then nilNode (leftIdx v) look
                     else ret false) in
         if (c2 : bool) then
           let* s := peekNode (rightIdx v) look in
           setAux loserIdx (winnerNode s (rightIdx v) look)
         else
           let* nr' := nilNode (rightIdx v) look in
           let* c3 := (if (nr' : bool) then nilNode (leftIdx v) look
                       else ret false) in
           if (c3 : bool) then
             setAux loserIdx (Some (mkAux infinity 0 0))
           else
             let* left := peekNode (leftIdx v) look in
             let* right := peekNode (rightIdx v) look in
             let* lsetLeft := callAt left in
             let* lsetRight := callAt right in
             if Compare lsetLeft lsetRight <? 0 then
               setAux loserIdx (winnerNode left (leftIdx v) look)
             else
               setAux loserIdx (winnerNode right (rightIdx v) look))
  in
  let nodesInLevel' := nextLevelNodeCount (nodesInLevel v) in
  ret (mkLocals nodesInLevel'
         (until v + 1) (until v + nodesInLevel')
         (Z.quot (auxNodeOffset v) 2)
         (if Z.rem loserIdx 2 =? 0 then loserIdx else loserIdx - 1)
         (if Z.rem loserIdx 2 =? 0 then loserIdx + 1 else loserIdx)
         false).

(** The loop of [Fix]: [for nodesInLevel > 0 { ... }]. *)
Fixpoint Fix_loop (fuel : nat) (v : fixLocals) : M world unit :=
  if nodesInLevel v <=? 0 then ret tt
  else
    match fuel with
    | O => out_of_fuel
    | S f => let* v' := Fix_step v in Fix_loop f v'
    end.

(** [Fix] *)
Definition Fix : M world unit :=
  let* w := get in
  let last := lastChangedNodeIndex (t w) in
  if last =? -1 then panic fix_before_pop
  else
    let* leaf := getNode last in
    let* nextSeries := callNext leaf in
    do* (if (nextSeries : bool) then ret tt else setNode last infinity) in
    let nodesInLevel := nextLevelNodeCount (len (nodes (t w))) in
    Fix_loop (Z.to_nat nodesInLevel)
      (mkLocals nodesInLevel 0 (nodesInLevel - 1) (Z.quot last 2)
         (if Z.rem last 2 =? 0 then last else last - 1)
         (if Z.rem last 2 =? 0 then last + 1 else last)
         true).

(** The loop of [Pop].  Every turn that follows a back reference
    clears one slot, and a cleared slot met again is a nil dereference;
    a node with both back references at -1 makes the loop spin without
    changing anything. *)
Fixpoint Pop_loop (fuel : nat) (curNodeIdx : Z)
    (curNode : option treeAuxNode) : M world unit :=
  match fuel with
  | O => out_of_fuel
  | S f =>
      match curNode with
      | None => panic nil_dereference
      | Some cur =>
          if negb (previousAuxIndex cur =? -1) then
            let oldNodeIdx := curNodeIdx in
            let* next := getAux (previousAuxIndex cur) in
            do* setAux oldNodeIdx None in
            Pop_loop f (previousAuxIndex cur) next
          else if negb (previousNodeIndex cur =? -1) then
            do* setAux curNodeIdx None in
            modify (set_last (previousNodeIndex cur))
          else diverge
      end
  end.

(** [Pop]: the stream at the root, or nil. *)
Definition Pop : M world SeriesSet :=
  let* w := get in
  let n := len (auxiliaryNodes (t w)) in
  let* loserNode := getAux (n - 1) in
  match loserNode with
  | Some l =>
      if negb (isInfinity (ss l)) then
        do* Pop_loop (S (S (length (auxiliaryNodes (t w))))) (n - 1)
              (Some l)
        in ret (ss l)
      else ret None
  | None => ret None
  end.

End tree.

(** ** What the operations of the tree may write *)

Module tree_frame.

Import tree.

(** What the code that rebuilds auxiliary nodes leaves alone: the
    streams, the leaves, [lastChangedNodeIndex], the number of
    auxiliary slots, and every slot below [k]. *)
Definition writes_from (k : Z) (w w' : world) : Prop :=
  store w' = store w /\
  nodes (t w') = nodes (t w) /\
  lastChangedNodeIndex (t w') = lastChangedNodeIndex (t w) /\
  length (auxiliaryNodes (t w')) = length (auxiliaryNodes (t w)) /\
  forall j : nat, Z.of_nat j < k ->
    auxiliaryNodes (t w') !! j = auxiliaryNodes (t w) !! j.

(** The winner chain of an array of auxiliary nodes: the slots
    visited from [idx] along [previousAuxIndex], down to the node that
    names a leaf; [leaf] is that leaf's index. *)
Inductive winner_chain (a : list (option treeAuxNode))
  : Z -> list Z -> Z -> Prop :=
| chain_leaf idx n :
    index a idx = Some (Some n) ->
    previousAuxIndex n = -1 ->
    previousNodeIndex n <> -1 ->
    winner_chain a idx [idx] (previousNodeIndex n)
| chain_aux idx n path leaf :
    index a idx = Some (Some n) ->
    previousAuxIndex n <> -1 ->
    winner_chain a (previousAuxIndex n) path leaf ->
    winner_chain a idx (idx :: path) leaf.

(** Nil written into the slots of [path]. *)
Definition clear_slots (path : list Z) (a : list (option treeAuxNode))
  : list (option treeAuxNode) :=
  foldl (fun acc k => <[Z.to_nat k := None]> acc) a path.

(** The streams and the leaves are as they were. *)
Definition leaves_alone (w w' : world) : Prop :=
  store w' = store w /\ nodes (t w') = nodes (t w).

(** The leaf that [Pop] records, as the claim about it reads: the
    stream handed out came from that leaf, which still holds it. *)
Definition records_the_origin (w : world) : Prop :=
  forall s w',
    Pop w = (Ret (Some s), w') ->
    index (nodes (t w')) (lastChangedNodeIndex (t w')) = Some (Some s).

(** The number of auxiliary slots that are not nil. *)
Fixpoint live_slots (a : list (option treeAuxNode)) : nat :=
  match a with
  | [] => O
  | Some _ :: rest => S (live_slots rest)
  | None :: rest => live_slots rest
  end.

End tree_frame.

(** ** Responses and chunks *)

Module storepb.

(** [storepb.AggrChunk], as far as the mergers look at it: a time
    range and the encoded bytes.  The zero value has every field zero. *)
Record AggrChunk := mkChunk { MinTime : Z; MaxTime : Z; Raw : string }.

Definition zeroChunk : AggrChunk := mkChunk 0 0 "".

(** [storepb.Series] *)
Record Series := mkSeries { Labels : labels.Labels; Chunks : list AggrChunk }.

(** [storepb.SeriesResponse]: a series, or a control item (a warning)
    whose [GetSeries()] is nil. *)
Inductive SeriesResponse :=
| SeriesFrame (s : Series)
| WarningFrame (w : string).

Definition GetSeries (r : SeriesResponse) : option Series :=
  match r with
  | SeriesFrame s => Some s
  | WarningFrame _ => None
  end.

Definition NewSeriesResponse (s : Series) : SeriesResponse := SeriesFrame s.

End storepb.

Import storepb.
Import labels.

(** ** The heap merger *)

Module heap.

(** The methods of a child stream.  The heap of the sources is built
    over [respSet]; an earlier revision accepts any implementation of
    the stream interface, and [Err] is part of that interface. *)
Class SeriesSetOps (St : Type) := {
  Next : St -> bool * St;
  At : St -> outcome SeriesResponse;
  Err : St -> option string;
}.

(** [respSet] *)
Record respSet := mkRespSet { responses : list SeriesResponse; i : Z }.

(** [respSet.Next].  The cursor is a Go [int] and is counted in [Z]
    here: the two agree as long as the cursor is below the largest
    [int], as it is for a cursor that stands on a response. *)
Definition respSet_Next (ss : respSet) : bool * respSet :=
  let ss' := mkRespSet (responses ss) (i ss + 1) in
  (i ss' <? len (responses ss'), ss').

Definition respSet_At (ss : respSet) : outcome SeriesResponse :=
  match index (responses ss) (i ss) with
  | Some r => Ret r
  | None => Panic index_out_of_range
  end.

Definition respSet_Err (ss : respSet) : option string := None.

#[global] Instance respSet_ops : SeriesSetOps respSet :=
  {| Next := respSet_Next; At := respSet_At; Err := respSet_Err |}.

Section Merger.

Context {St : Type} {ops : SeriesSetOps St}.

(** [ProxyResponseHeap]: a slice of nodes, each a pointer to a
    child; the children live in [store]. *)
Record world := mkWorld {
  store : list St;
  h : list ref;
}.

Definition set_h (l : list ref) (w : world) : world := mkWorld (store w) l.
Definition set_store (s : list St) (w : world) : world := mkWorld s (h w).

(** [h[i].rs.At()] *)
Definition childAt (i : Z) : M world SeriesResponse :=
  fun w =>
    match index (h w) i with
    | None => (Panic index_out_of_range, w)
    | Some r =>
        match store w !! r with
        | None => (Panic nil_dereference, w)
        | Some c =>
            match At c with
            | Ret x => (Ret x, w)
            | Panic msg => (Panic msg, w)
            | Diverge => (Diverge, w)
            | OutOfFuel => (OutOfFuel, w)
            end
        end
    end.

(** [ProxyResponseHeap.Less] *)
Definition Less (i j : Z) : M world bool :=
  let* iResp := childAt i in
  let* jResp := childAt j in
  match GetSeries iResp, GetSeries jResp with
  | Some si, Some sj => ret (Compare (storepb.Labels si) (storepb.Labels sj) <? 0)
  | None, Some _ => ret true
  | Some _, None => ret false
  | None, None => ret false
  end.

(** [ProxyResponseHeap.Len] *)
Definition Len (w : world) : Z := len (h w).

(** [ProxyResponseHeap.Swap] *)
Definition Swap (i j : Z) : M world unit :=
  fun w =>
    match index (h w) i, index (h w) j with
    | Some a, Some b =>
        (Ret tt,
         set_h (<[Z.to_nat j := a]> (<[Z.to_nat i := b]> (h w))) w)
    | _, _ => (Panic index_out_of_range, w)
    end.

(** [ProxyResponseHeap.Push] *)
Definition Push (x : ref) : M world unit :=
  modify (fun w => set_h (h w ++ [x]) w).

(** [ProxyResponseHeap.Pop]: the last node is cut off. *)
Definition hPop : M world ref :=
  fun w =>
    match index (h w) (Len w - 1) with
    | Some v => (Ret v, set_h (take (Z.to_nat (Len w - 1)) (h w)) w)
    | None => (Panic index_out_of_range, w)
    end.

(** [ProxyResponseHeap.Empty] *)
Definition Empty (w : world) : bool := Len w =? 0.

(** Modelled from the Go standard library: [container/heap] is not
    part of the sources.  [down] sifts the node at [i0] down inside
    the first [n] nodes and tells whether it moved. *)
Fixpoint down_loop (fuel : nat) (i0 i n : Z) : M world bool :=
  match fuel with
  | O => out_of_fuel
  | S f =>
      let j1 := 2 * i + 1 in
      if (n <=? j1) || (j1 <? 0) then ret (i0 <? i)
      else
        let j2 := j1 + 1 in
        let* j := (if j2 <? n
                   then (let* b := Less j2 j1 in
                         ret (if (b : bool) then j2 else j1))
                   else ret j1) in
        let* b := Less j i in
        if (b : bool) then do* Swap i j in down_loop f i0 j n
        else ret (i0 <? i)
  end.

Definition down (i0 n : Z) : M world bool :=
  down_loop (S (Z.to_nat n)) i0 i0 n.

(** Modelled from the Go standard library: [up] of [container/heap]. *)
Fixpoint up_loop (fuel : nat) (j : Z) : M world unit :=
  match fuel with
  | O => out_of_fuel
  | S f =>
      let i := Z.quot (j - 1) 2 in
      if i =? j then ret tt
      else
        let* b := Less j i in
        if (b : bool) then do* Swap i j in up_loop f i
        else ret tt
  end.

Definition up (j : Z) : M world unit :=
  up_loop (S (S (Z.to_nat j))) j.

(** Modelled from the Go standard library: [heap.Init]. *)
Definition heap_Init : M world unit :=
  let* w := get in
  let n := Len w in
  forM (map (fun k => Z.quot n 2 - 1 - k) (zrange 0 (Z.to_nat (Z.quot n 2))))
    (fun i => do* down i n in ret tt).

(** Modelled from the Go standard library: [heap.Fix]. *)
Definition heap_Fix (i : Z) : M world unit :=
  let* w := get in
  let* moved := down i (Len w) in
  if (moved : bool) then ret tt else up i.

(** Modelled from the Go standard library: [heap.Remove]. *)
Definition heap_Remove (i : Z) : M world ref :=
  let* w := get in
  let n := Len w - 1 in
  do* (if negb (n =? i) then
         do* Swap i n in
         let* moved := down i n in
         if (moved : bool) then ret tt else up i
       else ret tt)
  in hPop.

(** [NewProxyResponseHeap] *)
Definition NewProxyResponseHeap (st : list St) (seriesSets : list ref)
  : outcome unit * world :=
  (do* forM seriesSets Push in heap_Init) (mkWorld st []).

(** [ProxyResponseHeap.Next] *)
Definition hNext : M world bool :=
  fun w => (Ret (negb (Empty w)), w).

(** [min.Next()] on the child at the root. *)
Definition childNext (r : ref) : M world bool :=
  fun w =>
    match store w !! r with
    | None => (Panic nil_dereference, w)
    | Some c =>
        let '(b, c') := Next c in
        (Ret b, set_store (<[r := c']> (store w)) w)
    end.

(** [ProxyResponseHeap.At]: hands out the response at the root and
    advances the stream it came from. *)
Definition hAt : M world SeriesResponse :=
  let* w := get in
  match index (h w) 0 with
  | None => panic index_out_of_range
  | Some min =>
      let* atResp := childAt 0 in
      let* more := childNext min in
      do* (if (more : bool) then heap_Fix 0
           else do* heap_Remove 0 in ret tt)
      in ret atResp
  end.

(** [ProxyResponseHeap.Err] *)
Definition hErr (w : world) : option string := None.

End Merger.

Arguments world St : clear implicits.

End heap.

(** ** The dedup wrapper *)

Module dedup.

Import heap.

Section Dedup.

(** [AggrChunk.Hash] is not part of the sources: the development
    holds for every hash function. *)
Variable Hash : AggrChunk -> string.

(** [dedupResponseHeap]; [hw] is the heap [d.h] points to, with its
    children. *)
Record dedupResponseHeap := mkDedup {
  hw : heap.world respSet;
  responses : list SeriesResponse;
  previousResponse : option SeriesResponse;
  previousNext : bool;
}.

Definition set_hw (x : heap.world respSet) (d : dedupResponseHeap) :=
  mkDedup x (responses d) (previousResponse d) (previousNext d).
Definition set_responses (x : list SeriesResponse) (d : dedupResponseHeap) :=
  mkDedup (hw d) x (previousResponse d) (previousNext d).
Definition set_previousResponse (x : option SeriesResponse)
    (d : dedupResponseHeap) :=
  mkDedup (hw d) (responses d) x (previousNext d).
Definition set_previousNext (x : bool) (d : dedupResponseHeap) :=
  mkDedup (hw d) (responses d) (previousResponse d) x.

(** A method of [d.h] run from the wrapper. *)
Definition on_heap {A} (m : M (heap.world respSet) A)
  : M dedupResponseHeap A :=
  fun d => let '(o, w') := m (hw d) in (o, set_hw w' d).

(** [defer]: [deferred] runs when [body] is left, by a return or by
    a panic, and reads the local variable [body] has been writing. *)
Definition with_defer {W L A} (l0 : L) (body : M (W * L) A)
    (deferred : L -> W -> W) : M W A :=
  fun w => let '(o, (w', l)) := body (w, l0) in (o, deferred l w').

Definition on_world {W L A} (m : M W A) : M (W * L) A :=
  fun wl => let '(o, w') := m (fst wl) in (o, (w', snd wl)).

Definition set_local {W L} (l : L) : M (W * L) unit :=
  fun wl => (Ret tt, (fst wl, l)).

(** [NewDedupResponseHeap] *)
Definition NewDedupResponseHeap (w : heap.world respSet)
  : outcome unit * dedupResponseHeap :=
  let '(o, w') := hNext w in
  match o with
  | Ret b => (Ret tt, mkDedup w' [] None b)
  | Panic msg => (Panic msg, mkDedup w' [] None false)
  | Diverge => (Diverge, mkDedup w' [] None false)
  | OutOfFuel => (OutOfFuel, mkDedup w' [] None false)
  end.

(** The first loop of [At]: every chunk enters [chunkDedupMap] under
    its hash unless the hash is there already. *)
Definition addChunk (m : gmap string AggrChunk) (chk : AggrChunk)
  : gmap string AggrChunk :=
  match m !! Hash chk with
  | Some _ => m
  | None => <[Hash chk := chk]> m
  end.

Fixpoint collectChunks (m : gmap string AggrChunk)
    (resps : list SeriesResponse) : outcome (gmap string AggrChunk) :=
  match resps with
  | [] => Ret m
  | resp :: rest =>
      match GetSeries resp with
      | None => Panic nil_dereference
      | Some s => collectChunks (foldl addChunk m (Chunks s)) rest
      end
  end.

(** The second loop of [At].  [make] with a length allocates that
    many zero values and [append] writes after them.  The order in
    which [range] walks a map is not specified: the order of
    [map_to_list] stands for it. *)
Definition finalChunks (m : gmap string AggrChunk) : list AggrChunk :=
  replicate (size m) zeroChunk ++ map snd (map_to_list m).

(** [dedupResponseHeap.At]; the deferred function empties the
    buffer on every way out. *)
Definition dAt : M dedupResponseHeap (option SeriesResponse) :=
  fun d =>
    let d' := set_responses [] d in
    match responses d with
    | [] => (Ret None, d')
    | [r] => (Ret (Some r), d')
    | r0 :: _ =>
        match collectChunks ∅ (responses d) with
        | Ret m =>
            match GetSeries r0 with
            | Some s0 =>
                (Ret (Some (NewSeriesResponse
                              (mkSeries (storepb.Labels s0)
                                 (finalChunks m)))), d')
            | None => (Panic nil_dereference, d')
            end
        | Panic msg => (Panic msg, d')
        | Diverge => (Diverge, d')
        | OutOfFuel => (OutOfFuel, d')
        end
    end.

(** The loop of [Next]; the local [nextHeap] is the second component
    of the state. *)
Fixpoint Next_loop (fuel : nat) : M (dedupResponseHeap * bool) unit :=
  match fuel with
  | O => out_of_fuel
  | S f =>
      let* nextHeap := on_world (on_heap hNext) in
      do* set_local nextHeap in
      if negb nextHeap then ret tt
      else
        let* resp := on_world (on_heap hAt) in
        match GetSeries resp with
        | None =>
            on_world (modify (set_previousResponse (Some resp)))
        | Some s =>
            let* dl := get in
            match last (responses (fst dl)) with
            | None => panic index_out_of_range
            | Some lastResp =>
                match GetSeries lastResp with
                | None => panic nil_dereference
                | Some sl =>
                    if Compare (storepb.Labels s) (storepb.Labels sl) =? 0
                    then
                      do* on_world (modify (fun d =>
                             set_responses (responses d ++ [resp]) d))
                      in Next_loop f
                    else
                      on_world (modify (set_previousResponse (Some resp)))
                end
            end
        end
  end.

(** The responses the children still hold: a bound on the turns of
    the loop of [Next]. *)
Definition remaining (w : heap.world respSet) : nat :=
  list_sum (map (fun c => length (heap.responses c)) (heap.store w)).

(** [dedupResponseHeap.Next] *)
Definition dNext : M dedupResponseHeap bool :=
  let* d := get in
  if negb (previousNext d) then
    ret (0 <? len (responses d))
  else
    let* resp :=
      match previousResponse d with
      | Some r => do* modify (set_previousResponse None) in ret r
      | None => on_heap hAt
      end in
    with_defer false
      (do* on_world (modify (set_responses [resp])) in
       match GetSeries resp with
       | None =>
           do* on_world (modify (set_previousResponse (Some resp))) in
           ret true
       | Some _ =>
           do* Next_loop (S (remaining (hw d))) in
           ret true
       end)
      set_previousNext.

(** [dedupResponseHeap] has no [Err] of its own; the error of the
    pipeline is the one of the heap. *)

End Dedup.

End dedup.

(** ** The scenarios of the tests *)

Module scenarios.

Import tree.

(** A [mockSeriesSet] over the label [test=v], as the tests build it. *)
Definition single (v : string) : mockSeriesSet :=
  mkMock [FromStrings "test" v] 0.

Definition leaves (n : nat) : list SeriesSet := map Some (seq 0 n).

(** The tree of size 2 of [TestTournamentTreePop]. *)
Definition tree2 : outcome unit * world :=
  NewProxyTournamentTree [single "baa"; single "bab"] (leaves 2).

(** Two streams that start on the same label set. *)
Definition tie2 : outcome unit * world :=
  NewProxyTournamentTree [single "baa"; single "baa"] (leaves 2).

(** Fourteen streams, the smallest label under the fifth. *)
Definition tree14 : outcome unit * world :=
  NewProxyTournamentTree
    (map single ["m"; "m"; "m"; "m"; "a"; "m"; "m";
                 "m"; "m"; "m"; "m"; "m"; "m"; "m"])
    (leaves 14).

(** Ten streams of one series each, in descending order of their
    labels: the last stream is on the smallest. *)
Definition tree10 : outcome unit * world :=
  NewProxyTournamentTree
    (map single ["j"; "i"; "h"; "g"; "f"; "e"; "d"; "c"; "b"; "a"])
    (leaves 10).

(** The same with nine streams. *)
Definition tree9 : outcome unit * world :=
  NewProxyTournamentTree
    (map single ["i"; "h"; "g"; "f"; "e"; "d"; "c"; "b"; "a"])
    (leaves 9).

(** The state after one round of the consumer loop, [Pop] and then
    [Fix]. *)
Definition after_one_round (w : world) : world :=
  snd (Fix (snd (Pop w))).

(** The cases of [TestTournamentTreeBuild]. *)
Definition build1 : outcome unit * world :=
  NewProxyTournamentTree [single "baa"; single "bab"] (leaves 2).

Definition build2 : outcome unit * world :=
  NewProxyTournamentTree
    [mkMock [FromStrings "aaa" "aaa"] 0; mkMock [FromStrings "aaa" "bbb"] 0;
     mkMock [FromStrings "ddd" "eee"] 0; mkMock [FromStrings "ddd" "fff"] 0;
     mkMock [FromStrings "ddd" "ggg"] 0]
    (leaves 5).

Definition build3 : outcome unit * world :=
  NewProxyTournamentTree [single "foo"; single "bar"; single "baz"]
    (leaves 3).

(** What [TestTournamentTreeBuild] looks at: the number of auxiliary
    nodes and the labels of the stream in the last one. *)
Definition built (x : outcome unit * world) : option (Z * outcome Labels) :=
  match x with
  | (Ret _, w) =>
      match last (auxiliaryNodes (t w)) with
      | Some (Some root) =>
          Some (len (auxiliaryNodes (t w)), labelsAt (store w) (ss root))
      | _ => None
      end
  | _ => None
  end.

(** The consumer loop of [TestTournamentTreeCharacteristics]: [Pop],
    read the labels of the stream handed out, [Fix]; it stops at the
    first nil.  The labels read are returned with the last world. *)
Fixpoint popAll (rounds : nat) (w : world)
  : outcome (list Labels) * world :=
  match rounds with
  | O => (Ret [], w)
  | S k =>
      match Pop w with
      | (Ret None, w1) => (Ret [], w1)
      | (Ret (Some r), w1) =>
          match callAt (Some r) w1 with
          | (Ret l, w2) =>
              match Fix w2 with
              | (Ret _, w3) =>
                  match popAll k w3 with
                  | (Ret ls, w4) => (Ret (l :: ls), w4)
                  | other => other
                  end
              | (Panic msg, w3) => (Panic msg, w3)
              | (Diverge, w3) => (Diverge, w3)
              | (OutOfFuel, w3) => (OutOfFuel, w3)
              end
          | (Panic msg, w2) => (Panic msg, w2)
          | (Diverge, w2) => (Diverge, w2)
          | (OutOfFuel, w2) => (OutOfFuel, w2)
          end
      | (Panic msg, w1) => (Panic msg, w1)
      | (Diverge, w1) => (Diverge, w1)
      | (OutOfFuel, w1) => (OutOfFuel, w1)
      end
  end.

(** A [respSet] over one series response with the label [test=v]. *)
Definition singleResp (v : string) : heap.respSet :=
  heap.mkRespSet [SeriesFrame (mkSeries (FromStrings "test" v) [])] 0.

(** The consumer loop over the heap: [for h.Next() { h.At() }]. *)
Fixpoint nextAll (rounds : nat) (w : heap.world heap.respSet)
  : outcome (list SeriesResponse) * heap.world heap.respSet :=
  match rounds with
  | O => (Ret [], w)
  | S k =>
      match heap.hNext w with
      | (Ret true, w1) =>
          match heap.hAt w1 with
          | (Ret r, w2) =>
              match nextAll k w2 with
              | (Ret rs, w3) => (Ret (r :: rs), w3)
              | other => other
              end
          | (Panic msg, w2) => (Panic msg, w2)
          | (Diverge, w2) => (Diverge, w2)
          | (OutOfFuel, w2) => (OutOfFuel, w2)
          end
      | (Ret false, w1) => (Ret [], w1)
      | (Panic msg, w1) => (Panic msg, w1)
      | (Diverge, w1) => (Diverge, w1)
      | (OutOfFuel, w1) => (OutOfFuel, w1)
      end
  end.

(** The heap over the two streams of [tree2]. *)
Definition heap2 : outcome unit * heap.world heap.respSet :=
  heap.NewProxyResponseHeap [singleResp "baa"; singleResp "bab"]
    [0%nat; 1%nat].

(** The labels of the series responses of a list. *)
Definition labelsOf (rs : list SeriesResponse) : list Labels :=
  omap (fun r => storepb.Labels <$> GetSeries r) rs.

End scenarios.

(** ** The two mergers behind one interface *)

Module merger.

(** The merger is built either as the heap or as the tournament
    tree. *)
Inductive merger :=
| HeapMerger (w : heap.world heap.respSet)
| TreeMerger (w : tree.world).

(** One step of the consumer: [Next] of the heap, [Pop] of the tree,
    where nil stands for "no more". *)
Definition advance (m : merger) : outcome bool * merger :=
  match m with
  | HeapMerger w =>
      let '(o, w') := heap.hNext w in (o, HeapMerger w')
  | TreeMerger w =>
      let '(o, w') := tree.Pop w in
      (match o with
       | Ret s => Ret (negb (tree.isInfinity s))
       | Panic msg => Panic msg
       | Diverge => Diverge
       | OutOfFuel => OutOfFuel
       end, TreeMerger w')
  end.

(** The error the merger reports: [Err] of the heap; the tree has no
    such method and reports none. *)
Definition error (m : merger) : option string :=
  match m with
  | HeapMerger w => heap.hErr w
  | TreeMerger _ => None
  end.

(** [advance] called [n] times in a row, the results dropped. *)
Fixpoint advances (n : nat) (m : merger) : merger :=
  match n with
  | O => m
  | S k => advances k (snd (advance m))
  end.

End merger.

(** ** Errors of the children *)

Module child_errors.

Import heap.

Section Claim.

Context {St : Type} {ops : SeriesSetOps St}.



End Claim.

End child_errors.

(** ** The first round of the tournament *)

Module first_round.

Import tree.

(** What [initialFix] stores for a pair of leaves [l], [r] at the
    indices [left] and [left + 1], read off its four branches. *)
Definition leaf_winner (st : list mockSeriesSet) (l r : SeriesSet)
    (left : Z) (slot : option treeAuxNode) : Prop :=
  match l, r with
  | Some _, Some _ =>
      exists la lb,
        labelsAt st l = Ret la /\ labelsAt st r = Ret lb /\
        slot = Some (if Compare la lb <? 0 then mkAux l (-1) left
                     else mkAux r (-1) (left + 1))
  | Some _, None => slot = Some (mkAux l (-1) left)
  | None, Some _ => slot = Some (mkAux r (-1) left)
  | None, None => slot = Some (mkAux infinity 0 0)
  end.

(** The tie-break as the specification words it: of two live leaves
    whose label sets compare equal, the left one is recorded. *)
Definition left_wins_ties (st : list mockSeriesSet) (ns : list SeriesSet)
  : Prop :=
  forall w (i : nat) l r la lb,
    NewProxyTournamentTree st ns = (Ret tt, w) ->
    nodes (t w) !! (2 * i)%nat = Some (Some l) ->
    nodes (t w) !! (2 * i + 1)%nat = Some (Some r) ->
    labelsAt st (Some l) = Ret la ->
    labelsAt st (Some r) = Ret lb ->
    Compare la lb = 0 ->
    auxiliaryNodes (t w) !! i =
      Some (Some (mkAux (Some l) (-1) (2 * Z.of_nat i))).

End first_round.

(** ** The shape of the tree, as the specification words it *)

Module shape.

(** The ceiling of [a / b]. *)
Definition ceil_div (a b : Z) : Z := (a + b - 1) / b.

(** The sum of the terms [ceil (n / 2^k)], [ceil (n / 2^(k+1))], ...
    up to and including the first term that is 1. *)
Fixpoint levelSum (fuel : nat) (n k : Z) : Z :=
  match fuel with
  | O => 0
  | S f =>
      let term := ceil_div n (2 ^ k) in
      if term =? 1 then 1 else term + levelSum f n (k + 1)
  end.

(** The number of auxiliary nodes for [n] leaves: the sum from
    [k = 1]. *)
Definition auxCount (n : Z) : Z := levelSum (Z.to_nat n) n 1.

End shape.

(** ** The scenarios of the dedup wrapper *)

Module dedup_scenarios.

Import heap dedup.

Definition chunk (bytes : string) : AggrChunk := mkChunk 1 2 bytes.

(** A hash function for the scenarios: the bytes themselves. *)
Definition chunk_hash (c : AggrChunk) : string := Raw c.

(** A series response with the label [l=v] and the chunks [cs]. *)
Definition seriesResp (v : string) (cs : list AggrChunk) : SeriesResponse :=
  SeriesFrame (mkSeries (FromStrings "l" v) cs).

(** Two streams with one response each for the label set [A], with
    the chunks [h1] and [h2]; the wrapper over their heap after its
    first [Next]: the buffer holds the run of the two responses. *)
Definition runOfTwo : outcome unit * dedupResponseHeap :=
  NewDedupResponseHeap
    (snd (NewProxyResponseHeap
            [mkRespSet [seriesResp "A" [chunk "h1"]] 0;
             mkRespSet [seriesResp "A" [chunk "h2"]] 0]
            [0%nat; 1%nat])).

Definition bufferedRun : dedupResponseHeap :=
  snd (dNext (snd runOfTwo)).

(** A wrapper over a heap with one stream: a warning, then a series. *)
Definition warned : outcome unit * dedupResponseHeap :=
  NewDedupResponseHeap
    (snd (NewProxyResponseHeap
            [mkRespSet [WarningFrame "warn"; seriesResp "A" [chunk "h1"]] 0]
            [0%nat])).

End dedup_scenarios.

(** ** Vocabulary of the further properties *)

(** The computation reads the world and leaves it as it is. *)
Definition reads {W A} (m : M W A) : Prop :=
  forall w o w', m w = (o, w') -> w' = w.

(** The computation never spins in a loop that changes nothing. *)
Definition never_diverges {W A} (m : M W A) : Prop :=
  forall w, fst (m w) <> Diverge.

Module tree_states.

Import tree.

(** A node on which the loop of [Pop] would spin: none of its two back
    references is set. *)
Definition spins (n : treeAuxNode) : Prop :=
  previousAuxIndex n = -1 /\ previousNodeIndex n = -1.

Definition no_spin (w : world) : Prop :=
  forall k n, auxiliaryNodes (t w) !! k = Some (Some n) -> ~ spins n.

(** A call keeps the auxiliary nodes free of spinning nodes. *)
Definition spin_free (w w' : world) : Prop := no_spin w -> no_spin w'.

(** The states a user of the tree can bring about: the tree as
    [NewProxyTournamentTree] leaves it, and the state after a [Pop] or a
    [Fix] from such a state, whatever the call answered. *)
Inductive reachable : world -> Prop :=
| reach_new st ns o w :
    NewProxyTournamentTree st ns = (o, w) -> reachable w
| reach_Pop w o w' :
    reachable w -> Pop w = (o, w') -> reachable w'
| reach_Fix w o w' :
    reachable w -> Fix w = (o, w') -> reachable w'.

End tree_states.

Module cursor.

Import heap.

(** The bounds of Go's [int] on a 64-bit platform. *)
Definition MaxInt : Z := 2 ^ 63 - 1.
Definition MinInt : Z := - 2 ^ 63.

(** [x++] on an [int]: it wraps around at [MaxInt]. *)
Definition incr (x : Z) : Z := if x =? MaxInt then MinInt else x + 1.

(** [respSet.Next], with the wrap-around of the cursor written out. *)
Definition Next (ss : respSet) : bool * respSet :=
  let ss' := mkRespSet (responses ss) (incr (i ss)) in
  (i ss' <? len (responses ss'), ss').

(** The consumer loop over one [respSet]: [for ss.Next() { ss.At() }],
    the responses read collected in order. *)
Fixpoint drain (fuel : nat) (ss : respSet) : outcome (list SeriesResponse) :=
  match fuel with
  | O => OutOfFuel
  | S f =>
      let '(more, ss') := Next ss in
      if more then
        match respSet_At ss' with
        | Ret r =>
            match drain f ss' with
            | Ret rs => Ret (r :: rs)
            | other => other
            end
        | Panic msg => Panic msg
        | Diverge => Diverge
        | OutOfFuel => OutOfFuel
        end
      else Ret []
  end.

End cursor.

Module dedup_calls.

Import dedup.

(** The two methods a consumer calls on the wrapper. *)
Inductive call := CallNext | CallAt.

(** The wrapper after a sequence of calls, the answers dropped. *)
Fixpoint after (Hash : AggrChunk -> string) (cs : list call)
    (d : dedupResponseHeap) : dedupResponseHeap :=
  match cs with
  | [] => d
  | CallNext :: rest => after Hash rest (snd (dNext d))
  | CallAt :: rest => after Hash rest (snd (dAt Hash d))
  end.

End dedup_calls.

Module dedup_spec.

Section Spec.

Variable Hash : AggrChunk -> string.

(** The chunks of the buffered responses, in the order in which [At]
    walks them. *)
Definition allChunks (resps : list SeriesResponse) : list AggrChunk :=
  flat_map (fun r => match GetSeries r with
                     | Some s => Chunks s
                     | None => []
                     end) resps.

(** The first chunk of a list whose hash is [h]. *)
Fixpoint firstWithHash (h : string) (cs : list AggrChunk)
  : option AggrChunk :=
  match cs with
  | [] => None
  | c :: rest =>
      if String.eqb (Hash c) h then Some c else firstWithHash h rest
  end.

End Spec.

(** A buffer as [Next] fills it: one non-series response alone, or a
    run of series responses that all carry the label set of the
    first. *)
Definition one_run (resps : list SeriesResponse) : Prop :=
  match resps with
  | [] => False
  | r0 :: rest =>
      match GetSeries r0 with
      | None => rest = []
      | Some s0 =>
          forall r, r ∈ rest ->
            exists s, GetSeries r = Some s /\
                      storepb.Labels s = storepb.Labels s0
      end
  end.

(** A non-empty list of series responses with the label set [lbls]. *)
Definition series_run (lbls : labels.Labels) (resps : list SeriesResponse)
  : Prop :=
  resps <> [] /\
  forall r, r ∈ resps ->
    exists s, GetSeries r = Some s /\ storepb.Labels s = lbls.

End dedup_spec.

Module heap_spec.

Import heap.

(** The cursor of a child stands on a response. *)
Definition positioned (c : respSet) : Prop :=
  0 <= heap.i c < len (responses c).

(** Every node among the first [n] of the heap points to a child whose
    cursor stands on a response. *)
Definition ok_below (n : nat) (w : world respSet) : Prop :=
  forall r, r ∈ take n (h w) ->
    exists c, store w !! r = Some c /\ positioned c.

(** The heap as the merger keeps it between calls: no child is in the
    heap twice, and every child in it stands on a response. *)
Definition live (w : world respSet) : Prop :=
  NoDup (h w) /\ ok_below (length (h w)) w.

(** The responses a child has still to give, the one under its cursor
    first. *)
Definition rest_of (st : list respSet) (r : ref) : list SeriesResponse :=
  match st !! r with
  | Some c => drop (Z.to_nat (heap.i c)) (responses c)
  | None => []
  end.

(** The responses the children in the heap have still to give. *)
Definition remaining (w : world respSet) : list SeriesResponse :=
  h w ≫= rest_of (store w).

End heap_spec.

Module heap_order.

Import heap heap_spec.

(** The comparison of two labels inside [labels.Compare]. *)
Definition pair_cmp (x y : Label) : comparison :=
  match String.compare (Name x) (Name y) with
  | Lt => Lt
  | Gt => Gt
  | Eq => String.compare (Value x) (Value y)
  end.

(** The comparison of [ProxyResponseHeap.Less] on two responses: a
    response without a series goes before one with a series, two series
    are compared by their label sets. *)
Definition less (x y : SeriesResponse) : bool :=
  match GetSeries x, GetSeries y with
  | Some sx, Some sy =>
      Compare (storepb.Labels sx) (storepb.Labels sy) <? 0
  | None, Some _ => true
  | Some _, None => false
  | None, None => false
  end.

(** [x] may be given out before [y]: [y] is not less than [x]. *)
Definition not_after (x y : SeriesResponse) : Prop := less y x = false.

(** The response under the cursor of the child [r]. *)
Definition top (st : list respSet) (r : ref) : option SeriesResponse :=
  match st !! r with
  | Some c => index (responses c) (heap.i c)
  | None => None
  end.

(** The response the node at position [p] of the heap is ordered by. *)
Definition key (w : world respSet) (p : Z) : option SeriesResponse :=
  match index (h w) p with
  | Some r => top (store w) r
  | None => None
  end.

(** The children of position [p] are at [2p+1] and [2p+2]. *)
Definition child_of (p c : Z) : Prop :=
  c = 2 * p + 1 \/ c = 2 * p + 1 + 1.

(** The heap condition of [container/heap] on the first [n] nodes, for
    the parents from position [i0] on: no child is less than its
    parent. *)
Definition heap_from (i0 n : Z) (w : world respSet) : Prop :=
  forall p c x y,
    i0 <= p -> c < n -> child_of p c ->
    key w p = Some x -> key w c = Some y -> not_after x y.

(** The heap condition while [down] sifts the node at [k]: it holds
    for every other parent, and the parent of [k] is ordered before the
    children of [k]. *)
Definition hole_at (i0 k n : Z) (w : world respSet) : Prop :=
  (forall p c x y,
     i0 <= p -> p <> k -> c < n -> child_of p c ->
     key w p = Some x -> key w c = Some y -> not_after x y) /\
  (forall g c x y,
     i0 <= g -> child_of g k -> c < n -> child_of k c ->
     key w g = Some x -> key w c = Some y -> not_after x y).

(** Every child in the heap has its responses still to come in
    order. *)
Definition sorted_rest (w : world respSet) : Prop :=
  forall r, r ∈ h w -> StronglySorted not_after (rest_of (store w) r).

(** A heap as [container/heap] keeps it. *)
Definition ordered (w : world respSet) : Prop :=
  live w /\ heap_from 0 (Len w) w /\ sorted_rest w.

End heap_order.

Module heap_scenarios.

(** A series response with the label [test=v] and no chunks. *)
Definition resp (v : string) : SeriesResponse :=
  SeriesFrame (mkSeries (FromStrings "test" v) []).

(** Two children whose responses interleave; the first one starts with
    a warning. *)
Definition interleaved : list heap.respSet :=
  [heap.mkRespSet [WarningFrame "w"; resp "a"; resp "c"] 0;
   heap.mkRespSet [resp "b"; resp "d"] 0].

(** Two children that start on the same labels. *)
Definition twins : list heap.respSet :=
  [heap.mkRespSet [resp "a"; resp "b"] 0;
   heap.mkRespSet [resp "a"; resp "c"] 0].

End heap_scenarios.

(** ** The tournament tree of [proxy_tree.go] *)

Module proxy_tree.

(** [ProxyTournamentTree]: the auxiliary nodes are streams themselves;
    [None] is the nil interface. *)
Record ProxyTournamentTree := mkTree {
  nodes : list SeriesSet;
  auxiliaryNodes : list SeriesSet;
  lastChangedIndex : Z;
}.

(** The tree together with the stream objects its nodes point to. *)
Record world := mkWorld {
  store : list mockSeriesSet;
  t : ProxyTournamentTree;
}.

Definition set_aux (a : list SeriesSet) (w : world) : world :=
  mkWorld (store w) (mkTree (nodes (t w)) a (lastChangedIndex (t w))).

(** [t.nodes[k]] *)
Definition getNode (k : Z) : M world SeriesSet :=
  fun w => match index (nodes (t w)) k with
           | Some s => (Ret s, w)
           | None => (Panic index_out_of_range, w)
           end.

(** [t.auxiliaryNodes[k]] *)
Definition getAux (k : Z) : M world SeriesSet :=
  fun w => match index (auxiliaryNodes (t w)) k with
           | Some s => (Ret s, w)
           | None => (Panic index_out_of_range, w)
           end.

(** [t.auxiliaryNodes[k] = s] *)
Definition setAux (k : Z) (s : SeriesSet) : M world unit :=
  fun w => if in_range (auxiliaryNodes (t w)) k
           then (Ret tt,
                 set_aux (<[Z.to_nat k := s]> (auxiliaryNodes (t w))) w)
           else (Panic index_out_of_range, w).

(** [mockSeriesSet.At] of [proxy_tree_test.go]: the series under the
    cursor, the nil series past the end. *)
Definition mock_At (m : mockSeriesSet) : outcome (option Labels) :=
  if len (series m) <=? i m then Ret None
  else match index (series m) (i m) with
       | Some l => Ret (Some l)
       | None => Panic index_out_of_range
       end.

(** [s.At().Labels()] for the stream [s] points to in [st]: a method
    call on a nil interface panics, be it the stream or the series. *)
Definition labelsAt (st : list mockSeriesSet) (s : SeriesSet)
  : outcome Labels :=
  match s with
  | None => Panic nil_dereference
  | Some r =>
      match st !! r with
      | None => Panic nil_dereference
      | Some m =>
          match mock_At m with
          | Ret (Some l) => Ret l
          | Ret None => Panic nil_dereference
          | Panic msg => Panic msg
          | Diverge => Diverge
          | OutOfFuel => OutOfFuel
          end
      end
  end.

Definition callLabels (s : SeriesSet) : M world Labels :=
  fun w => (labelsAt (store w) s, w).

Definition isNil (s : SeriesSet) : bool :=
  match s with None => true | Some _ => false end.

(** Body of the first loop of [Fix], for one pair of leaves. *)
Definition Fix_leaves (left : Z) : M world Z :=
  let right := left + 1 in
  let loserIndex := Z.quot left 2 in
  let* w := get in
  do* (if right =? len (nodes (t w)) then
         let* l := getNode left in setAux loserIndex l
       else
         let* l := getNode left in
         let* startLbls := callLabels l in
         let* r := getNode right in
         let* endLbls := callLabels r in
         if Compare startLbls endLbls <? 0 then
           let* l := getNode left in setAux loserIndex l
         else
           let* r := getNode right in setAux loserIndex r)
  in ret loserIndex.

(** Body of the inner loop of [Fix] over one upper level; the local
    [lastLoserIndex] is threaded. *)
Definition Fix_upper (until : Z) (lastLoserIndex left : Z) : M world Z :=
  let right := left + 1 in
  let loserIndex := lastLoserIndex + 1 in
  let* alone := (if right =? until then ret true
                 else let* r := getAux right in ret (isNil r)) in
  do* (if (alone : bool) then
         let* l := getAux left in setAux loserIndex l
       else
         let* l := getAux left in
         let* startLbls := callLabels l in
         let* r := getAux right in
         let* endLbls := callLabels r in
         if Compare startLbls endLbls <? 0 then
           let* l := getAux left in setAux loserIndex l
         else
           let* r := getAux right in setAux loserIndex r)
  in ret (lastLoserIndex + 1).

(** The outer loop of [Fix]:
    [for lastLoserIndex != len(t.auxiliaryNodes)-1 { ... }]. *)
Fixpoint Fix_levels (fuel : nat) (firstIter : bool)
    (oldLastLoserIndex lastLoserIndex : Z) : M world unit :=
  match fuel with
  | O => out_of_fuel
  | S f =>
      let* w := get in
      if lastLoserIndex =? len (auxiliaryNodes (t w)) - 1 then ret tt
      else
        let from := if firstIter then 0 else oldLastLoserIndex + 1 in
        let until := lastLoserIndex + 1 in
        let* lastLoserIndex' :=
          foldM (for_range from until 2) lastLoserIndex (Fix_upper until) in
        Fix_levels f false lastLoserIndex lastLoserIndex'
  end.

(** [Fix]: the initial build; [lastChangedIndex] is never written, so
    that every call builds. *)
Definition Fix : M world unit :=
  let* w := get in
  if lastChangedIndex (t w) =? -1 then
    let* lastLoserIndex :=
      foldM (for_range 0 (len (nodes (t w))) 2) (-1)
        (fun _ left => Fix_leaves left) in
    if lastLoserIndex <? len (auxiliaryNodes (t w)) then
      Fix_levels (S (length (auxiliaryNodes (t w)))) true 0 lastLoserIndex
    else ret tt
  else ret tt.

(** [NewProxyTournamentTree]: [st] holds the stream objects the
    elements of [ns] point to.  The loop that counts the auxiliary
    nodes is the one of the later revision. *)
Definition NewProxyTournamentTree (st : list mockSeriesSet)
    (ns : list SeriesSet) : outcome unit * world :=
  let auxNodes := tree.countAuxNodes (length ns) (len ns) 0 in
  Fix (mkWorld st (mkTree ns (replicate (Z.to_nat auxNodes) None) (-1))).

End proxy_tree.

(** What the tree of [proxy_tree.go] is to hold: each level the
    winners of the pairs of the level below. *)
Module tournament.

Import proxy_tree.

(** The stream [Fix] takes from a pair: the left one only when its
    labels are strictly smaller. *)
Definition winner (st : list mockSeriesSet) (a b : SeriesSet) : SeriesSet :=
  match labelsAt st a, labelsAt st b with
  | Ret la, Ret lb => if Compare la lb <? 0 then a else b
  | _, _ => b
  end.

(** The winners of the pairs of a level; a last node without a partner
    goes up as it is. *)
Fixpoint pairup (st : list mockSeriesSet) (l : list SeriesSet)
  : list SeriesSet :=
  match l with
  | [] => []
  | [a] => [a]
  | a :: b :: rest => winner st a b :: pairup st rest
  end.

(** The levels above [lvl], bottom up, down to a level of one node. *)
Fixpoint levels (fuel : nat) (st : list mockSeriesSet)
    (lvl : list SeriesSet) : list SeriesSet :=
  match fuel with
  | O => []
  | S f =>
      match lvl with
      | [] | [_] => []
      | _ => pairup st lvl ++ levels f st (pairup st lvl)
      end
  end.

(** The stream stands on a series. *)
Definition live (st : list mockSeriesSet) (s : SeriesSet) : Prop :=
  exists l, labelsAt st s = Ret l.

(** The labels under [a] are not greater than those under [b]. *)
Definition before (st : list mockSeriesSet) (a b : SeriesSet) : Prop :=
  exists la lb,
    labelsAt st a = Ret la /\ labelsAt st b = Ret lb /\ Compare la lb <= 0.

(** What [Fix] leaves as it is: the streams, the leaves, the field
    [lastChangedIndex] and the number of auxiliary nodes. *)
Definition untouched (w w' : world) : Prop :=
  store w' = store w /\ nodes (t w') = nodes (t w) /\
  lastChangedIndex (t w') = lastChangedIndex (t w) /\
  length (auxiliaryNodes (t w')) = length (auxiliaryNodes (t w)).

(** From [w] the computation ends: it returns a value with [Q], or it
    panics; either way it leaves alone what [Fix] leaves alone. *)
Definition ok {A} (m : M world A) (w : world) (Q : A -> world -> Prop)
  : Prop :=
  match m w with
  | (Ret a, w') => untouched w w' /\ Q a w'
  | (Panic _, w') => untouched w w'
  | (Diverge, _) | (OutOfFuel, _) => False
  end.

End tournament.

(** ** The wrapper over the heap *)

Module dedup_merge.

Import heap dedup.

(** The consumer loop over the wrapper: [for d.Next() { d.At() }], what
    [At] returns collected in order. *)
Fixpoint dedupAll (Hash : AggrChunk -> string) (rounds : nat)
    (d : dedupResponseHeap)
  : outcome (list (option SeriesResponse)) * dedupResponseHeap :=
  match rounds with
  | O => (Ret [], d)
  | S k =>
      match dNext d with
      | (Ret true, d1) =>
          match dAt Hash d1 with
          | (Ret r, d2) =>
              match dedupAll Hash k d2 with
              | (Ret rs, d3) => (Ret (r :: rs), d3)
              | other => other
              end
          | (Panic msg, d2) => (Panic msg, d2)
          | (Diverge, d2) => (Diverge, d2)
          | (OutOfFuel, d2) => (OutOfFuel, d2)
          end
      | (Ret false, d1) => (Ret [], d1)
      | (Panic msg, d1) => (Panic msg, d1)
      | (Diverge, d1) => (Diverge, d1)
      | (OutOfFuel, d1) => (OutOfFuel, d1)
      end
  end.

(** The label set of a series response. *)
Definition labelOf (r : SeriesResponse) : Labels :=
  match GetSeries r with
  | Some s => storepb.Labels s
  | None => []
  end.

(** The responses that are neither in the buffer nor given out: the one
    the wrapper has put aside, and those the heap has still to give. *)
Definition pending (d : dedupResponseHeap) : list SeriesResponse :=
  match previousResponse d with
  | Some r => [r]
  | None => []
  end ++ heap_spec.remaining (hw d).

Definition all_series (l : list SeriesResponse) : Prop :=
  Forall (fun y => GetSeries y <> None) l.

(** No response of [l] has labels smaller than [L]. *)
Definition at_least (L : Labels) (l : list SeriesResponse) : Prop :=
  Forall (fun y => Compare L (labelOf y) <= 0) l.

(** Every response of [l] has labels greater than [L]. *)
Definition above (L : Labels) (l : list SeriesResponse) : Prop :=
  Forall (fun y => Compare L (labelOf y) < 0) l.

(** The wrapper between an [At] and the next [Next], over an ordered
    heap that holds series only. *)
Definition between_calls (d : dedupResponseHeap) : Prop :=
  heap_order.ordered (hw d) /\
  responses d = [] /\
  all_series (pending d) /\
  (forall r, previousResponse d = Some r ->
             at_least (labelOf r) (heap_spec.remaining (hw d))) /\
  (previousNext d = true <-> pending d <> []).

(** The wrapper inside the loop of [Next], the buffer a run of series
    with the labels [L]. *)
Definition in_run (L : Labels) (d : dedupResponseHeap) : Prop :=
  heap_order.ordered (hw d) /\
  all_series (heap_spec.remaining (hw d)) /\
  dedup_spec.series_run L (responses d) /\
  at_least L (heap_spec.remaining (hw d)) /\
  previousResponse d = None.

End dedup_merge.

(** * Properties *)

(** ** The monad *)

Section MonadFacts.

Context {W : Type}.

Lemma bind_Ret_inv {A B} (m : M W A) (k : A -> M W B) w b w' :
  bind m k w = (Ret b, w') ->
  exists a w1, m w = (Ret a, w1) /\ k a w1 = (Ret b, w').
Proof.
  unfold bind. destruct (m w) as [[a| | |] w1]; intros H;
    try discriminate. eauto.
Qed.

Lemma bind_Ret {A B} (m : M W A) (k : A -> M W B) w a w1 :
  m w = (Ret a, w1) -> bind m k w = k a w1.
Proof. unfold bind. intros ->. reflexivity. Qed.

Variable R : W -> W -> Prop.
Hypothesis R_refl : forall w, R w w.
Hypothesis R_trans : forall a b c, R a b -> R b c -> R a c.

Lemma preserves_ret {A} (a : A) : preserves R (ret a).
Proof. intros w o w' H. inversion H. apply R_refl. Qed.

Lemma preserves_panic {A} msg : preserves R (@panic W A msg).
Proof. intros w o w' H. inversion H. apply R_refl. Qed.

Lemma preserves_diverge {A} : preserves R (@diverge W A).
Proof. intros w o w' H. inversion H. apply R_refl. Qed.

Lemma preserves_out_of_fuel {A} : preserves R (@out_of_fuel W A).
Proof. intros w o w' H. inversion H. apply R_refl. Qed.

Lemma preserves_get : preserves R (@get W).
Proof. intros w o w' H. inversion H. apply R_refl. Qed.

Lemma preserves_bind {A B} (m : M W A) (k : A -> M W B) :
  preserves R m -> (forall a, preserves R (k a)) -> preserves R (bind m k).
Proof.
  intros Hm Hk w o w'. unfold bind.
  destruct (m w) as [[a| | |] w1] eqn:E; intros H.
  - eapply R_trans; [eapply Hm, E | eapply Hk, H].
  - inversion H; subst. eapply Hm, E.
  - inversion H; subst. eapply Hm, E.
  - inversion H; subst. eapply Hm, E.
Qed.

Lemma preserves_foldM {A B} (body : B -> A -> M W B) xs :
  (forall acc x, preserves R (body acc x)) ->
  forall acc, preserves R (foldM xs acc body).
Proof.
  intros Hb. induction xs as [|x xs IH]; intros acc; simpl.
  - apply preserves_ret.
  - apply preserves_bind; auto.
Qed.

Lemma preserves_forM {A} (body : A -> M W unit) xs :
  (forall x, preserves R (body x)) -> preserves R (forM xs body).
Proof.
  intros Hb. induction xs as [|x xs IH]; simpl.
  - apply preserves_ret.
  - apply preserves_bind; auto.
Qed.

End MonadFacts.

Section FuelFacts.

Context {W : Type}.

Lemma fuel_ret {A} (a : A) : fuel_suffices (@ret W A a).
Proof. intros w. discriminate. Qed.

Lemma fuel_panic {A} msg : fuel_suffices (@panic W A msg).
Proof. intros w. discriminate. Qed.

Lemma fuel_diverge {A} : fuel_suffices (@diverge W A).
Proof. intros w. discriminate. Qed.

Lemma fuel_get : fuel_suffices (@get W).
Proof. intros w. discriminate. Qed.

Lemma fuel_modify f : fuel_suffices (@modify W f).
Proof. intros w. discriminate. Qed.

Lemma fuel_bind {A B} (m : M W A) (k : A -> M W B) :
  fuel_suffices m -> (forall a, fuel_suffices (k a)) ->
  fuel_suffices (bind m k).
Proof.
  intros Hm Hk w. unfold bind. specialize (Hm w).
  destruct (m w) as [[a| | |] w1]; simpl in *; try discriminate; auto.
  apply Hk.
Qed.

Lemma fuel_foldM {A B} (body : B -> A -> M W B) xs :
  (forall acc x, fuel_suffices (body acc x)) ->
  forall acc, fuel_suffices (foldM xs acc body).
Proof.
  intros Hb. induction xs as [|x xs IH]; intros acc; simpl.
  - apply fuel_ret.
  - apply fuel_bind; auto.
Qed.

End FuelFacts.

(** ** Slices *)

Lemma index_Some_nat {A} (l : list A) (i : Z) (x : A) :
  index l i = Some x -> 0 <= i /\ l !! Z.to_nat i = Some x.
Proof.
  unfold index. destruct (i <? 0) eqn:E; [discriminate|].
  apply Z.ltb_ge in E. auto.
Qed.

Lemma index_of_nat {A} (l : list A) (n : nat) :
  index l (Z.of_nat n) = l !! n.
Proof.
  unfold index. destruct (Z.of_nat n <? 0) eqn:E.
  - apply Z.ltb_lt in E. lia.
  - by rewrite Nat2Z.id.
Qed.

Lemma in_range_true {A} (l : list A) (i : Z) :
  in_range l i = true -> 0 <= i /\ (Z.to_nat i < length l)%nat.
Proof.
  unfold in_range. intros H. apply andb_prop in H as [H1 H2].
  apply Z.leb_le in H1. apply Z.ltb_lt in H2. lia.
Qed.

Lemma for_range_fuel_ge fuel from until step x :
  0 <= step -> x ∈ for_range_fuel fuel from until step -> from <= x < until.
Proof.
  intros Hs. revert from. induction fuel as [|f IH]; intros from; simpl.
  - intros H. inversion H.
  - destruct (from <? until) eqn:E; [|intros H; inversion H].
    apply Z.ltb_lt in E. intros H. apply elem_of_cons in H as [->|H]; [lia|].
    apply IH in H. lia.
Qed.

Lemma for_range_ge from until step x :
  0 <= step -> x ∈ for_range from until step -> from <= x < until.
Proof. apply for_range_fuel_ge. Qed.

(** The fuel of [for_range] is enough for steps of one or more: more
    fuel gives the same list. *)
Lemma for_range_fuel_stable fuel :
  forall from until step,
    1 <= step -> until - from <= Z.of_nat fuel ->
    for_range_fuel (S fuel) from until step
    = for_range_fuel fuel from until step.
Proof.
  induction fuel as [|f IH]; intros from until step Hs Hf.
  - simpl. destruct (from <? until) eqn:E; [apply Z.ltb_lt in E; lia|done].
  - change (for_range_fuel (S (S f)) from until step) with
      (if from <? until
       then from :: for_range_fuel (S f) (from + step) until step else []).
    change (for_range_fuel (S f) from until step) with
      (if from <? until
       then from :: for_range_fuel f (from + step) until step else []).
    destruct (from <? until); [|done]. f_equal. apply IH; lia.
Qed.

Lemma preserves_foldM_elem {W A B} (R : W -> W -> Prop)
    (body : B -> A -> M W B) xs :
  (forall w, R w w) -> (forall a b c, R a b -> R b c -> R a c) ->
  (forall acc x, x ∈ xs -> preserves R (body acc x)) ->
  forall acc, preserves R (foldM xs acc body).
Proof.
  intros Hr Ht. induction xs as [|x xs IH]; intros Hb acc; simpl.
  - by apply preserves_ret.
  - apply preserves_bind; [done| |].
    + apply Hb. by left.
    + intros a. apply IH. intros acc' y Hy. apply Hb. by right.
Qed.

(** ** Frame conditions of the tree *)

Module tree_facts.

Import tree tree_frame.

Lemma writes_from_refl k w : writes_from k w w.
Proof. repeat split; auto. Qed.

Lemma writes_from_trans k a b c :
  writes_from k a b -> writes_from k b c -> writes_from k a c.
Proof.
  intros (H1 & H2 & H3 & H4 & H5) (G1 & G2 & G3 & G4 & G5).
  repeat split; try congruence.
  intros j Hj. rewrite G5, H5; auto.
Qed.

Lemma writes_from_mono k k' w w' :
  k' <= Z.max k 0 -> writes_from k w w' -> writes_from k' w w'.
Proof.
  intros Hk (H1 & H2 & H3 & H4 & H5). repeat split; auto.
  intros j Hj. apply H5. lia.
Qed.

Lemma preserves_mono k k' {A} (m : M world A) :
  k' <= Z.max k 0 -> preserves (writes_from k) m -> preserves (writes_from k') m.
Proof. intros Hk H w o w' E. eapply writes_from_mono; eauto. Qed.

Section Frame.

Variable k : Z.

Local Abbreviation keeps m := (preserves (writes_from k) m).

Lemma keeps_getNode i : keeps (getNode i).
Proof.
  intros w o w'. unfold getNode. destruct (index _ _); intros H;
    inversion H; apply writes_from_refl.
Qed.

Lemma keeps_getAux i : keeps (getAux i).
Proof.
  intros w o w'. unfold getAux. destruct (index _ _); intros H;
    inversion H; apply writes_from_refl.
Qed.

Lemma keeps_setAux i a : k <= Z.max i 0 -> keeps (setAux i a).
Proof.
  intros Hk w o w'. unfold setAux.
  destruct (in_range _ _) eqn:E; intros H; inversion H; subst;
    [|apply writes_from_refl].
  apply in_range_true in E as [E1 E2].
  repeat split; simpl; auto.
  - by rewrite length_insert.
  - intros j Hj. apply list_lookup_insert_ne. lia.
Qed.

Lemma keeps_callAt s : keeps (callAt s).
Proof.
  intros w o w'. unfold callAt. intros H; inversion H.
  apply writes_from_refl.
Qed.

Lemma keeps_deref_ss p : keeps (deref_ss p).
Proof.
  destruct p; simpl;
    [apply preserves_ret | apply preserves_panic];
    apply writes_from_refl.
Qed.

Lemma keeps_nilAuxNode i : keeps (nilAuxNode i).
Proof.
  unfold nilAuxNode.
  apply preserves_bind;
    [apply writes_from_trans | apply keeps_getAux |].
  intros [a|]; apply preserves_ret; apply writes_from_refl.
Qed.

Lemma keeps_nilNode i b : keeps (nilNode i b).
Proof.
  intros w o w'. unfold nilNode, bind, get, ret.
  destruct b.
  - destruct (index _ _); intros H; inversion H; apply writes_from_refl.
  - destruct (index _ _) as [[a|]|]; intros H; inversion H;
      apply writes_from_refl.
Qed.

Lemma keeps_peekNode i b : keeps (peekNode i b).
Proof.
  intros w o w'. unfold peekNode, bind, get, ret.
  destruct b.
  - destruct (index _ _); intros H; inversion H; apply writes_from_refl.
  - destruct (index _ _) as [[a|]|]; intros H; inversion H;
      apply writes_from_refl.
Qed.

End Frame.

Create HintDb frame discriminated.

#[export] Hint Resolve writes_from_refl writes_from_trans : frame.
#[export] Hint Resolve keeps_getNode keeps_getAux keeps_callAt
  keeps_deref_ss keeps_nilAuxNode keeps_nilNode keeps_peekNode : frame.

(** Break a computation into its reads and writes. *)
Ltac frame_step k :=
  lazymatch goal with
  | |- preserves _ (bind _ _) =>
      apply preserves_bind;
      [apply (writes_from_trans k) | | intros ?]
  | |- preserves _ (ret _) => apply preserves_ret, writes_from_refl
  | |- preserves _ (panic _) => apply preserves_panic, writes_from_refl
  | |- preserves _ out_of_fuel =>
      apply preserves_out_of_fuel, writes_from_refl
  | |- preserves _ diverge => apply preserves_diverge, writes_from_refl
  | |- preserves _ get => apply preserves_get, writes_from_refl
  | |- preserves _ (setAux _ _) => apply keeps_setAux; try lia
  | |- preserves _ (if ?c then _ else _) => destruct c eqn:?
  | |- preserves _ (match ?c with _ => _ end) => destruct c eqn:?
  | |- preserves _ _ => solve [auto with frame]
  end.

Ltac frame k := repeat frame_step k.

Lemma keeps_initialFix_leaves left :
  0 <= left ->
  preserves (writes_from (Z.quot left 2)) (initialFix_leaves left).
Proof.
  intros Hl. unfold initialFix_leaves. frame (Z.quot left 2).
Qed.

Lemma keeps_initialFix_upper k from prev loserIdx :
  k <= loserIdx ->
  preserves (writes_from k) (initialFix_upper from prev loserIdx).
Proof.
  intros Hk. unfold initialFix_upper. frame k.
Qed.

Lemma nextLevelNodeCount_nonneg n : 0 <= n -> 0 <= nextLevelNodeCount n.
Proof.
  intros Hn. unfold nextLevelNodeCount.
  assert (0 <= Z.quot n 2) by (apply Z.quot_pos; lia).
  destruct (Z.rem n 2 =? 0); [lia|]. destruct (n =? 1); lia.
Qed.

Lemma keeps_initialFix_levels fuel :
  forall from until lastLoserIndex nodesInLevel,
    preserves (writes_from (lastLoserIndex + 1))
      (initialFix_levels fuel from until lastLoserIndex nodesInLevel).
Proof.
  induction fuel as [|f IH]; intros from until lli n; simpl.
  - destruct (n <? 1); frame (lli + 1).
  - destruct (n <? 1) eqn:E; [frame (lli + 1)|].
    apply Z.ltb_ge in E.
    apply preserves_bind; [apply writes_from_trans| |intros _].
    + apply preserves_foldM_elem;
        [apply writes_from_refl | apply writes_from_trans |].
      intros acc x Hx. apply for_range_ge in Hx; [|lia].
      apply keeps_initialFix_upper. lia.
    + eapply preserves_mono; [|apply IH]. lia.
Qed.

End tree_facts.

Module construction.

Import tree tree_frame tree_facts.

Lemma getNode_Ret i s w w' :
  getNode i w = (Ret s, w') -> w' = w /\ index (nodes (t w)) i = Some s.
Proof.
  unfold getNode. destruct (index _ _); intros H; inversion H; auto.
Qed.

Lemma getAux_Ret i a w w' :
  getAux i w = (Ret a, w') ->
  w' = w /\ index (auxiliaryNodes (t w)) i = Some a.
Proof.
  unfold getAux. destruct (index _ _); intros H; inversion H; auto.
Qed.

Lemma setAux_Ret i a w w' :
  setAux i a w = (Ret tt, w') ->
  0 <= i /\ (Z.to_nat i < length (auxiliaryNodes (t w)))%nat /\
  w' = set_aux (<[Z.to_nat i := a]> (auxiliaryNodes (t w))) w.
Proof.
  unfold setAux. destruct (in_range _ _) eqn:E; intros H; inversion H.
  apply in_range_true in E. tauto.
Qed.

Lemma setAux_lookup i a w w' :
  setAux i a w = (Ret tt, w') ->
  auxiliaryNodes (t w') !! Z.to_nat i = Some a.
Proof.
  intros H. apply setAux_Ret in H as (H1 & H2 & ->). simpl.
  by apply list_lookup_insert_eq.
Qed.

(** [initialFix] keeps the streams, the leaves and
    [lastChangedNodeIndex]. *)
Lemma keeps_initialFix : preserves (writes_from 0) initialFix.
Proof.
  unfold initialFix.
  apply preserves_bind; [apply writes_from_trans| |intros w0].
  { apply preserves_get, writes_from_refl. }
  apply preserves_bind; [apply writes_from_trans| |intros lli].
  - apply preserves_foldM_elem;
      [apply writes_from_refl | apply writes_from_trans |].
    intros acc x Hx. apply for_range_ge in Hx; [|lia].
    eapply preserves_mono; [|apply keeps_initialFix_leaves; lia]. lia.
  - destruct (lli <? _).
    + eapply preserves_mono; [|apply keeps_initialFix_levels]. lia.
    + apply preserves_ret, writes_from_refl.
Qed.

Lemma NewProxyTournamentTree_frame st ns o w :
  NewProxyTournamentTree st ns = (o, w) ->
  store w = st /\
  nodes (t w) = (if Z.rem (len ns) 2 =? 0 then ns else ns ++ [infinity]) /\
  lastChangedNodeIndex (t w) = -1.
Proof.
  unfold NewProxyTournamentTree. intros H.
  apply keeps_initialFix in H as (H1 & H2 & H3 & _). simpl in *. auto.
Qed.

End construction.

Module pop_facts.

Import tree tree_frame tree_facts construction.

Lemma index_insert_None_inv (a : list (option treeAuxNode)) k idx n :
  index (<[k := None]> a) idx = Some (Some n) ->
  index a idx = Some (Some n).
Proof.
  unfold index. destruct (idx <? 0); [done|].
  destruct (decide (k = Z.to_nat idx)) as [->|Hne].
  - intros H. destruct (decide (Z.to_nat idx < length a)%nat) as [Hl|Hl].
    + rewrite list_lookup_insert_eq in H by done. discriminate.
    + rewrite list_insert_ge in H by lia. done.
  - by rewrite list_lookup_insert_ne.
Qed.

Lemma winner_chain_insert_None a k idx path leaf :
  winner_chain (<[k := None]> a) idx path leaf ->
  winner_chain a idx path leaf.
Proof.
  induction 1 as [idx n H1 H2 H3 | idx n path leaf H1 H2 _ IH].
  - apply chain_leaf; eauto using index_insert_None_inv.
  - eapply chain_aux; eauto using index_insert_None_inv.
Qed.

Lemma Pop_loop_nil fuel idx w w' :
  Pop_loop fuel idx None w <> (Ret tt, w').
Proof. destruct fuel; simpl; discriminate. Qed.

Lemma Pop_loop_chain fuel :
  forall idx cur w w',
    Pop_loop fuel idx (Some cur) w = (Ret tt, w') ->
    index (auxiliaryNodes (t w)) idx = Some (Some cur) ->
    store w' = store w /\ nodes (t w') = nodes (t w) /\
    exists path leaf,
      winner_chain (auxiliaryNodes (t w)) idx path leaf /\
      auxiliaryNodes (t w') = clear_slots path (auxiliaryNodes (t w)) /\
      lastChangedNodeIndex (t w') = leaf.
Proof.
  induction fuel as [|f IH]; intros idx cur w w' H Hidx; simpl in H;
    [discriminate|].
  destruct (previousAuxIndex cur =? -1) eqn:Ea; simpl in H.
  - apply Z.eqb_eq in Ea.
    destruct (previousNodeIndex cur =? -1) eqn:En; simpl in H;
      [discriminate|].
    apply Z.eqb_neq in En.
    apply bind_Ret_inv in H as ([] & w1 & Hs & Hm).
    apply setAux_Ret in Hs as (_ & _ & ->).
    inversion Hm; subst; simpl. repeat split.
    exists [idx], (previousNodeIndex cur). repeat split.
    by apply chain_leaf.
  - apply Z.eqb_neq in Ea.
    apply bind_Ret_inv in H as (next & w0 & Hg & H).
    apply getAux_Ret in Hg as (-> & Hnext).
    apply bind_Ret_inv in H as ([] & w1 & Hs & H).
    apply setAux_Ret in Hs as (Hi0 & Hil & ->).
    destruct next as [n'|]; [|by apply Pop_loop_nil in H].
    destruct (decide (previousAuxIndex cur = idx)) as [Heq|Hne].
    + (* a node that names itself: the slot read next is nil *)
      exfalso. rewrite Heq in *.
      destruct f as [|f']; simpl in H; [discriminate|].
      assert (n' = cur) by congruence. subst n'.
      rewrite Heq in H.
      destruct (idx =? -1) eqn:E1; [apply Z.eqb_eq in E1; lia|].
      simpl in H.
      apply bind_Ret_inv in H as (next & w0 & Hg & H).
      apply getAux_Ret in Hg as (-> & Hnext').
      simpl in Hnext'. unfold index in Hnext'.
      destruct (idx <? 0) eqn:E0; [discriminate|].
      rewrite list_lookup_insert_eq in Hnext' by done.
      inversion Hnext'; subst next.
      apply bind_Ret_inv in H as ([] & w1 & _ & H).
      by apply Pop_loop_nil in H.
    + apply IH in H as (Hst & Hn & path & leaf & Hc & Ha & Hl).
      * simpl in *. repeat split; auto.
        exists (idx :: path), leaf. repeat split; auto.
        eapply chain_aux; eauto.
        eapply winner_chain_insert_None; eauto.
      * simpl. revert Hnext. unfold index.
        destruct (previousAuxIndex cur <? 0) eqn:E0; [done|].
        apply Z.ltb_ge in E0. intros Hnext.
        rewrite list_lookup_insert_ne by lia. done.
Qed.

Lemma leaves_alone_refl w : leaves_alone w w.
Proof. by split. Qed.

Lemma leaves_alone_trans a b c :
  leaves_alone a b -> leaves_alone b c -> leaves_alone a c.
Proof. intros [H1 H2] [G1 G2]. split; congruence. Qed.

Lemma alone_getAux i : preserves leaves_alone (getAux i).
Proof.
  intros w o w'. unfold getAux. destruct (index _ _); intros H;
    inversion H; apply leaves_alone_refl.
Qed.

Lemma alone_setAux i a : preserves leaves_alone (setAux i a).
Proof.
  intros w o w'. unfold setAux. destruct (in_range _ _); intros H;
    inversion H; by split.
Qed.

Lemma alone_Pop_loop fuel :
  forall idx cur, preserves leaves_alone (Pop_loop fuel idx cur).
Proof.
  induction fuel as [|f IH]; intros idx cur; simpl.
  - apply preserves_out_of_fuel, leaves_alone_refl.
  - destruct cur as [cur|]; [|apply preserves_panic, leaves_alone_refl].
    destruct (negb (previousAuxIndex cur =? -1)).
    + apply preserves_bind;
        [apply leaves_alone_trans | apply alone_getAux | intros next].
      apply preserves_bind;
        [apply leaves_alone_trans | apply alone_setAux | intros _].
      apply IH.
    + destruct (negb (previousNodeIndex cur =? -1));
        [|apply preserves_diverge, leaves_alone_refl].
      apply preserves_bind;
        [apply leaves_alone_trans | apply alone_setAux | intros _].
      intros w o w' H. inversion H. by split.
Qed.

(** On every way out, [Pop] leaves the streams and the leaves alone. *)
Lemma alone_Pop : preserves leaves_alone Pop.
Proof.
  unfold Pop.
  apply preserves_bind;
    [apply leaves_alone_trans
    | apply preserves_get, leaves_alone_refl | intros w0].
  apply preserves_bind;
    [apply leaves_alone_trans | apply alone_getAux | intros loser].
  destruct loser as [l|]; [|apply preserves_ret, leaves_alone_refl].
  destruct (negb (isInfinity (ss l)));
    [|apply preserves_ret, leaves_alone_refl].
  apply preserves_bind;
    [apply leaves_alone_trans | apply alone_Pop_loop | intros _].
  apply preserves_ret, leaves_alone_refl.
Qed.

End pop_facts.

Module fix_facts.

Import tree tree_frame tree_facts construction.

Lemma keeps_Fix_step v : preserves (writes_from 0) (Fix_step v).
Proof. unfold Fix_step. frame 0. Qed.

Lemma keeps_Fix_loop fuel :
  forall v, preserves (writes_from 0) (Fix_loop fuel v).
Proof.
  induction fuel as [|f IH]; intros v; simpl.
  - destruct (nodesInLevel v <=? 0); frame 0.
  - destruct (nodesInLevel v <=? 0); [frame 0|].
    apply preserves_bind;
      [apply writes_from_trans | apply keeps_Fix_step | done].
Qed.

(** The one stream [Fix] may advance is the one under the leaf that
    [lastChangedNodeIndex] names. *)
Lemma Fix_store w o w' :
  Fix w = (o, w') ->
  store w' = store w \/
  exists r m,
    index (nodes (t w)) (lastChangedNodeIndex (t w)) = Some (Some r) /\
    store w !! r = Some m /\
    store w' = <[r := snd (mock_Next m)]> (store w).
Proof.
  unfold Fix, bind at 1, get.
  destruct (lastChangedNodeIndex (t w) =? -1); [intros H; inversion H; auto|].
  unfold bind at 1, getNode.
  destruct (index (nodes (t w)) _) as [leaf|] eqn:El;
    [|intros H; inversion H; auto].
  unfold bind at 1, callNext.
  destruct leaf as [r|]; [|intros H; inversion H; auto].
  destruct (store w !! r) as [m|] eqn:Em; [|intros H; inversion H; auto].
  destruct (mock_Next m) as [b m'] eqn:En. intros H. right.
  exists r, m. rewrite En. simpl. repeat split; auto.
  revert H. unfold bind at 1.
  destruct b.
  - unfold ret. intros H. apply keeps_Fix_loop in H as (H & _).
    rewrite H. reflexivity.
  - unfold setNode. destruct (in_range _ _); simpl.
    + intros H. apply keeps_Fix_loop in H as (H & _). rewrite H.
      reflexivity.
    + intros H. inversion H. reflexivity.
Qed.

End fix_facts.

(** ** The fuel of the loops of the tree is never used up *)

Module fuel_facts.

Import tree tree_frame.

Lemma fuel_getNode i : fuel_suffices (getNode i).
Proof. intros w. unfold getNode. destruct (index _ _); discriminate. Qed.

Lemma fuel_setNode i s : fuel_suffices (setNode i s).
Proof. intros w. unfold setNode. destruct (in_range _ _); discriminate. Qed.

Lemma fuel_getAux i : fuel_suffices (getAux i).
Proof. intros w. unfold getAux. destruct (index _ _); discriminate. Qed.

Lemma fuel_setAux i a : fuel_suffices (setAux i a).
Proof. intros w. unfold setAux. destruct (in_range _ _); discriminate. Qed.

Lemma fuel_deref_ss p : fuel_suffices (deref_ss p).
Proof. intros w. destruct p; discriminate. Qed.

Lemma fuel_callAt s : fuel_suffices (callAt s).
Proof.
  intros w. unfold callAt, labelsAt. simpl.
  destruct s as [r|]; [|discriminate].
  destruct (store w !! r) as [m|]; [|discriminate].
  unfold mock_At. destruct (_ <=? _); [discriminate|].
  destruct (index _ _); discriminate.
Qed.

Lemma fuel_callNext s : fuel_suffices (callNext s).
Proof.
  intros w. unfold callNext. destruct s as [r|]; [|discriminate].
  destruct (store w !! r) as [m|]; [|discriminate].
  destruct (mock_Next m). discriminate.
Qed.

Lemma fuel_nilNode i b : fuel_suffices (nilNode i b).
Proof.
  intros w. unfold nilNode, bind, get, ret. destruct b.
  - destruct (index _ _); discriminate.
  - destruct (index _ _) as [[a|]|]; discriminate.
Qed.

Lemma fuel_peekNode i b : fuel_suffices (peekNode i b).
Proof.
  intros w. unfold peekNode, bind, get, ret. destruct b.
  - destruct (index _ _); discriminate.
  - destruct (index _ _) as [[a|]|]; discriminate.
Qed.

Lemma fuel_nilAuxNode i : fuel_suffices (nilAuxNode i).
Proof.
  unfold nilAuxNode. apply fuel_bind; [apply fuel_getAux|].
  intros [a|]; apply fuel_ret.
Qed.

Create HintDb fuel discriminated.

#[export] Hint Resolve fuel_getNode fuel_setNode fuel_getAux fuel_setAux
  fuel_deref_ss fuel_callAt fuel_callNext fuel_nilNode fuel_peekNode
  fuel_nilAuxNode : fuel.

Ltac fuel_step :=
  lazymatch goal with
  | |- fuel_suffices (bind _ _) => apply fuel_bind; [|intros ?]
  | |- fuel_suffices (ret _) => apply fuel_ret
  | |- fuel_suffices (panic _) => apply fuel_panic
  | |- fuel_suffices diverge => apply fuel_diverge
  | |- fuel_suffices get => apply fuel_get
  | |- fuel_suffices (modify _) => apply fuel_modify
  | |- fuel_suffices (if ?c then _ else _) => destruct c eqn:?
  | |- fuel_suffices (match ?c with _ => _ end) => destruct c eqn:?
  | |- fuel_suffices _ => solve [auto with fuel]
  end.

Ltac fuel := repeat fuel_step.

Lemma nextLevelNodeCount_lt n : 1 <= n -> nextLevelNodeCount n < n.
Proof.
  intros Hn. unfold nextLevelNodeCount.
  rewrite Z.rem_mod_nonneg, Z.quot_div_nonneg by lia.
  destruct (n mod 2 =? 0) eqn:E;
    [apply Z.eqb_eq in E | apply Z.eqb_neq in E].
  - Z.div_mod_to_equations. lia.
  - destruct (n =? 1) eqn:E1;
      [apply Z.eqb_eq in E1 | apply Z.eqb_neq in E1];
      Z.div_mod_to_equations; lia.
Qed.

Lemma fuel_initialFix_leaves left : fuel_suffices (initialFix_leaves left).
Proof. unfold initialFix_leaves. fuel. Qed.

Lemma fuel_initialFix_upper from prev loserIdx :
  fuel_suffices (initialFix_upper from prev loserIdx).
Proof. unfold initialFix_upper. fuel. Qed.

Lemma fuel_initialFix_levels fuel :
  forall from until lastLoserIndex nodesInLevel,
    nodesInLevel <= Z.of_nat fuel ->
    fuel_suffices
      (initialFix_levels fuel from until lastLoserIndex nodesInLevel).
Proof.
  induction fuel as [|f IH]; intros from until lli n Hn; simpl.
  - destruct (n <? 1) eqn:E; [apply fuel_ret|].
    apply Z.ltb_ge in E. lia.
  - destruct (n <? 1) eqn:E; [apply fuel_ret|].
    apply Z.ltb_ge in E.
    apply fuel_bind; [|intros _].
    + apply fuel_foldM. intros acc x. apply fuel_initialFix_upper.
    + apply IH. pose proof (nextLevelNodeCount_lt n E). lia.
Qed.

(** [initialFix] never runs out of fuel. *)
Lemma fuel_initialFix : fuel_suffices initialFix.
Proof.
  unfold initialFix. apply fuel_bind; [apply fuel_get|intros w0].
  apply fuel_bind; [|intros lli].
  - apply fuel_foldM. intros acc x. apply fuel_initialFix_leaves.
  - destruct (lli <? _); [|apply fuel_ret].
    apply fuel_initialFix_levels.
    destruct (Z_le_gt_dec 0
                (nextLevelNodeCount (nextLevelNodeCount (len (nodes (t w0))))));
      lia.
Qed.

Lemma fuel_Fix_step v : fuel_suffices (Fix_step v).
Proof. unfold Fix_step. fuel. Qed.

Lemma Fix_step_level v w v' w' :
  Fix_step v w = (Ret v', w') ->
  nodesInLevel v' = nextLevelNodeCount (nodesInLevel v).
Proof.
  unfold Fix_step. intros H.
  apply bind_Ret_inv in H as (c1 & w1 & _ & H).
  apply bind_Ret_inv in H as ([] & w2 & _ & H).
  inversion H. reflexivity.
Qed.

Lemma fuel_Fix_loop fuel :
  forall v, nodesInLevel v <= Z.of_nat fuel ->
            fuel_suffices (Fix_loop fuel v).
Proof.
  induction fuel as [|f IH]; intros v Hn w; simpl.
  - destruct (nodesInLevel v <=? 0) eqn:E; [discriminate|].
    apply Z.leb_gt in E. lia.
  - destruct (nodesInLevel v <=? 0) eqn:E; [discriminate|].
    apply Z.leb_gt in E. unfold bind.
    pose proof (fuel_Fix_step v w) as Hs.
    destruct (Fix_step v w) as [[v'| | |] w1] eqn:Es; simpl in *;
      try discriminate; [|done].
    apply IH. apply Fix_step_level in Es. rewrite Es.
    pose proof (nextLevelNodeCount_lt (nodesInLevel v)). lia.
Qed.

(** [Fix] never runs out of fuel. *)
Lemma fuel_Fix : fuel_suffices Fix.
Proof.
  unfold Fix. apply fuel_bind; [apply fuel_get|intros w0].
  destruct (_ =? -1); [apply fuel_panic|].
  apply fuel_bind; [apply fuel_getNode|intros leaf].
  apply fuel_bind; [apply fuel_callNext|intros b].
  apply fuel_bind; [destruct b; [apply fuel_ret|apply fuel_setNode]|].
  intros _. apply fuel_Fix_loop. cbn [nodesInLevel].
  destruct (Z_le_gt_dec 0 (nextLevelNodeCount (len (nodes (t w0))))); lia.
Qed.

Lemma live_slots_le a : (live_slots a <= length a)%nat.
Proof. induction a as [|[x|] a IH]; simpl; lia. Qed.

Lemma live_slots_clear a k x :
  a !! k = Some (Some x) ->
  S (live_slots (<[k := None]> a)) = live_slots a.
Proof.
  revert k. induction a as [|[y|] a IH]; intros [|k] H; simpl in *;
    try discriminate; auto.
Qed.

(** A node whose back reference names a slot that is nil: the loop of
    [Pop] ends in a panic. *)
Lemma Pop_loop_dangling fuel idx cur w :
  (2 <= fuel)%nat ->
  previousAuxIndex cur <> -1 ->
  index (auxiliaryNodes (t w)) (previousAuxIndex cur) = Some None ->
  fst (Pop_loop fuel idx (Some cur) w) <> OutOfFuel.
Proof.
  intros Hf Hp Hi. destruct fuel as [|[|f]]; try lia.
  cbn [Pop_loop]. apply Z.eqb_neq in Hp. rewrite Hp. cbn [negb].
  unfold bind at 1, getAux. rewrite Hi.
  unfold bind at 1. pose proof (fuel_setAux idx None w) as Hs.
  destruct (setAux idx None w) as [[[]| | |] w1];
    simpl in *; try discriminate. done.
Qed.

Lemma Pop_loop_fuel fuel :
  forall idx cur w,
    index (auxiliaryNodes (t w)) idx = Some (Some cur) ->
    (live_slots (auxiliaryNodes (t w)) + 2 <= fuel)%nat ->
    fst (Pop_loop fuel idx (Some cur) w) <> OutOfFuel.
Proof.
  induction fuel as [|f IH]; intros idx cur w Hi Hf; [lia|].
  cbn [Pop_loop].
  apply index_Some_nat in Hi as (Hi0 & Hi).
  pose proof (live_slots_clear _ _ _ Hi) as Hclear.
  assert (in_range (auxiliaryNodes (t w)) idx = true) as Hr.
  { unfold in_range. apply lookup_lt_Some in Hi.
    apply andb_true_intro. split; [apply Z.leb_le|apply Z.ltb_lt]; lia. }
  destruct (previousAuxIndex cur =? -1) eqn:Ea; cbn [negb].
  - destruct (previousNodeIndex cur =? -1); cbn [negb]; [discriminate|].
    unfold bind, setAux. rewrite Hr. discriminate.
  - apply Z.eqb_neq in Ea. unfold bind at 1, getAux.
    destruct (index (auxiliaryNodes (t w)) (previousAuxIndex cur))
      as [next|] eqn:En; [|discriminate].
    unfold bind at 1, setAux. rewrite Hr.
    destruct next as [n'|].
    + destruct (decide (previousAuxIndex cur = idx)) as [Heq|Hne].
      * assert (n' = cur) as ->.
        { rewrite Heq in En. unfold index in En.
          destruct (idx <? 0); [done|]. congruence. }
        apply Pop_loop_dangling; [lia|done|].
        cbn [t auxiliaryNodes set_aux]. rewrite Heq. unfold index.
        destruct (idx <? 0) eqn:E0; [apply Z.ltb_lt in E0; lia|].
        rewrite list_lookup_insert_eq; [done|by eapply lookup_lt_Some].
      * apply IH.
        -- cbn [t auxiliaryNodes set_aux]. revert En. unfold index.
           destruct (previousAuxIndex cur <? 0) eqn:E0; [done|].
           apply Z.ltb_ge in E0. intros En.
           rewrite list_lookup_insert_ne by lia. done.
        -- cbn [t auxiliaryNodes set_aux]. lia.
    + destruct f; [lia|]. discriminate.
Qed.

(** [Pop] never runs out of fuel. *)
Lemma fuel_Pop : fuel_suffices Pop.
Proof.
  intros w. unfold Pop, bind at 1, get. unfold bind at 1, getAux.
  destruct (index _ _) as [[l|]|] eqn:Ei; try discriminate.
  destruct (isInfinity (ss l)); cbn [negb]; [discriminate|].
  unfold bind.
  pose proof (Pop_loop_fuel (S (S (length (auxiliaryNodes (t w)))))
                _ _ w Ei) as Hl.
  destruct (Pop_loop _ _ _ w) as [[[]| | |] w1]; simpl in *;
    try discriminate.
  intros _. apply Hl; [|done].
  pose proof (live_slots_le (auxiliaryNodes (t w))). lia.
Qed.

(** [NewProxyTournamentTree] never runs out of fuel. *)
Lemma fuel_NewProxyTournamentTree st ns :
  fst (NewProxyTournamentTree st ns) <> OutOfFuel.
Proof. unfold NewProxyTournamentTree. apply fuel_initialFix. Qed.

End fuel_facts.

(** ** [Pop] along the back references *)

Module pop_chain.

Import tree tree_frame construction fuel_facts.

Lemma chain_head a idx path leaf :
  winner_chain a idx path leaf ->
  exists n rest, index a idx = Some (Some n) /\ path = idx :: rest.
Proof. destruct 1; eauto. Qed.

(** The back references name one chain. *)
Lemma chain_unique a idx p1 l1 :
  winner_chain a idx p1 l1 ->
  forall p2 l2, winner_chain a idx p2 l2 -> p1 = p2 /\ l1 = l2.
Proof.
  induction 1 as [idx n H1 H2 H3 | idx n path leaf H1 H2 _ IH];
    intros p2 l2 G; inversion G as [? m G1 G2 G3 | ? m q ? G1 G2 G3];
    subst; assert (m = n) as -> by congruence; try done.
  destruct (IH _ _ G3) as [-> ->]. done.
Qed.

Lemma chain_suffix a idx p l :
  winner_chain a idx p l ->
  forall k, k ∈ p ->
    exists p', winner_chain a k p' l /\ (length p' <= length p)%nat.
Proof.
  induction 1 as [idx n H1 H2 H3 | idx n path leaf H1 H2 Hc IH];
    intros k Hk.
  - apply list_elem_of_singleton in Hk as ->.
    exists [idx]. split; [by apply chain_leaf|done].
  - apply elem_of_cons in Hk as [->|Hk].
    + exists (idx :: path). split; [by eapply chain_aux|done].
    + destruct (IH k Hk) as (p' & Hp' & Hl). exists p'.
      split; [done|]. cbn [length]. lia.
Qed.

(** A chain does not come back to the slot it left. *)
Lemma chain_fresh a idx n p l :
  index a idx = Some (Some n) ->
  previousAuxIndex n <> -1 ->
  winner_chain a (previousAuxIndex n) p l ->
  idx ∉ p.
Proof.
  intros Hi Hn Hc Hin.
  destruct (chain_suffix _ _ _ _ Hc idx Hin) as (p' & Hp' & Hl).
  assert (winner_chain a idx (idx :: p) l) as Hfull by (by eapply chain_aux).
  destruct (chain_unique _ _ _ _ Hp' _ _ Hfull) as [-> _].
  cbn [length] in Hl. lia.
Qed.

(** Nil written into a slot that is not on the chain leaves the chain
    as it is. *)
Lemma chain_insert a k idx p l :
  winner_chain a idx p l ->
  0 <= k -> k ∉ p ->
  winner_chain (<[Z.to_nat k := None]> a) idx p l.
Proof.
  intros Hc Hk.
  assert (forall j x, index a j = Some x -> j <> k ->
            index (<[Z.to_nat k := None]> a) j = Some x) as Hkeep.
  { intros j x Hj Hne. revert Hj. unfold index.
    destruct (j <? 0) eqn:E0; [done|]. apply Z.ltb_ge in E0. intros Hj.
    rewrite list_lookup_insert_ne by lia. done. }
  induction Hc as [idx n H1 H2 H3 | idx n path leaf H1 H2 Hc IH];
    intros Hnot.
  - apply chain_leaf; [|done..]. apply Hkeep; [done|].
    intros ->. apply Hnot. by left.
  - eapply chain_aux; [|done|].
    + apply Hkeep; [done|]. intros ->. apply Hnot. by left.
    + apply IH. intros Hin. apply Hnot. by right.
Qed.

(** The loop of [Pop] over a chain: it writes nil into the slots of
    the chain, records the leaf and returns. *)
Lemma Pop_loop_follows path :
  forall idx leaf cur fuel w,
    winner_chain (auxiliaryNodes (t w)) idx path leaf ->
    index (auxiliaryNodes (t w)) idx = Some (Some cur) ->
    (live_slots (auxiliaryNodes (t w)) + 2 <= fuel)%nat ->
    Pop_loop fuel idx (Some cur) w
    = (Ret tt,
       set_last leaf (set_aux (clear_slots path (auxiliaryNodes (t w))) w)).
Proof.
  induction path as [|x rest IH]; intros idx leaf cur fuel w Hc Hi Hf.
  { by destruct (chain_head _ _ _ _ Hc) as (? & ? & _ & ?). }
  destruct fuel as [|f]; [lia|]. cbn [Pop_loop].
  pose proof Hi as Hi'. apply index_Some_nat in Hi' as (Hi0 & Hi').
  pose proof (live_slots_clear _ _ _ Hi') as Hclear.
  assert (in_range (auxiliaryNodes (t w)) idx = true) as Hr.
  { unfold in_range. apply lookup_lt_Some in Hi'.
    apply andb_true_intro. split; [apply Z.leb_le|apply Z.ltb_lt]; lia. }
  inversion Hc as [? n H1 H2 H3 | ? n q ? H1 H2 H3]; subst;
    assert (n = cur) as -> by congruence.
  - rewrite H2. change (-1 =? -1) with true. cbn [negb].
    destruct (previousNodeIndex cur =? -1) eqn:En;
      [apply Z.eqb_eq in En; lia|]. cbn [negb].
    unfold bind, setAux. rewrite Hr. reflexivity.
  - destruct (previousAuxIndex cur =? -1) eqn:Ea;
      [apply Z.eqb_eq in Ea; lia|]. cbn [negb].
    destruct (chain_head _ _ _ _ H3) as (next & rest' & Hnext & _).
    unfold bind at 1, getAux. rewrite Hnext.
    unfold bind at 1, setAux. rewrite Hr.
    pose proof (chain_fresh _ _ _ _ _ Hi H2 H3) as Hfresh.
    set (w1 := set_aux (<[Z.to_nat x:=None]> (auxiliaryNodes (t w))) w).
    assert (winner_chain (auxiliaryNodes (t w1)) (previousAuxIndex cur)
              rest leaf) as Hc1 by (by apply chain_insert).
    rewrite (IH _ leaf next f w1 Hc1).
    + reflexivity.
    + destruct (chain_head _ _ _ _ Hc1) as (n1 & ? & Hn1 & _).
      pose proof Hn1 as Hn1'.
      apply pop_facts.index_insert_None_inv in Hn1'.
      rewrite Hn1. congruence.
    + cbn [w1 t auxiliaryNodes set_aux]. lia.
Qed.

End pop_chain.

(** ** The first round of [initialFix] *)

Module first_round_facts.

Import tree tree_frame tree_facts construction first_round.

Lemma initialFix_leaves_Ret left li w w' :
  0 <= left ->
  initialFix_leaves left w = (Ret li, w') ->
  exists l r slot,
    index (nodes (t w)) left = Some l /\
    index (nodes (t w)) (left + 1) = Some r /\
    leaf_winner (store w) l r left slot /\
    li = Z.quot left 2 /\
    (Z.to_nat (Z.quot left 2) < length (auxiliaryNodes (t w)))%nat /\
    w' = set_aux (<[Z.to_nat (Z.quot left 2) := slot]>
                    (auxiliaryNodes (t w))) w.
Proof.
  intros Hl. unfold initialFix_leaves. intros H.
  apply bind_Ret_inv in H as (r & w1 & Hr & H).
  apply getNode_Ret in Hr as (-> & Hr).
  apply bind_Ret_inv in H as (l & w1 & Hl' & H).
  apply getNode_Ret in Hl' as (-> & Hl').
  apply bind_Ret_inv in H as ([] & w1 & H & Hret).
  inversion Hret; subst li w1. clear Hret.
  destruct l as [a|], r as [b|]; simpl in H.
  - apply bind_Ret_inv in H as (la & w1 & Ha & H).
    unfold callAt in Ha. inversion Ha as [[Hla Hw]]. subst w1.
    apply bind_Ret_inv in H as (lb & w1 & Hb & H).
    unfold callAt in Hb. inversion Hb as [[Hlb Hw]]. subst w1.
    exists (Some a), (Some b),
      (Some (if Compare la lb <? 0 then mkAux (Some a) (-1) left
             else mkAux (Some b) (-1) (left + 1))).
    destruct (Compare la lb <? 0) eqn:Ec;
      apply setAux_Ret in H as (_ & Hlen & ->);
      repeat split; auto; simpl; exists la, lb; rewrite Ec; auto.
  - apply setAux_Ret in H as (_ & Hlen & ->).
    exists (Some a), None, (Some (mkAux (Some a) (-1) left)).
    repeat split; auto.
  - apply setAux_Ret in H as (_ & Hlen & ->).
    exists None, (Some b), (Some (mkAux (Some b) (-1) left)).
    repeat split; auto.
  - apply setAux_Ret in H as (_ & Hlen & ->).
    exists None, None, (Some (mkAux infinity 0 0)).
    repeat split; auto.
Qed.

Lemma leaves_loop n fuel :
  forall a acc w lli w',
    0 <= a -> acc < a ->
    foldM (for_range_fuel fuel (2 * a) n 2) acc
      (fun _ left => initialFix_leaves left) w = (Ret lli, w') ->
    acc <= lli /\
    store w' = store w /\ nodes (t w') = nodes (t w) /\
    (forall j : nat, Z.of_nat j < a ->
       auxiliaryNodes (t w') !! j = auxiliaryNodes (t w) !! j) /\
    forall i : nat,
      a <= Z.of_nat i -> 2 * Z.of_nat i < n ->
      Z.of_nat i - a < Z.of_nat fuel ->
      Z.of_nat i <= lli /\
      exists l r slot,
        index (nodes (t w)) (2 * Z.of_nat i) = Some l /\
        index (nodes (t w)) (2 * Z.of_nat i + 1) = Some r /\
        auxiliaryNodes (t w') !! i = Some slot /\
        leaf_winner (store w) l r (2 * Z.of_nat i) slot.
Proof.
  induction fuel as [|f IH]; intros a acc w lli w' Ha Hacc H.
  - simpl in H. inversion H; subst.
    split; [lia|]. repeat split; auto; lia.
  - simpl in H. destruct (2 * a <? n) eqn:E.
    + apply Z.ltb_lt in E. simpl in H.
      apply bind_Ret_inv in H as (li & w1 & Hstep & H).
      apply initialFix_leaves_Ret in Hstep
        as (l & r & slot & Hl & Hr & Hw & -> & Hlen & ->); [|lia].
      replace (2 * a + 2) with (2 * (a + 1)) in H by lia.
      assert (Z.quot (2 * a) 2 = a) as Hq.
      { rewrite Z.mul_comm. apply Z.quot_mul. lia. }
      rewrite Hq in *.
      apply IH in H as (Hle & Hst & Hn & Hbelow & Hpairs); [|lia|lia].
      simpl in Hst, Hn, Hbelow, Hpairs.
      split; [lia|]. split; [done|]. split; [done|]. split.
      * intros j Hj. rewrite Hbelow by lia.
        apply list_lookup_insert_ne. lia.
      * intros i Hi1 Hi2 Hi3.
        destruct (decide (Z.of_nat i = a)) as [Hi|Hi].
        -- split; [lia|]. subst a. exists l, r, slot.
           repeat split; auto.
           rewrite Hbelow by lia. rewrite Nat2Z.id in *.
           by apply list_lookup_insert_eq.
        -- apply Hpairs; lia.
    + apply Z.ltb_ge in E. simpl in H. inversion H; subst.
      split; [lia|]. repeat split; auto; lia.
Qed.

(** After [initialFix], slot [i] holds what the first round stored for
    the leaves [2i] and [2i+1]. *)
Lemma initialFix_first_round w w' (i : nat) :
  initialFix w = (Ret tt, w') ->
  2 * Z.of_nat i < len (nodes (t w)) ->
  store w' = store w /\ nodes (t w') = nodes (t w) /\
  exists l r slot,
    index (nodes (t w)) (2 * Z.of_nat i) = Some l /\
    index (nodes (t w)) (2 * Z.of_nat i + 1) = Some r /\
    auxiliaryNodes (t w') !! i = Some slot /\
    leaf_winner (store w) l r (2 * Z.of_nat i) slot.
Proof.
  intros H Hi.
  pose proof (keeps_initialFix _ _ _ H) as (Hst & Hn & _).
  split; [done|]. split; [done|].
  unfold initialFix in H.
  apply bind_Ret_inv in H as (w0 & w1 & Hg & H). inversion Hg; subst w0 w1.
  apply bind_Ret_inv in H as (lli & w1 & Hloop & H).
  unfold for_range in Hloop. change 0 with (2 * 0) in Hloop at 2.
  apply leaves_loop in Hloop as (_ & Hst1 & Hn1 & _ & Hpairs); [|lia|lia].
  destruct (Hpairs i) as (Hle & l & r & slot & Hl & Hr & Hs & Hw);
    [lia|done|unfold len in *; lia|].
  exists l, r, slot. repeat split; auto.
  destruct (lli <? len (auxiliaryNodes (t w))).
  - apply keeps_initialFix_levels in H as (_ & _ & _ & _ & Hk).
    rewrite Hk by lia. done.
  - inversion H; subst. done.
Qed.

End first_round_facts.

(** ** The number of auxiliary nodes *)

Module shape_facts.

Import tree shape.

Lemma ceil_div_twice n j :
  0 <= n -> 0 <= j ->
  ceil_div (ceil_div n (2 ^ j)) 2 = ceil_div n (2 ^ (j + 1)).
Proof.
  intros Hn Hj. unfold ceil_div.
  assert (0 < 2 ^ j) as Hd by (apply Z.pow_pos_nonneg; lia).
  rewrite Z.pow_add_r by lia. change (2 ^ 1) with 2.
  rewrite <- Z.div_div by lia.
  f_equal.
  replace (n + 2 ^ j * 2 - 1) with (n + 2 ^ j - 1 + 1 * 2 ^ j) by lia.
  rewrite Z.div_add by lia. lia.
Qed.

Lemma halve_is_ceil m :
  0 <= m ->
  (if Z.rem m 2 =? 0 then Z.quot m 2 else 1 + Z.quot m 2) = ceil_div m 2.
Proof.
  intros Hm. unfold ceil_div.
  rewrite Z.rem_mod_nonneg, Z.quot_div_nonneg by lia.
  destruct (m mod 2 =? 0) eqn:E;
    [apply Z.eqb_eq in E | apply Z.eqb_neq in E];
    Z.div_mod_to_equations; lia.
Qed.

Lemma countAuxNodes_levels n fuel :
  forall k m acc,
    0 <= n -> 1 <= k ->
    m = ceil_div n (2 ^ (k - 1)) ->
    2 <= m <= Z.of_nat fuel ->
    countAuxNodes fuel m acc = acc + levelSum fuel n k.
Proof.
  induction fuel as [|f IH]; intros k m acc Hn Hk Hm Hf; [lia|].
  simpl countAuxNodes. simpl levelSum.
  destruct (1 <? m) eqn:E; [|apply Z.ltb_ge in E; lia].
  assert (ceil_div m 2 = ceil_div n (2 ^ k)) as Hnext.
  { subst m. rewrite ceil_div_twice by lia. f_equal. f_equal. lia. }
  pose proof (halve_is_ceil m ltac:(lia)) as Hh.
  assert (1 <= ceil_div m 2 < m) as Hb.
  { unfold ceil_div. Z.div_mod_to_equations. lia. }
  rewrite <- Hnext.
  destruct (Z.rem m 2 =? 0); rewrite Hh.
  - destruct (ceil_div m 2 =? 1) eqn:E1.
    + apply Z.eqb_eq in E1. rewrite E1.
      destruct f; simpl; [lia|]. reflexivity.
    + apply Z.eqb_neq in E1.
      rewrite (IH (k + 1)); try lia.
      rewrite Hnext. f_equal. f_equal. lia.
  - replace (Z.quot m 2) with (ceil_div m 2 - 1) by lia.
    replace (1 + (ceil_div m 2 - 1)) with (ceil_div m 2) by lia.
    destruct (ceil_div m 2 =? 1) eqn:E1.
    + apply Z.eqb_eq in E1. rewrite E1.
      destruct f; simpl; [lia|]. reflexivity.
    + apply Z.eqb_neq in E1.
      rewrite (IH (k + 1)); try lia.
      rewrite Hnext. f_equal. f_equal. lia.
Qed.

Lemma countAuxNodes_nonneg fuel :
  forall m acc, 0 <= m -> 0 <= acc -> 0 <= countAuxNodes fuel m acc.
Proof.
  induction fuel as [|f IH]; intros m acc Hm Hacc; simpl; [done|].
  assert (0 <= Z.quot m 2) by (apply Z.quot_pos; lia).
  destruct (1 <? m); [|done].
  destruct (Z.rem m 2 =? 0); apply IH; lia.
Qed.

(** The tree has as many auxiliary nodes as the levels
    [ceil (n / 2^k)] add up to, [n >= 2] being the number of leaves
    after padding. *)
Lemma aux_count_is_level_sum st ns o w :
  NewProxyTournamentTree st ns = (o, w) ->
  2 <= len (nodes (t w)) ->
  len (auxiliaryNodes (t w)) = auxCount (len (nodes (t w))).
Proof.
  intros H Hn. unfold NewProxyTournamentTree in H. cbv zeta in H.
  apply construction.keeps_initialFix in H as (_ & Hnodes & _ & Hlen & _).
  cbn [t nodes auxiliaryNodes] in Hnodes, Hlen.
  rewrite Hnodes in *. clear Hnodes.
  set (padded := if _ =? 0 then ns else ns ++ [infinity]) in *.
  unfold len at 1. rewrite Hlen, length_replicate.
  rewrite Z2Nat.id by (apply countAuxNodes_nonneg; unfold len; lia).
  unfold auxCount, len in *. rewrite Nat2Z.id.
  rewrite (countAuxNodes_levels (Z.of_nat (length padded)) _ 1); try lia.
  unfold ceil_div. simpl. rewrite Z.div_1_r. lia.
Qed.

(** More fuel changes neither count: the loops end by their own
    conditions. *)
Lemma countAuxNodes_stable fuel :
  forall m acc,
    0 <= m <= Z.of_nat fuel ->
    countAuxNodes (S fuel) m acc = countAuxNodes fuel m acc.
Proof.
  induction fuel as [|f IH]; intros m acc Hm.
  - simpl. destruct (1 <? m) eqn:E; [apply Z.ltb_lt in E; lia|done].
  - change (countAuxNodes (S (S f)) m acc) with
      (if 1 <? m then
         if Z.rem m 2 =? 0
         then countAuxNodes (S f) (Z.quot m 2) (acc + Z.quot m 2)
         else countAuxNodes (S f) (1 + Z.quot m 2) (acc + (1 + Z.quot m 2))
       else acc).
    change (countAuxNodes (S f) m acc) with
      (if 1 <? m then
         if Z.rem m 2 =? 0
         then countAuxNodes f (Z.quot m 2) (acc + Z.quot m 2)
         else countAuxNodes f (1 + Z.quot m 2) (acc + (1 + Z.quot m 2))
       else acc).
    destruct (1 <? m) eqn:E; [|done]. apply Z.ltb_lt in E.
    rewrite Z.quot_div_nonneg, Z.rem_mod_nonneg by lia.
    destruct (m mod 2 =? 0) eqn:Ep;
      [apply Z.eqb_eq in Ep | apply Z.eqb_neq in Ep];
      apply IH; Z.div_mod_to_equations; lia.
Qed.

Lemma levelSum_stable n fuel :
  forall k,
    0 <= n -> 1 <= k ->
    2 <= ceil_div n (2 ^ (k - 1)) <= Z.of_nat fuel ->
    levelSum (S fuel) n k = levelSum fuel n k.
Proof.
  induction fuel as [|f IH]; intros k Hn Hk Hm; [lia|].
  change (levelSum (S (S f)) n k) with
    (if ceil_div n (2 ^ k) =? 1 then 1
     else ceil_div n (2 ^ k) + levelSum (S f) n (k + 1)).
  change (levelSum (S f) n k) with
    (if ceil_div n (2 ^ k) =? 1 then 1
     else ceil_div n (2 ^ k) + levelSum f n (k + 1)).
  destruct (ceil_div n (2 ^ k) =? 1) eqn:E; [done|].
  apply Z.eqb_neq in E. f_equal.
  assert (ceil_div (ceil_div n (2 ^ (k - 1))) 2 = ceil_div n (2 ^ k)) as Hc.
  { rewrite ceil_div_twice by lia. f_equal. f_equal. lia. }
  apply IH; try lia.
  replace (k + 1 - 1) with k by lia. rewrite <- Hc in *.
  unfold ceil_div in *. Z.div_mod_to_equations. lia.
Qed.

(** The sums of the tests: 2, 4, 6 and 10 leaves. *)
Example auxCount_of_the_tests :
  auxCount 2 = 1 /\ auxCount 4 = 3 /\ auxCount 6 = 6 /\ auxCount 10 = 11.
Proof. vm_compute. repeat split. Qed.

End shape_facts.

(** ** The first level of [Fix] *)

Module fix_level_facts.

Import tree tree_frame tree_facts construction fix_facts.

Lemma keeps_Fix_step_from v :
  0 <= auxNodeOffset v ->
  preserves (writes_from (from v)) (Fix_step v).
Proof. intros Ho. unfold Fix_step. frame (from v). Qed.

Lemma keeps_Fix_loop_from fuel :
  forall v,
    0 <= auxNodeOffset v -> from v <= until v + 1 ->
    preserves (writes_from (from v)) (Fix_loop fuel v).
Proof.
  induction fuel as [|f IH]; intros v Ho Hu; simpl.
  - destruct (nodesInLevel v <=? 0); frame (from v).
  - destruct (nodesInLevel v <=? 0) eqn:E; [frame (from v)|].
    apply Z.leb_gt in E.
    intros w o w' H. unfold bind in H.
    destruct (Fix_step v w) as [o1 w1] eqn:Es.
    pose proof (keeps_Fix_step_from v Ho _ _ _ Es) as H1.
    destruct o1 as [v'| | |]; try (inversion H; subst; exact H1).
    eapply writes_from_trans; [exact H1|].
    unfold Fix_step in Es.
    apply bind_Ret_inv in Es as (c1 & w2 & _ & Es).
    apply bind_Ret_inv in Es as ([] & w3 & _ & Es).
    inversion Es; subst v' w3. clear Es.
    eapply writes_from_mono; [|eapply IH; [| |exact H]]; cbn.
    + lia.
    + apply Z.quot_pos; lia.
    + pose proof (nextLevelNodeCount_nonneg (nodesInLevel v)). lia.
Qed.

(** Whatever the right leaf holds, a [Fix] that returns has written
    the left leaf of the pair of the changed leaf into the slot above
    the pair. *)
Lemma Fix_takes_the_left_leaf w w' :
  Fix w = (Ret tt, w') ->
  2 <= len (nodes (t w)) ->
  exists s,
    index (nodes (t w'))
      (if Z.rem (lastChangedNodeIndex (t w)) 2 =? 0
       then lastChangedNodeIndex (t w)
       else lastChangedNodeIndex (t w) - 1) = Some s /\
    index (auxiliaryNodes (t w')) (Z.quot (lastChangedNodeIndex (t w)) 2)
      = Some (Some (mkAux s (-1)
                      (if Z.rem (lastChangedNodeIndex (t w)) 2 =? 0
                       then lastChangedNodeIndex (t w)
                       else lastChangedNodeIndex (t w) - 1))).
Proof.
  intros H Hlen. unfold Fix in H.
  apply bind_Ret_inv in H as (w0 & w1 & Hg & H). inversion Hg; subst w0 w1.
  set (last := lastChangedNodeIndex (t w)) in *.
  destruct (last =? -1) eqn:El; [inversion H|].
  apply bind_Ret_inv in H as (leaf & w1 & Hleaf & H).
  apply getNode_Ret in Hleaf as (-> & Hleaf).
  apply index_Some_nat in Hleaf as (Hl0 & Hleaf).
  apply lookup_lt_Some in Hleaf.
  apply bind_Ret_inv in H as (b & w1 & Hnext & H).
  apply bind_Ret_inv in H as ([] & w2 & Hset & H).
  assert (length (nodes (t w2)) = length (nodes (t w))) as Hlen2.
  { unfold callNext in Hnext. destruct leaf as [r|]; [|inversion Hnext].
    destruct (store w !! r) as [m|]; [|inversion Hnext].
    destruct (mock_Next m) as [b' m']. inversion Hnext; subst b' w1.
    destruct b; [inversion Hset; subst; reflexivity|].
    unfold setNode in Hset. destruct (in_range _ _); inversion Hset.
    cbn. by rewrite length_insert. }
  set (n := nextLevelNodeCount (len (nodes (t w)))) in *.
  assert (Z.quot last 2 < n /\ 1 <= n) as [Hq Hn].
  { unfold n, nextLevelNodeCount, len in *.
    rewrite Z.rem_mod_nonneg, !Z.quot_div_nonneg by lia.
    destruct (_ mod 2 =? 0) eqn:E;
      [apply Z.eqb_eq in E | apply Z.eqb_neq in E].
    - Z.div_mod_to_equations. lia.
    - destruct (_ =? 1) eqn:E1;
        [apply Z.eqb_eq in E1 | apply Z.eqb_neq in E1];
        Z.div_mod_to_equations; lia. }
  destruct (Z.to_nat n) as [|f] eqn:Ef; [lia|].
  cbn [Fix_loop nodesInLevel] in H.
  destruct (n <=? 0) eqn:En; [apply Z.leb_le in En; lia|].
  apply bind_Ret_inv in H as (v1 & w3 & Hstep & H).
  set (left := if Z.rem last 2 =? 0 then last else last - 1) in *.
  set (right := if Z.rem last 2 =? 0 then last + 1 else last) in *.
  assert (0 <= left /\ (Z.to_nat left < length (nodes (t w2)))%nat /\
          0 <= right) as (Hleft0 & Hleftlt & Hright0).
  { unfold left, right. rewrite Z.rem_mod_nonneg by lia.
    destruct (last mod 2 =? 0) eqn:E;
      [apply Z.eqb_eq in E | apply Z.eqb_neq in E];
      Z.div_mod_to_equations; lia. }
  destruct (lookup_lt_is_Some_2 _ _ Hleftlt) as [s Hs].
  unfold Fix_step in Hstep. cbn [from rightIdx leftIdx lookInNodes
    auxNodeOffset until nodesInLevel] in Hstep.
  destruct (0 <=? right) eqn:Er; [|apply Z.leb_gt in Er; lia].
  apply bind_Ret_inv in Hstep as (c1 & w4 & Hc1 & Hstep).
  inversion Hc1; subst c1 w4. clear Hc1.
  apply bind_Ret_inv in Hstep as ([] & w4 & Hwrite & Hstep).
  apply bind_Ret_inv in Hwrite as (s' & w5 & Hpeek & Hwrite).
  assert (s' = s /\ w5 = w2) as [-> ->].
  { unfold peekNode, bind, get, ret in Hpeek. unfold index in Hpeek.
    destruct (left <? 0) eqn:E0; [apply Z.ltb_lt in E0; lia|].
    rewrite Hs in Hpeek. by inversion Hpeek. }
  inversion Hstep; subst v1 w3. clear Hstep.
  pose proof (setAux_lookup _ _ _ _ Hwrite) as Hslot.
  apply (keeps_setAux 0) in Hwrite as (_ & Hn4 & _); [|lia].
  assert (0 <= Z.quot last 2) as Hq0 by (apply Z.quot_pos; lia).
  apply keeps_Fix_loop_from in H as (_ & Hn' & _ & _ & Hkeep); cbn;
    [|apply Z.quot_pos; lia
     |pose proof (nextLevelNodeCount_nonneg n); lia].
  cbn in Hkeep. exists s. split.
  - rewrite Hn', Hn4. unfold index.
    destruct (left <? 0) eqn:E0; [apply Z.ltb_lt in E0; lia|]. exact Hs.
  - unfold index. replace (0 + Z.quot last 2) with (Z.quot last 2) in * by lia.
    destruct (Z.quot last 2 <? 0) eqn:E0; [apply Z.ltb_lt in E0; lia|].
    rewrite Hkeep by lia. exact Hslot.
Qed.

End fix_level_facts.

(** ** The tests of the repository, run on the model *)

(** The three cases of [TestTournamentTreeBuild] pass: construction
    allocates 1, 6 and 3 auxiliary nodes and the root is on the smallest
    label set. *)
Example TestTournamentTreeBuild_passes :
  scenarios.built scenarios.build1
    = Some (1, Ret (FromStrings "test" "baa")) /\
  scenarios.built scenarios.build2
    = Some (6, Ret (FromStrings "aaa" "aaa")) /\
  scenarios.built scenarios.build3
    = Some (3, Ret (FromStrings "test" "bar")).
Proof. vm_compute. repeat split. Qed.

(** The first [Pop] of each tree of [TestTournamentTreePop] hands out
    the stream on [baa], as the test expects. *)
Example TestTournamentTreePop_first_pop :
  fst (scenarios.popAll 1 (snd scenarios.tree2))
    = Ret [FromStrings "test" "baa"].
Proof. vm_compute. reflexivity. Qed.

(** ** Claims about the tournament tree *)

Import tree.

(** C8.  [Fix] called on a tree that has just been built, before any
    [Pop], panics with the message of the contract violation and leaves
    the tree and the streams as they were. *)
Theorem Fix_before_Pop_is_fatal st ns w :
  NewProxyTournamentTree st ns = (Ret tt, w) ->
  lastChangedNodeIndex (t w) = -1 /\
  Fix w = (Panic fix_before_pop, w).
Proof.
  intros H. apply construction.NewProxyTournamentTree_frame in H
    as (_ & _ & Hl).
  split; [done|]. unfold Fix, bind, get. by rewrite Hl.
Qed.

Lemma Fix_before_Pop_is_fatal_witness :
  lastChangedNodeIndex (t (snd scenarios.tree2)) = -1 /\
  Fix (snd scenarios.tree2) = (Panic fix_before_pop, snd scenarios.tree2).
Proof.
  apply (Fix_before_Pop_is_fatal
           [scenarios.single "baa"; scenarios.single "bab"]
           (scenarios.leaves 2)).
  vm_compute. reflexivity.
Defined.

(** What [Pop] writes.  It advances no stream and leaves the leaves
    alone, on every way out.  When it hands out a stream, the stream is
    the one of the root; the auxiliary slots visited along the back
    references, from the root down to the node that names a leaf, are
    set to nil and the others are kept; [lastChangedNodeIndex] is set to
    the leaf that node names.  The [Fix] that follows advances at most
    the stream under that leaf. *)
Theorem Pop_frame w o w' :
  Pop w = (o, w') ->
  store w' = store w /\
  nodes (t w') = nodes (t w) /\
  o <> OutOfFuel /\
  forall s,
    o = Ret (Some s) ->
    exists root path leaf,
      index (auxiliaryNodes (t w)) (len (auxiliaryNodes (t w)) - 1)
        = Some (Some root) /\
      ss root = Some s /\
      tree_frame.winner_chain (auxiliaryNodes (t w))
        (len (auxiliaryNodes (t w)) - 1) path leaf /\
      auxiliaryNodes (t w') =
        tree_frame.clear_slots path (auxiliaryNodes (t w)) /\
      lastChangedNodeIndex (t w') = leaf /\
      forall o' w'',
        Fix w' = (o', w'') ->
        store w'' = store w' \/
        exists r m,
          index (nodes (t w')) leaf = Some (Some r) /\
          store w' !! r = Some m /\
          store w'' = <[r := snd (mock_Next m)]> (store w').
Proof.
  intros H.
  pose proof (pop_facts.alone_Pop _ _ _ H) as [Hst Hn].
  split; [done|]. split; [done|]. split.
  { pose proof (fuel_facts.fuel_Pop w) as Hf. by rewrite H in Hf. }
  intros s ->. clear Hst Hn. unfold Pop in H.
  apply bind_Ret_inv in H as (w0 & w1 & Hg & H). inversion Hg; subst w0 w1.
  apply bind_Ret_inv in H as (loser & w1 & Hg' & H).
  apply construction.getAux_Ret in Hg' as (-> & Hroot).
  destruct loser as [l|]; [|inversion H].
  destruct (isInfinity (ss l)) eqn:Ei; cbn [negb] in H; [inversion H|].
  apply bind_Ret_inv in H as ([] & w2 & Hloop & H).
  inversion H; subst.
  apply pop_facts.Pop_loop_chain in Hloop
    as (Hst & Hn & path & leaf & Hc & Ha & Hl); [|done].
  exists l, path, leaf. repeat split; auto.
  intros o' w'' HF. apply fix_facts.Fix_store in HF. by rewrite Hl in HF.
Qed.

Lemma Pop_frame_witness :
  store (snd (Pop (snd scenarios.tree2))) = store (snd scenarios.tree2) /\
  nodes (t (snd (Pop (snd scenarios.tree2))))
    = nodes (t (snd scenarios.tree2)).
Proof.
  destruct (Pop_frame (snd scenarios.tree2)
              (fst (Pop (snd scenarios.tree2)))
              (snd (Pop (snd scenarios.tree2)))) as (H1 & H2 & _).
  - vm_compute. reflexivity.
  - split; [exact H1 | exact H2].
Defined.

(** X26.  A state whose root holds a stream, not the sentinel, and
    whose back references lead from the root to a node that names a
    leaf: [Pop] returns the stream of the root; it writes nil into the
    auxiliary slots of that chain and into no other, sets
    [lastChangedNodeIndex] to the leaf the last node names, and leaves
    the leaves and the streams as they were. *)
Theorem Pop_follows_the_back_references w root s path leaf :
  index (auxiliaryNodes (t w)) (len (auxiliaryNodes (t w)) - 1)
    = Some (Some root) ->
  ss root = Some s ->
  tree_frame.winner_chain (auxiliaryNodes (t w))
    (len (auxiliaryNodes (t w)) - 1) path leaf ->
  Pop w
  = (Ret (Some s),
     mkWorld (store w)
       (mkTree (nodes (t w))
          (tree_frame.clear_slots path (auxiliaryNodes (t w))) leaf)).
Proof.
  intros Hroot Hs Hc. unfold Pop, bind at 1, get.
  unfold bind at 1, getAux. rewrite Hroot, Hs. cbn [isInfinity negb].
  unfold bind.
  rewrite (pop_chain.Pop_loop_follows path _ leaf root _ w Hc Hroot).
  - reflexivity.
  - pose proof (fuel_facts.live_slots_le (auxiliaryNodes (t w))). lia.
Qed.

Lemma Pop_follows_the_back_references_witness :
  Pop (snd scenarios.build3)
  = (Ret (Some 1%nat),
     mkWorld (store (snd scenarios.build3))
       (mkTree (nodes (t (snd scenarios.build3)))
          (tree_frame.clear_slots [2; 0]
             (auxiliaryNodes (t (snd scenarios.build3)))) 1)).
Proof.
  apply (Pop_follows_the_back_references (snd scenarios.build3)
           (mkAux (Some 1%nat) 0 (-1)) 1%nat [2; 0] 1).
  - vm_compute. reflexivity.
  - reflexivity.
  - apply (tree_frame.chain_aux _ _ (mkAux (Some 1%nat) 0 (-1)));
      [vm_compute; reflexivity|cbn; lia|].
    apply (tree_frame.chain_leaf _ _ (mkAux (Some 1%nat) (-1) 1));
      [vm_compute; reflexivity|reflexivity|cbn; lia].
Defined.

(** C10.  Ten streams of one series each, in descending order.  The
    first [Pop] hands out the last stream and [Fix] finds it exhausted;
    the root still holds a stream, so that the state is not terminal.
    The second [Pop] hands out the last stream again and records leaf 8,
    which holds another stream, one that was never handed out; the [Fix]
    that follows advances that stream.  The leaf that [Pop] records is
    not the leaf the stream handed out came from. *)
Theorem Pop_records_another_leaf :
  let w := scenarios.after_one_round (snd scenarios.tree10) in
  fst scenarios.tree10 = Ret tt /\
  fst (Pop (snd scenarios.tree10)) = Ret (Some 9%nat) /\
  fst (Fix (snd (Pop (snd scenarios.tree10)))) = Ret tt /\
  fst (Pop w) = Ret (Some 9%nat) /\
  lastChangedNodeIndex (t (snd (Pop w))) = 8 /\
  index (nodes (t (snd (Pop w)))) 8 = Some (Some 8%nat) /\
  index (nodes (t (snd (Pop w)))) 9 = Some infinity /\
  map i (store (snd (Pop w))) = [0; 0; 0; 0; 0; 0; 0; 0; 0; 1] /\
  fst (Fix (snd (Pop w))) = Ret tt /\
  map i (store (snd (Fix (snd (Pop w))))) = [0; 0; 0; 0; 0; 0; 0; 0; 1; 1] /\
  ~ tree_frame.records_the_origin w.
Proof.
  cbv zeta. repeat (split; [vm_compute; reflexivity|]).
  intros H.
  specialize (H 9%nat
                (snd (Pop (scenarios.after_one_round (snd scenarios.tree10))))).
  vm_compute in H. specialize (H eq_refl). discriminate.
Qed.

(** The same with nine streams: the second [Pop] hands out the last
    stream again and records its leaf, which [Fix] has vacated; the
    [Fix] that follows calls [Next] on nil. *)
Example Pop_records_a_vacated_leaf :
  let w := scenarios.after_one_round (snd scenarios.tree9) in
  fst (Pop w) = Ret (Some 8%nat) /\
  lastChangedNodeIndex (t (snd (Pop w))) = 8 /\
  index (nodes (t (snd (Pop w)))) 8 = Some infinity /\
  fst (Fix (snd (Pop w))) = Panic nil_dereference /\
  ~ tree_frame.records_the_origin w.
Proof.
  cbv zeta. repeat (split; [vm_compute; reflexivity|]).
  intros H.
  specialize (H 8%nat
                (snd (Pop (scenarios.after_one_round (snd scenarios.tree9))))).
  vm_compute in H. specialize (H eq_refl). discriminate.
Qed.

(** ** Claims about termination and errors *)

Lemma Pop_nil w w' : Pop w = (Ret None, w') -> w' = w.
Proof.
  unfold Pop. intros H.
  apply bind_Ret_inv in H as (w0 & w1 & Hg & H). inversion Hg; subst w0 w1.
  apply bind_Ret_inv in H as (loser & w1 & Hg' & H).
  apply construction.getAux_Ret in Hg' as (-> & _).
  destruct loser as [l|]; [|by inversion H].
  destruct (isInfinity (ss l)) eqn:Ei; cbn [negb] in H; [by inversion H|].
  apply bind_Ret_inv in H as ([] & w2 & _ & H).
  inversion H as [[Hs Hw]]. rewrite Hs in Ei. discriminate.
Qed.

Lemma advance_false_fixed m m' :
  merger.advance m = (Ret false, m') -> m' = m.
Proof.
  destruct m as [w|w]; simpl.
  - intros H. inversion H. done.
  - destruct (Pop w) as [o w1] eqn:E. intros H.
    destruct o as [[r|]| | |]; inversion H; subst.
    apply Pop_nil in E. by subst.
Qed.

(** C7.  Once the merger has answered "no more" (the heap is empty, or
    the root of the tree is nil or holds the sentinel), the state it is
    left in is the state it was in, and every later call answers "no
    more" again, with the same state and the same error report. *)
Theorem termination_is_idempotent m m' :
  merger.advance m = (Ret false, m') ->
  m' = m /\
  forall n,
    merger.advances n m' = m' /\
    merger.advance (merger.advances n m') = (Ret false, m') /\
    merger.error (merger.advances n m') = merger.error m.
Proof.
  intros H. pose proof (advance_false_fixed _ _ H) as ->.
  split; [done|].
  assert (forall n, merger.advances n m = m) as Hn.
  { induction n as [|n IH]; simpl; [done|]. by rewrite H. }
  intros n. rewrite Hn. auto.
Qed.

Lemma termination_is_idempotent_witness :
  merger.advances 3
    (merger.TreeMerger (snd (scenarios.popAll 5 (snd scenarios.tree2))))
  = merger.TreeMerger (snd (scenarios.popAll 5 (snd scenarios.tree2))).
Proof.
  apply (termination_is_idempotent
           (merger.TreeMerger (snd (scenarios.popAll 5 (snd scenarios.tree2))))
           (merger.TreeMerger (snd (scenarios.popAll 5 (snd scenarios.tree2))))).
  vm_compute. reflexivity.
Defined.



(** ** Claims about the first round *)

(** C4, as stated.  Two streams that start on the same label set: the
    slot above them records the right leaf, not the left one. *)
Lemma tie_goes_to_the_right_leaf :
  fst scenarios.tie2 = Ret tt /\
  auxiliaryNodes (t (snd scenarios.tie2)) !! 0%nat
    = Some (Some (mkAux (Some 1%nat) (-1) 1)) /\
  ~ first_round.left_wins_ties
      [scenarios.single "baa"; scenarios.single "baa"] (scenarios.leaves 2).
Proof.
  split; [reflexivity|]. split; [reflexivity|].
  intros H.
  specialize (H (snd scenarios.tie2) 0%nat 0%nat 1%nat
                (FromStrings "test" "baa") (FromStrings "test" "baa")
                eq_refl eq_refl eq_refl eq_refl eq_refl eq_refl).
  vm_compute in H. discriminate.
Qed.

(** C4, amended.  After construction, the slot above the leaves [2i] and
    [2i+1] holds: for two live leaves, the left one when its label set
    is strictly smaller and the right one otherwise, a tie included,
    each with its own index as back reference; the sentinel when both
    leaves are the sentinel; the stream of the live leaf when exactly
    one is. *)
Theorem first_round_winner st ns w (i : nat) l r :
  NewProxyTournamentTree st ns = (Ret tt, w) ->
  nodes (t w) !! (2 * i)%nat = Some l ->
  nodes (t w) !! (2 * i + 1)%nat = Some r ->
  exists x,
    auxiliaryNodes (t w) !! i = Some (Some x) /\
    (forall a b la lb,
       l = Some a -> r = Some b ->
       labelsAt st l = Ret la -> labelsAt st r = Ret lb ->
       (Compare la lb < 0 -> x = mkAux l (-1) (2 * Z.of_nat i)) /\
       (Compare la lb = 0 -> x = mkAux r (-1) (2 * Z.of_nat i + 1)) /\
       (0 < Compare la lb -> x = mkAux r (-1) (2 * Z.of_nat i + 1))) /\
    (l = infinity -> r = infinity -> ss x = infinity) /\
    (forall a, l = Some a -> r = infinity ->
               x = mkAux l (-1) (2 * Z.of_nat i)) /\
    (forall b, l = infinity -> r = Some b -> ss x = r).
Proof.
  intros H Hl Hr. unfold NewProxyTournamentTree in H. cbv zeta in H.
  pose proof (construction.keeps_initialFix _ _ _ H) as (Hst0 & Hn0 & _).
  simpl in Hst0, Hn0.
  apply (first_round_facts.initialFix_first_round _ _ i) in H
    as (Hst & Hn & l' & r' & slot & Hl' & Hr' & Hs & Hw).
  2:{ cbn [t nodes]. apply lookup_lt_Some in Hl. rewrite Hn0 in Hl.
      clear - Hl. unfold len, SeriesSet in *. destruct (_ =? 0); lia. }
  simpl in Hst, Hn, Hl', Hr', Hw. rewrite Hn in Hl, Hr.
  replace (2 * Z.of_nat i) with (Z.of_nat (2 * i)) in Hl', Hr' by lia.
  replace (Z.of_nat (2 * i) + 1) with (Z.of_nat (2 * i + 1)) in Hr' by lia.
  rewrite index_of_nat in Hl', Hr'.
  unfold SeriesSet in *. rewrite Hl in Hl'. rewrite Hr in Hr'.
  inversion Hl'. inversion Hr'. subst l' r'.
  clear Hl' Hr' Hn0 Hst0.
  unfold first_round.leaf_winner in Hw.
  destruct l as [a|], r as [b|].
  - destruct Hw as (la & lb & Hla & Hlb & ->).
    eexists. split; [exact Hs|].
    split; [|repeat split; intros; discriminate].
    intros a' b' la' lb' _ _ Hla' Hlb'.
    rewrite Hla in Hla'. rewrite Hlb in Hlb'.
    inversion Hla'; inversion Hlb'; subst la' lb'.
    destruct (Compare la lb <? 0) eqn:E;
      [apply Z.ltb_lt in E | apply Z.ltb_ge in E];
      repeat split; intros; try reflexivity; lia.
  - subst slot. eexists. split; [exact Hs|].
    repeat split; intros; try discriminate; reflexivity.
  - subst slot. eexists. split; [exact Hs|].
    repeat split; intros; try discriminate; reflexivity.
  - subst slot. eexists. split; [exact Hs|].
    repeat split; intros; try discriminate; reflexivity.
Qed.

Lemma first_round_winner_witness :
  exists x,
    auxiliaryNodes (t (snd scenarios.tie2)) !! 0%nat = Some (Some x) /\
    x = mkAux (Some 1%nat) (-1) 1.
Proof.
  destruct (first_round_winner
              [scenarios.single "baa"; scenarios.single "baa"]
              (scenarios.leaves 2) (snd scenarios.tie2) 0%nat
              (Some 0%nat) (Some 1%nat) eq_refl eq_refl eq_refl)
    as (x & Hx & Hlive & _).
  exists x. split; [exact Hx|].
  destruct (Hlive 0%nat 1%nat (FromStrings "test" "baa")
              (FromStrings "test" "baa") eq_refl eq_refl eq_refl eq_refl)
    as (_ & Htie & _).
  apply Htie. reflexivity.
Defined.

(** ** Claims about what the tree emits *)

(** C1.  The tree of size 2 of [TestTournamentTreePop], streams [baa]
    and [bab]: the consumer loop reads [baa] only; the next [Pop]
    answers nil although the second leaf is live and still on [bab]. *)
Theorem tree2_emits_one_of_two :
  fst scenarios.tree2 = Ret tt /\
  fst (scenarios.popAll 2 (snd scenarios.tree2))
    = Ret [FromStrings "test" "baa"] /\
  fst (Pop (snd (scenarios.popAll 2 (snd scenarios.tree2)))) = Ret None /\
  nodes (t (snd (scenarios.popAll 2 (snd scenarios.tree2)))) !! 1%nat
    = Some (Some 1%nat) /\
  labelsAt (store (snd (scenarios.popAll 2 (snd scenarios.tree2))))
    (Some 1%nat) = Ret (FromStrings "test" "bab").
Proof. vm_compute. repeat split. Qed.

(** C5.  The root after a [Fix], and after construction.  In the tree
    of size 2, after the first [Pop] and [Fix], the last auxiliary slot
    holds the sentinel although the second leaf is live.  In a tree
    built over fourteen streams the last auxiliary slot holds a stream
    on [m] although the fifth leaf is on [a]. *)
Theorem root_is_not_the_minimum :
  (fst (Pop (snd scenarios.tree2)) = Ret (Some 0%nat) /\
   fst (Fix (snd (Pop (snd scenarios.tree2)))) = Ret tt /\
   last (auxiliaryNodes (t (snd (Fix (snd (Pop (snd scenarios.tree2)))))))
     = Some (Some (mkAux infinity (-1) 0)) /\
   nodes (t (snd (Fix (snd (Pop (snd scenarios.tree2)))))) !! 1%nat
     = Some (Some 1%nat)) /\
  (fst scenarios.tree14 = Ret tt /\
   last (auxiliaryNodes (t (snd scenarios.tree14)))
     = Some (Some (mkAux (Some 3%nat) 11 (-1))) /\
   labelsAt (store (snd scenarios.tree14)) (Some 3%nat)
     = Ret (FromStrings "test" "m") /\
   nodes (t (snd scenarios.tree14)) !! 4%nat = Some (Some 4%nat) /\
   labelsAt (store (snd scenarios.tree14)) (Some 4%nat)
     = Ret (FromStrings "test" "a") /\
   Compare (FromStrings "test" "a") (FromStrings "test" "m") < 0).
Proof. vm_compute. repeat split. Qed.

(** C9.  Over the streams [baa] and [bab] the heap hands out both
    responses and the tree one stream only: the two sequences of label
    sets are not permutations of each other. *)
Theorem heap_and_tree_disagree :
  fst scenarios.heap2 = Ret tt /\
  scenarios.labelsOf <$> fst (scenarios.nextAll 3 (snd scenarios.heap2))
    = Ret [FromStrings "test" "baa"; FromStrings "test" "bab"] /\
  fst (scenarios.popAll 3 (snd scenarios.tree2))
    = Ret [FromStrings "test" "baa"] /\
  ~ [FromStrings "test" "baa"; FromStrings "test" "bab"]
      ≡ₚ [FromStrings "test" "baa"].
Proof.
  split; [reflexivity|]. split; [reflexivity|]. split; [reflexivity|].
  intros H. apply Permutation_length in H. discriminate.
Qed.

(** ** Claims about the dedup wrapper *)

Module dedup_facts.

Import heap dedup.

Section Facts.

Variable Hash : AggrChunk -> string.

Lemma addChunk_size m chk : (size m <= size (addChunk Hash m chk))%nat.
Proof.
  unfold addChunk. destruct (m !! Hash chk) eqn:E; [lia|].
  rewrite map_size_insert_None by done. lia.
Qed.

Lemma addChunk_first chk : size (addChunk Hash ∅ chk) = 1%nat.
Proof.
  unfold addChunk. rewrite lookup_empty.
  rewrite map_size_insert_None by apply lookup_empty.
  by rewrite map_size_empty.
Qed.

(** What [At] builds from a buffer of two responses or more. *)
Lemma dAt_run d r1 r2 rest s1 m :
  responses d = r1 :: r2 :: rest ->
  GetSeries r1 = Some s1 ->
  collectChunks Hash ∅ (responses d) = Ret m ->
  dAt Hash d =
    (Ret (Some (SeriesFrame
                  (mkSeries (storepb.Labels s1)
                     (replicate (size m) zeroChunk
                        ++ map snd (map_to_list m))))),
     set_responses [] d).
Proof.
  intros Hr Hs Hm. unfold dAt. rewrite Hm, Hr, Hs. reflexivity.
Qed.

End Facts.

(** [Next] after the upstream was seen exhausted, or after a
    non-series seed: it reads nothing and tells whether the buffer
    holds a response. *)
Lemma dNext_stopped d :
  previousNext d = false ->
  dNext d = (Ret (0 <? len (responses d)), d).
Proof. intros H. unfold dNext, bind, get. rewrite H. reflexivity. Qed.

(** [Next] seeded with a non-series response: the answer is true, the
    buffer holds the response alone, and the wrapper records that the
    upstream has nothing more. *)
Lemma dNext_non_series_seed d resp w' :
  previousNext d = true ->
  previousResponse d = None ->
  hAt (hw d) = (Ret resp, w') ->
  GetSeries resp = None ->
  dNext d = (Ret true, mkDedup w' [resp] (Some resp) false).
Proof.
  intros Hn Hp Hat Hs. unfold dNext, bind at 1, get. rewrite Hn. cbn [negb].
  rewrite Hp. unfold bind at 1, on_heap. rewrite Hat.
  unfold with_defer, bind, on_world, modify. cbn. rewrite Hs. reflexivity.
Qed.

End dedup_facts.

(** C2.  Two streams with one response each for the same label set,
    one chunk each: after [Next] the buffer holds the run of the two
    responses, and for every hash function the chunk list [At] returns
    starts with as many zero-valued chunks as there are distinct hashes,
    before the chunks kept; the zero-valued chunk is none of the chunks
    buffered. *)
Theorem dedup_At_pads_with_zero_chunks (Hash : AggrChunk -> string) :
  fst (dedup.dNext (snd dedup_scenarios.runOfTwo)) = Ret true /\
  dedup.responses dedup_scenarios.bufferedRun
    = [dedup_scenarios.seriesResp "A" [dedup_scenarios.chunk "h1"];
       dedup_scenarios.seriesResp "A" [dedup_scenarios.chunk "h2"]] /\
  exists (m : gmap string AggrChunk) (s : Series),
    fst (dedup.dAt Hash dedup_scenarios.bufferedRun)
      = Ret (Some (SeriesFrame s)) /\
    Chunks s = replicate (size m) zeroChunk ++ map snd (map_to_list m) /\
    (1 <= size m)%nat /\
    head (Chunks s) = Some zeroChunk /\
    length (Chunks s) = (2 * size m)%nat /\
    zeroChunk ∉ [dedup_scenarios.chunk "h1"; dedup_scenarios.chunk "h2"].
Proof.
  assert (dedup.responses dedup_scenarios.bufferedRun
          = [dedup_scenarios.seriesResp "A" [dedup_scenarios.chunk "h1"];
             dedup_scenarios.seriesResp "A" [dedup_scenarios.chunk "h2"]])
    as Hbuf by (vm_compute; reflexivity).
  split; [vm_compute; reflexivity|]. split; [exact Hbuf|].
  set (c1 := dedup_scenarios.chunk "h1").
  set (c2 := dedup_scenarios.chunk "h2").
  set (m := dedup.addChunk Hash (dedup.addChunk Hash ∅ c1) c2).
  assert (1 <= size m)%nat as Hsize.
  { unfold m. etrans; [|apply dedup_facts.addChunk_size].
    by rewrite dedup_facts.addChunk_first. }
  exists m. eexists. split.
  { erewrite (dedup_facts.dAt_run Hash _ _ _ _ _ m);
      [reflexivity | exact Hbuf | reflexivity |].
    rewrite Hbuf. reflexivity. }
  cbn [Chunks]. repeat split; auto.
  - destruct (size m); [lia|]. reflexivity.
  - rewrite length_app, length_replicate, length_map, length_map_to_list.
    lia.
  - intros H. apply elem_of_cons in H as [H|H]; [discriminate|].
    apply elem_of_cons in H as [H|H]; [discriminate|]. inversion H.
Qed.

(** C6.  A stream that starts with a warning: the first [Next] answers
    true with the warning alone in the buffer, and [At] hands it out;
    the [Next] after that answers false although the heap still holds a
    series, and without an [At] in between it answers true over the
    same buffer without reading from the heap. *)
Theorem dedup_stops_after_a_warning (Hash : AggrChunk -> string) :
  fst dedup_scenarios.warned = Ret tt /\
  fst (dedup.dNext (snd dedup_scenarios.warned)) = Ret true /\
  dedup.responses (snd (dedup.dNext (snd dedup_scenarios.warned)))
    = [WarningFrame "warn"] /\
  dedup.dNext (snd (dedup.dNext (snd dedup_scenarios.warned)))
    = (Ret true, snd (dedup.dNext (snd dedup_scenarios.warned))) /\
  fst (dedup.dAt Hash (snd (dedup.dNext (snd dedup_scenarios.warned))))
    = Ret (Some (WarningFrame "warn")) /\
  fst (dedup.dNext
         (snd (dedup.dAt Hash
                 (snd (dedup.dNext (snd dedup_scenarios.warned))))))
    = Ret false /\
  fst (heap.hNext
         (dedup.hw
            (snd (dedup.dAt Hash
                    (snd (dedup.dNext (snd dedup_scenarios.warned)))))))
    = Ret true.
Proof. vm_compute. repeat split. Qed.

(** ** The loop of [Pop] ends *)

Section ReadFacts.

Context {W : Type}.

Lemma reads_ret {A} (a : A) : reads (@ret W A a).
Proof. intros w o w' H. by inversion H. Qed.

Lemma reads_panic {A} msg : reads (@panic W A msg).
Proof. intros w o w' H. by inversion H. Qed.

Lemma reads_get : reads (@get W).
Proof. intros w o w' H. by inversion H. Qed.

Lemma reads_bind {A B} (m : M W A) (k : A -> M W B) :
  reads m -> (forall a, reads (k a)) -> reads (bind m k).
Proof.
  intros Hm Hk w o w'. unfold bind.
  destruct (m w) as [[a| | |] w1] eqn:E; intros H;
    pose proof (Hm _ _ _ E) as ->; try (by inversion H).
  eapply Hk, H.
Qed.

Lemma reads_preserves (R : W -> W -> Prop) {A} (m : M W A) :
  (forall w, R w w) -> reads m -> preserves R m.
Proof. intros Hr Hm w o w' H. apply Hm in H as ->. apply Hr. Qed.

Lemma diverge_ret {A} (a : A) : never_diverges (@ret W A a).
Proof. intros w. discriminate. Qed.

Lemma diverge_panic {A} msg : never_diverges (@panic W A msg).
Proof. intros w. discriminate. Qed.

Lemma diverge_out_of_fuel {A} : never_diverges (@out_of_fuel W A).
Proof. intros w. discriminate. Qed.

Lemma diverge_get : never_diverges (@get W).
Proof. intros w. discriminate. Qed.

Lemma diverge_bind {A B} (m : M W A) (k : A -> M W B) :
  never_diverges m -> (forall a, never_diverges (k a)) ->
  never_diverges (bind m k).
Proof.
  intros Hm Hk w. unfold bind. specialize (Hm w).
  destruct (m w) as [[a| | |] w1]; simpl in *; try discriminate; auto.
  apply Hk.
Qed.

Lemma diverge_reads_free {A} (m : M W A) :
  (forall w, match fst (m w) with Diverge => False | _ => True end) ->
  never_diverges m.
Proof. intros H w E. specialize (H w). by rewrite E in H. Qed.

End ReadFacts.

Module spin_facts.

Import tree tree_frame tree_states construction.

Lemma reads_getNode i : reads (getNode i).
Proof.
  intros w o w'. unfold getNode. destruct (index _ _); intros H;
    by inversion H.
Qed.

Lemma reads_getAux i : reads (getAux i).
Proof.
  intros w o w'. unfold getAux. destruct (index _ _); intros H;
    by inversion H.
Qed.

Lemma reads_callAt s : reads (callAt s).
Proof. intros w o w' H. by inversion H. Qed.

Lemma reads_deref_ss p : reads (deref_ss p).
Proof. destruct p; [apply reads_ret|apply reads_panic]. Qed.

Lemma reads_nilAuxNode i : reads (nilAuxNode i).
Proof.
  unfold nilAuxNode. apply reads_bind; [apply reads_getAux|].
  intros [a|]; apply reads_ret.
Qed.

Lemma reads_nilNode i b : reads (nilNode i b).
Proof.
  intros w o w'. unfold nilNode, bind, get, ret. destruct b.
  - destruct (index _ _); intros H; by inversion H.
  - destruct (index _ _) as [[a|]|]; intros H; by inversion H.
Qed.

Lemma reads_peekNode i b : reads (peekNode i b).
Proof.
  intros w o w'. unfold peekNode, bind, get, ret. destruct b.
  - destruct (index _ _); intros H; by inversion H.
  - destruct (index _ _) as [[a|]|]; intros H; by inversion H.
Qed.

Create HintDb reads discriminated.

#[export] Hint Resolve reads_getNode reads_getAux reads_callAt
  reads_deref_ss reads_nilAuxNode reads_nilNode reads_peekNode : reads.

Lemma spin_free_refl w : spin_free w w.
Proof. by intros H. Qed.

Lemma spin_free_trans a b c :
  spin_free a b -> spin_free b c -> spin_free a c.
Proof. unfold spin_free. auto. Qed.

Lemma spin_setAux i a :
  (forall n, a = Some n -> ~ spins n) -> preserves spin_free (setAux i a).
Proof.
  intros Ha w o w'. unfold setAux.
  destruct (in_range _ _) eqn:E; intros H; inversion H; subst;
    [|apply spin_free_refl].
  apply in_range_true in E as [E1 E2].
  intros Hw k n. cbn [t auxiliaryNodes set_aux].
  destruct (decide (k = Z.to_nat i)) as [->|Hne].
  - rewrite list_lookup_insert_eq by done. intros Hn. apply Ha. congruence.
  - rewrite list_lookup_insert_ne by done. apply Hw.
Qed.

Lemma spin_same_aux {A} (m : M world A) :
  (forall w o w', m w = (o, w') ->
                  auxiliaryNodes (t w') = auxiliaryNodes (t w)) ->
  preserves spin_free m.
Proof.
  intros Hm w o w' H Hw k n. rewrite (Hm _ _ _ H). apply Hw.
Qed.

(** The write of [takeLeft] and [takeRight] of [initialFix]: the slot
    read is the back reference written. *)
Lemma spin_take idx j :
  preserves spin_free
    (bind (getAux idx)
       (fun la => bind (deref_ss la)
          (fun s => setAux j (Some (mkAux s idx (-1)))))).
Proof.
  destruct (decide (idx = -1)) as [->|Hne].
  - intros w o w' H. unfold bind, getAux in H. cbn in H. inversion H.
    apply spin_free_refl.
  - apply preserves_bind;
      [apply spin_free_trans
      |apply reads_preserves; [apply spin_free_refl|apply reads_getAux]
      |intros la].
    apply preserves_bind;
      [apply spin_free_trans
      |apply reads_preserves; [apply spin_free_refl|apply reads_deref_ss]
      |intros s].
    apply spin_setAux. intros n Hn. inversion Hn. unfold spins. cbn. lia.
Qed.

Ltac not_spinning :=
  let n := fresh "n" in
  let Hn := fresh "Hn" in
  intros n Hn; try discriminate;
  unfold winnerNode in Hn;
  repeat match type of Hn with
         | context [if ?c then _ else _] => destruct c
         end;
  inversion Hn; subst; unfold spins; cbn; lia.

Ltac spin_step :=
  lazymatch goal with
  | |- preserves _ (bind _ _) =>
      first [assumption
            |apply preserves_bind; [apply spin_free_trans | | intros ?]]
  | |- preserves _ (ret _) => apply preserves_ret, spin_free_refl
  | |- preserves _ (panic _) => apply preserves_panic, spin_free_refl
  | |- preserves _ out_of_fuel =>
      apply preserves_out_of_fuel, spin_free_refl
  | |- preserves _ diverge => apply preserves_diverge, spin_free_refl
  | |- preserves _ get => apply preserves_get, spin_free_refl
  | |- preserves _ (setAux _ _) => apply spin_setAux; not_spinning
  | |- preserves _ (if ?c then _ else _) => destruct c eqn:?
  | |- preserves _ (match ?c with _ => _ end) => destruct c eqn:?
  | |- preserves _ _ =>
      apply reads_preserves; [apply spin_free_refl|solve [auto with reads]]
  end.

Ltac spin := repeat spin_step.

Lemma spin_initialFix_leaves left :
  0 <= left -> preserves spin_free (initialFix_leaves left).
Proof. intros Hl. unfold initialFix_leaves. spin. Qed.

Lemma spin_initialFix_upper from prev loserIdx :
  preserves spin_free (initialFix_upper from prev loserIdx).
Proof.
  unfold initialFix_upper. cbv zeta.
  pose proof (spin_take (if Z.rem prev 2 =? 0 then prev else prev - 1)
                loserIdx) as HL.
  pose proof (spin_take (if Z.rem prev 2 =? 0 then prev + 1 else prev)
                loserIdx) as HR.
  spin.
Qed.

Lemma spin_initialFix_levels fuel :
  forall from until lastLoserIndex nodesInLevel,
    preserves spin_free
      (initialFix_levels fuel from until lastLoserIndex nodesInLevel).
Proof.
  induction fuel as [|f IH]; intros from until lli n; simpl.
  - destruct (n <? 1); spin.
  - destruct (n <? 1); [spin|].
    apply preserves_bind; [apply spin_free_trans| |intros _; apply IH].
    apply preserves_foldM; [apply spin_free_refl|apply spin_free_trans|].
    intros acc x. apply spin_initialFix_upper.
Qed.

Lemma spin_initialFix : preserves spin_free initialFix.
Proof.
  unfold initialFix.
  apply preserves_bind;
    [apply spin_free_trans|apply preserves_get, spin_free_refl|intros w0].
  apply preserves_bind; [apply spin_free_trans| |intros lli].
  - apply preserves_foldM_elem;
      [apply spin_free_refl|apply spin_free_trans|].
    intros acc x Hx. apply for_range_ge in Hx; [|lia].
    apply spin_initialFix_leaves. lia.
  - destruct (lli <? _); [apply spin_initialFix_levels|].
    apply preserves_ret, spin_free_refl.
Qed.

Lemma spin_Fix_step v :
  leftIdx v <> -1 -> rightIdx v <> -1 ->
  preserves spin_free (Fix_step v).
Proof. intros Hl Hr. unfold Fix_step. spin. Qed.

Lemma spin_Fix_loop fuel :
  forall v,
    0 <= from v -> -1 <= until v -> 0 <= auxNodeOffset v ->
    0 <= nodesInLevel v -> 0 <= leftIdx v -> 0 <= rightIdx v ->
    preserves spin_free (Fix_loop fuel v).
Proof.
  induction fuel as [|f IH]; intros v Hf Hu Ho Hn Hl Hr; simpl.
  - destruct (nodesInLevel v <=? 0); spin.
  - destruct (nodesInLevel v <=? 0) eqn:E; [spin|].
    intros w o w' H. unfold bind in H.
    destruct (Fix_step v w) as [o1 w1] eqn:Es.
    pose proof (spin_Fix_step v ltac:(lia) ltac:(lia) _ _ _ Es) as H1.
    destruct o1 as [v'| | |]; try (inversion H; subst; exact H1).
    eapply spin_free_trans; [exact H1|].
    unfold Fix_step in Es.
    apply bind_Ret_inv in Es as (c1 & w2 & _ & Es).
    apply bind_Ret_inv in Es as ([] & w3 & _ & Es).
    inversion Es; subst v' w3. clear Es.
    pose proof (tree_facts.nextLevelNodeCount_nonneg (nodesInLevel v) Hn).
    assert (0 <= Z.quot (auxNodeOffset v) 2) by (apply Z.quot_pos; lia).
    eapply IH; [..|exact H]; cbn; try lia.
    + destruct (Z.rem (from v + auxNodeOffset v) 2 =? 0) eqn:Ep; [lia|].
      apply Z.eqb_neq in Ep. rewrite Z.rem_mod_nonneg in Ep by lia.
      Z.div_mod_to_equations. lia.
    + destruct (Z.rem (from v + auxNodeOffset v) 2 =? 0); lia.
Qed.

Lemma spin_Fix : preserves spin_free Fix.
Proof.
  intros w o w' H Hw. unfold Fix, bind at 1, get in H.
  set (last := lastChangedNodeIndex (t w)) in *.
  destruct (last =? -1); [inversion H; by subst|].
  unfold bind at 1, getNode in H.
  destruct (index (nodes (t w)) last) as [leaf|] eqn:El;
    [|inversion H; by subst].
  apply index_Some_nat in El as (Hl0 & _).
  unfold bind at 1, callNext in H.
  destruct leaf as [r|]; [|inversion H; by subst].
  destruct (store w !! r) as [m|]; [|inversion H; by subst].
  destruct (mock_Next m) as [b m'].
  assert (forall w2,
             auxiliaryNodes (t w2) = auxiliaryNodes (t w) ->
             forall fuel n,
               0 <= n ->
               Fix_loop fuel
                 (mkLocals n 0 (n - 1) (Z.quot last 2)
                    (if Z.rem last 2 =? 0 then last else last - 1)
                    (if Z.rem last 2 =? 0 then last + 1 else last) true) w2
               = (o, w') -> no_spin w') as Hloop.
  { intros w2 Ha fuel n Hn HL.
    eapply (spin_Fix_loop fuel _) in HL; cbn; try lia.
    - apply HL. intros k x. rewrite Ha. apply Hw.
    - apply Z.quot_pos; lia.
    - destruct (Z.rem last 2 =? 0) eqn:Ep; [lia|].
      apply Z.eqb_neq in Ep. rewrite Z.rem_mod_nonneg in Ep by lia.
      Z.div_mod_to_equations. lia.
    - destruct (Z.rem last 2 =? 0); lia. }
  assert (0 <= nextLevelNodeCount (len (nodes (t w)))) as Hn.
  { apply tree_facts.nextLevelNodeCount_nonneg. unfold len. lia. }
  unfold bind at 1 in H. destruct b.
  - cbn in H. eapply Hloop; [|exact Hn|exact H]. reflexivity.
  - unfold setNode in H. destruct (in_range _ _).
    + cbn in H. eapply Hloop; [|exact Hn|exact H]. reflexivity.
    + inversion H; subst. intros k x. apply Hw.
Qed.

Lemma spin_Pop_loop fuel :
  forall idx cur, preserves spin_free (Pop_loop fuel idx cur).
Proof.
  induction fuel as [|f IH]; intros idx cur; simpl; [spin|].
  destruct cur as [cur|]; [|spin].
  destruct (negb (previousAuxIndex cur =? -1)).
  - apply preserves_bind;
      [apply spin_free_trans
      |apply reads_preserves; [apply spin_free_refl|apply reads_getAux]
      |intros next].
    apply preserves_bind; [apply spin_free_trans| |intros _; apply IH].
    apply spin_setAux. intros n Hn. discriminate.
  - destruct (negb (previousNodeIndex cur =? -1)); [|spin].
    apply preserves_bind; [apply spin_free_trans| |intros _].
    + apply spin_setAux. intros n Hn. discriminate.
    + apply spin_same_aux. intros w o w' H. by inversion H.
Qed.

Lemma spin_Pop : preserves spin_free Pop.
Proof.
  unfold Pop.
  apply preserves_bind;
    [apply spin_free_trans|apply preserves_get, spin_free_refl|intros w0].
  apply preserves_bind;
    [apply spin_free_trans
    |apply reads_preserves; [apply spin_free_refl|apply reads_getAux]
    |intros loser].
  destruct loser as [l|]; [|spin].
  destruct (negb (isInfinity (ss l))); [|spin].
  apply preserves_bind;
    [apply spin_free_trans|apply spin_Pop_loop|intros _].
  spin.
Qed.

(** No state a user can bring about holds a spinning node. *)
Lemma reachable_no_spin w : reachable w -> no_spin w.
Proof.
  induction 1 as [st ns o w H | w o w' _ IH H | w o w' _ IH H].
  - unfold NewProxyTournamentTree in H. cbv zeta in H.
    apply spin_initialFix in H. apply H.
    intros k n. cbn [t auxiliaryNodes]. intros Hk.
    apply lookup_replicate in Hk as [Hk _]. discriminate.
  - by apply (spin_Pop _ _ _ H).
  - by apply (spin_Fix _ _ _ H).
Qed.

Lemma Pop_loop_no_diverge fuel :
  forall idx cur w,
    no_spin w -> ~ spins cur ->
    fst (Pop_loop fuel idx (Some cur) w) <> Diverge.
Proof.
  induction fuel as [|f IH]; intros idx cur w Hw Hc; [discriminate|].
  cbn [Pop_loop].
  destruct (previousAuxIndex cur =? -1) eqn:Ea; cbn [negb].
  - destruct (previousNodeIndex cur =? -1) eqn:En; cbn [negb].
    + exfalso. apply Hc. split; by apply Z.eqb_eq.
    + unfold bind, setAux. destruct (in_range _ _); discriminate.
  - unfold bind at 1, getAux.
    destruct (index (auxiliaryNodes (t w)) (previousAuxIndex cur))
      as [next|] eqn:En; [|discriminate].
    unfold bind at 1.
    destruct (setAux idx None w) as [[[]| | |] w1] eqn:Es;
      try discriminate.
    + destruct next as [n'|].
      * apply IH.
        -- apply (spin_setAux idx None) in Es; [by apply Es|].
           intros n Hn. discriminate.
        -- apply index_Some_nat in En as (_ & En). by eapply Hw.
      * destruct f; discriminate.
    + unfold setAux in Es. destruct (in_range _ _); discriminate.
Qed.

Lemma Pop_no_diverge w : no_spin w -> fst (Pop w) <> Diverge.
Proof.
  intros Hw. unfold Pop, bind at 1, get. unfold bind at 1, getAux.
  destruct (index _ _) as [[l|]|] eqn:Ei; try discriminate.
  destruct (isInfinity (ss l)); cbn [negb]; [discriminate|].
  unfold bind.
  apply index_Some_nat in Ei as (_ & Ei).
  pose proof (Pop_loop_no_diverge
                (S (S (length (auxiliaryNodes (t w)))))
                (len (auxiliaryNodes (t w)) - 1) l w Hw
                (Hw _ _ Ei)) as Hl.
  destruct (Pop_loop _ _ _ w) as [[[]| | |] w1]; simpl in *;
    try discriminate.
  done.
Qed.

End spin_facts.

Module halt_facts.

Import tree tree_frame tree_states.

Lemma diverge_getNode i : never_diverges (getNode i).
Proof. intros w. unfold getNode. destruct (index _ _); discriminate. Qed.

Lemma diverge_setNode i s : never_diverges (setNode i s).
Proof. intros w. unfold setNode. destruct (in_range _ _); discriminate. Qed.

Lemma diverge_getAux i : never_diverges (getAux i).
Proof. intros w. unfold getAux. destruct (index _ _); discriminate. Qed.

Lemma diverge_setAux i a : never_diverges (setAux i a).
Proof. intros w. unfold setAux. destruct (in_range _ _); discriminate. Qed.

Lemma diverge_deref_ss p : never_diverges (deref_ss p).
Proof. intros w. destruct p; discriminate. Qed.

Lemma diverge_callAt s : never_diverges (callAt s).
Proof.
  intros w. unfold callAt, labelsAt. simpl.
  destruct s as [r|]; [|discriminate].
  destruct (store w !! r) as [m|]; [|discriminate].
  unfold mock_At. destruct (_ <=? _); [discriminate|].
  destruct (index _ _); discriminate.
Qed.

Lemma diverge_callNext s : never_diverges (callNext s).
Proof.
  intros w. unfold callNext. destruct s as [r|]; [|discriminate].
  destruct (store w !! r) as [m|]; [|discriminate].
  destruct (mock_Next m). discriminate.
Qed.

Lemma diverge_nilNode i b : never_diverges (nilNode i b).
Proof.
  intros w. unfold nilNode, bind, get, ret. destruct b.
  - destruct (index _ _); discriminate.
  - destruct (index _ _) as [[a|]|]; discriminate.
Qed.

Lemma diverge_peekNode i b : never_diverges (peekNode i b).
Proof.
  intros w. unfold peekNode, bind, get, ret. destruct b.
  - destruct (index _ _); discriminate.
  - destruct (index _ _) as [[a|]|]; discriminate.
Qed.

Create HintDb halts discriminated.

#[export] Hint Resolve diverge_getNode diverge_setNode diverge_getAux
  diverge_setAux diverge_deref_ss diverge_callAt diverge_callNext
  diverge_nilNode diverge_peekNode : halts.

Ltac halt_step :=
  lazymatch goal with
  | |- never_diverges (bind _ _) => apply diverge_bind; [|intros ?]
  | |- never_diverges (ret _) => apply diverge_ret
  | |- never_diverges (panic _) => apply diverge_panic
  | |- never_diverges out_of_fuel => apply diverge_out_of_fuel
  | |- never_diverges get => apply diverge_get
  | |- never_diverges (if ?c then _ else _) => destruct c eqn:?
  | |- never_diverges (match ?c with _ => _ end) => destruct c eqn:?
  | |- never_diverges _ => solve [auto with halts]
  end.

Ltac halt := repeat halt_step.

Lemma diverge_Fix_step v : never_diverges (Fix_step v).
Proof. unfold Fix_step. halt. Qed.

Lemma diverge_Fix_loop fuel : forall v, never_diverges (Fix_loop fuel v).
Proof.
  induction fuel as [|f IH]; intros v; simpl.
  - destruct (nodesInLevel v <=? 0); halt.
  - destruct (nodesInLevel v <=? 0); [halt|].
    apply diverge_bind; [apply diverge_Fix_step|done].
Qed.

(** [Fix] has no loop that can spin. *)
Lemma diverge_Fix : never_diverges Fix.
Proof.
  unfold Fix. apply diverge_bind; [apply diverge_get|intros w0].
  destruct (_ =? -1); [apply diverge_panic|].
  apply diverge_bind; [apply diverge_getNode|intros leaf].
  apply diverge_bind; [apply diverge_callNext|intros b].
  apply diverge_bind;
    [destruct b; [apply diverge_ret|apply diverge_setNode]|].
  intros _. apply diverge_Fix_loop.
Qed.

End halt_facts.

(** * Further properties of the tournament tree *)

Module tree_more.

Import tree tree_frame tree_facts construction fix_facts fuel_facts.

Lemma countAuxNodes_pos fuel n acc :
  2 <= n -> (1 <= fuel)%nat -> 0 <= acc -> 1 <= countAuxNodes fuel n acc.
Proof.
  intros Hn Hf Hacc. destruct fuel as [|f]; [lia|]. simpl.
  destruct (1 <? n) eqn:E; [|apply Z.ltb_ge in E; lia].
  assert (1 <= Z.quot n 2).
  { rewrite Z.quot_div_nonneg by lia. Z.div_mod_to_equations. lia. }
  destruct (Z.rem n 2 =? 0).
  - pose proof (shape_facts.countAuxNodes_nonneg f (Z.quot n 2) 0).
    assert (forall g m a, 0 <= m -> a <= countAuxNodes g m a) as Hmono.
    { clear. induction g as [|g IH]; intros m a Hm; simpl; [lia|].
      assert (0 <= Z.quot m 2) by (apply Z.quot_pos; lia).
      destruct (1 <? m); [|lia].
      destruct (Z.rem m 2 =? 0).
      - etrans; [|apply IH]; lia.
      - etrans; [|apply IH]; lia. }
    etrans; [|apply Hmono]; lia.
  - assert (forall g m a, 0 <= m -> a <= countAuxNodes g m a) as Hmono.
    { clear. induction g as [|g IH]; intros m a Hm; simpl; [lia|].
      assert (0 <= Z.quot m 2) by (apply Z.quot_pos; lia).
      destruct (1 <? m); [|lia].
      destruct (Z.rem m 2 =? 0).
      - etrans; [|apply IH]; lia.
      - etrans; [|apply IH]; lia. }
    etrans; [|apply Hmono]; lia.
Qed.

Lemma padded_len (ns : list SeriesSet) :
  ns <> [] ->
  2 <= len (if Z.rem (len ns) 2 =? 0 then ns else ns ++ [infinity]).
Proof.
  intros Hne. unfold len, SeriesSet in *.
  destruct ns as [|x ns]; [done|].
  destruct (Z.rem (Z.of_nat (length (x :: ns))) 2 =? 0) eqn:E.
  - apply Z.eqb_eq in E. rewrite Z.rem_mod_nonneg in E by lia.
    cbn [length] in *. Z.div_mod_to_equations. lia.
  - rewrite length_app. cbn [length]. lia.
Qed.

Lemma Pop_no_aux w :
  auxiliaryNodes (t w) = [] -> Pop w = (Panic index_out_of_range, w).
Proof.
  intros H. unfold Pop, bind, get, getAux. rewrite H. reflexivity.
Qed.

End tree_more.

Import tree.

(** X1.  [NewProxyTournamentTree] advances none of the streams it is
    given: on every way out the streams are as they were, the leaves are
    the streams given, in order, with one sentinel appended when their
    number is odd, so that the number of leaves is even, and
    [lastChangedNodeIndex] is -1.  The loops of the construction end. *)
Theorem construction_keeps_the_streams st ns o w :
  NewProxyTournamentTree st ns = (o, w) ->
  store w = st /\
  nodes (t w) = (if Z.rem (len ns) 2 =? 0 then ns else ns ++ [infinity]) /\
  Z.rem (len (nodes (t w))) 2 = 0 /\
  lastChangedNodeIndex (t w) = -1 /\
  o <> OutOfFuel.
Proof.
  intros H.
  pose proof (construction.NewProxyTournamentTree_frame _ _ _ _ H)
    as (Hst & Hn & Hl).
  repeat split; auto.
  - rewrite Hn. unfold len, SeriesSet in *.
    destruct (Z.rem (Z.of_nat (length ns)) 2 =? 0) eqn:E.
    + by apply Z.eqb_eq in E.
    + apply Z.eqb_neq in E. rewrite length_app. simpl.
      rewrite Z.rem_mod_nonneg in * by lia.
      Z.div_mod_to_equations. lia.
  - pose proof (fuel_facts.fuel_NewProxyTournamentTree st ns) as Hf.
    by rewrite H in Hf.
Qed.

Lemma construction_keeps_the_streams_witness :
  store (snd scenarios.build3)
  = [scenarios.single "foo"; scenarios.single "bar"; scenarios.single "baz"]
  /\ nodes (t (snd scenarios.build3))
     = [Some 0%nat; Some 1%nat; Some 2%nat; infinity].
Proof.
  destruct (construction_keeps_the_streams
              [scenarios.single "foo"; scenarios.single "bar";
               scenarios.single "baz"]
              (scenarios.leaves 3) (fst scenarios.build3)
              (snd scenarios.build3)) as (H1 & H2 & _).
  - vm_compute. reflexivity.
  - split; [exact H1 | exact H2].
Defined.

(** X2.  The number of auxiliary nodes [NewProxyTournamentTree]
    allocates for [n >= 2] leaves (after padding) is the sum of the
    level sizes [ceil (n / 2), ceil (n / 4), ...] down to the level of
    size 1. *)
Theorem auxiliary_nodes_add_up st ns o w :
  NewProxyTournamentTree st ns = (o, w) ->
  2 <= len (nodes (t w)) ->
  len (auxiliaryNodes (t w)) = shape.auxCount (len (nodes (t w))).
Proof. apply shape_facts.aux_count_is_level_sum. Qed.

Lemma auxiliary_nodes_add_up_witness :
  len (auxiliaryNodes (t (snd scenarios.build2))) = shape.auxCount 6.
Proof.
  apply (auxiliary_nodes_add_up
           (store (snd scenarios.build2)) (scenarios.leaves 5)
           (fst scenarios.build2) (snd scenarios.build2)).
  - vm_compute. reflexivity.
  - vm_compute. discriminate.
Defined.

(** X3.  A tree has no auxiliary node exactly when it is built over no
    stream at all; construction then returns, and [Pop] on that tree
    panics with an index out of range and changes nothing. *)
Theorem tree_without_streams st ns o w :
  NewProxyTournamentTree st ns = (o, w) ->
  (auxiliaryNodes (t w) = [] <-> ns = []) /\
  (ns = [] -> o = Ret tt /\ Pop w = (Panic index_out_of_range, w)).
Proof.
  intros H. split; [split|].
  - intros Ha. destruct (decide (ns = [])) as [|Hne]; [done|]. exfalso.
    unfold NewProxyTournamentTree in H. cbv zeta in H.
    apply construction.keeps_initialFix in H as (_ & _ & _ & Hlen & _).
    cbn [t auxiliaryNodes] in Hlen. rewrite Ha, length_replicate in Hlen.
    pose proof (tree_more.padded_len ns Hne) as Hp.
    remember (if Z.rem (len ns) 2 =? 0 then ns else ns ++ [infinity])
      as padded eqn:Epad.
    pose proof (tree_more.countAuxNodes_pos (length padded) (len padded) 0 Hp)
      as Hc.
    cbn [length] in Hlen. unfold len in *. lia.
  - intros ->. vm_compute in H. by inversion H.
  - intros ->. vm_compute in H. inversion H. split; [done|].
    by apply tree_more.Pop_no_aux.
Qed.

Lemma tree_without_streams_witness :
  Pop (snd (NewProxyTournamentTree [] []))
  = (Panic index_out_of_range, snd (NewProxyTournamentTree [] [])).
Proof.
  destruct (tree_without_streams [] [] (fst (NewProxyTournamentTree [] []))
              (snd (NewProxyTournamentTree [] [])) eq_refl) as (_ & H).
  destruct (H eq_refl) as (_ & HP). exact HP.
Defined.

(** X4.  A [Fix] that returns has written into the slot above the pair
    of the changed leaf the left leaf of that pair, with its index as
    back reference, whatever the right leaf holds. *)
Theorem Fix_writes_the_left_leaf w w' :
  Fix w = (Ret tt, w') ->
  2 <= len (nodes (t w)) ->
  exists s,
    index (nodes (t w'))
      (if Z.rem (lastChangedNodeIndex (t w)) 2 =? 0
       then lastChangedNodeIndex (t w)
       else lastChangedNodeIndex (t w) - 1) = Some s /\
    index (auxiliaryNodes (t w')) (Z.quot (lastChangedNodeIndex (t w)) 2)
      = Some (Some (mkAux s (-1)
                      (if Z.rem (lastChangedNodeIndex (t w)) 2 =? 0
                       then lastChangedNodeIndex (t w)
                       else lastChangedNodeIndex (t w) - 1))).
Proof. apply fix_level_facts.Fix_takes_the_left_leaf. Qed.

Lemma Fix_writes_the_left_leaf_witness :
  exists s,
    index (nodes (t (snd (Fix (snd (Pop (snd scenarios.tree2)))))))
      0 = Some s /\
    index (auxiliaryNodes (t (snd (Fix (snd (Pop (snd scenarios.tree2)))))))
      0 = Some (Some (mkAux s (-1) 0)).
Proof.
  apply (Fix_writes_the_left_leaf (snd (Pop (snd scenarios.tree2)))
           (snd (Fix (snd (Pop (snd scenarios.tree2)))))).
  - vm_compute. reflexivity.
  - vm_compute. discriminate.
Defined.



(** X6.  In every state a user can bring about (the tree as built, then
    any calls of [Pop] and [Fix], answered or panicking), a call of
    [Pop] ends: its loop, which has no bound of its own, never spins,
    because no auxiliary node ever has both back references at -1.  A
    call of [Fix] ends as well. *)
Theorem calls_on_the_tree_end w :
  tree_states.reachable w ->
  tree_states.no_spin w /\
  ((exists v w', Pop w = (Ret v, w')) \/
   (exists msg w', Pop w = (Panic msg, w'))) /\
  ((exists w', Fix w = (Ret tt, w')) \/
   (exists msg w', Fix w = (Panic msg, w'))).
Proof.
  intros H. apply spin_facts.reachable_no_spin in H. split; [done|]. split.
  - pose proof (spin_facts.Pop_no_diverge w H) as Hd.
    pose proof (fuel_facts.fuel_Pop w) as Hf.
    destruct (Pop w) as [[v|msg| |] w']; simpl in *; try done.
    + left. by exists v, w'.
    + right. by exists msg, w'.
  - pose proof (halt_facts.diverge_Fix w) as Hd.
    pose proof (fuel_facts.fuel_Fix w) as Hf.
    destruct (Fix w) as [[[]|msg| |] w']; simpl in *; try done.
    + left. by exists w'.
    + right. by exists msg, w'.
Qed.

Lemma calls_on_the_tree_end_witness :
  tree_states.no_spin (snd (Fix (snd (Pop (snd scenarios.tree2))))).
Proof.
  apply calls_on_the_tree_end.
  eapply tree_states.reach_Fix;
    [eapply tree_states.reach_Pop;
     [eapply (tree_states.reach_new
                [scenarios.single "baa"; scenarios.single "bab"]
                (scenarios.leaves 2) (fst scenarios.tree2)
                (snd scenarios.tree2))|]|].
  - vm_compute. reflexivity.
  - apply surjective_pairing.
  - apply surjective_pairing.
Defined.

(** * Further properties of the streams and of the dedup wrapper *)

Module labels_facts.

Lemma string_compare_refl s : String.compare s s = Eq.
Proof.
  induction s as [|a s IH]; cbn; [done|].
  unfold Ascii.compare. by rewrite N.compare_refl.
Qed.

(** Label sets that compare equal are the same. *)
Lemma Compare_eq a b : Compare a b = 0 -> a = b.
Proof.
  revert b. induction a as [|x a IH]; intros [|y b]; cbn [Compare].
  - done.
  - intros H. cbn [length] in H. lia.
  - intros H. cbn [length] in H. lia.
  - destruct (String.compare (Name x) (Name y)) eqn:En; try discriminate.
    destruct (String.compare (Value x) (Value y)) eqn:Ev; try discriminate.
    apply String.compare_eq_iff in En, Ev. intros H. apply IH in H.
    destruct x, y. cbn in *. by subst.
Qed.

Lemma Compare_refl a : Compare a a = 0.
Proof.
  induction a as [|x a IH]; cbn [Compare]; [done|].
  by rewrite !string_compare_refl.
Qed.

End labels_facts.

Module cursor_facts.

Import heap cursor.

(** Below [MaxInt] the cursor is incremented without a wrap-around,
    and [Next] is the [Next] counted in [Z]. *)
Lemma incr_below x : x < MaxInt -> incr x = x + 1.
Proof.
  intros H. unfold incr. destruct (x =? MaxInt) eqn:E; [|done].
  apply Z.eqb_eq in E. lia.
Qed.

Lemma Next_below ss : i ss < MaxInt -> Next ss = respSet_Next ss.
Proof. intros H. unfold Next, respSet_Next. by rewrite incr_below. Qed.

Lemma drain_from fuel :
  forall ss,
    -1 <= i ss -> i ss < MaxInt -> len (responses ss) <= MaxInt ->
    (length (responses ss) - Z.to_nat (i ss + 1) < fuel)%nat ->
    drain fuel ss = Ret (drop (Z.to_nat (i ss + 1)) (responses ss)).
Proof.
  induction fuel as [|f IH]; intros ss Hi Hmax Hlen Hf; [lia|].
  cbn [drain]. rewrite (Next_below ss Hmax).
  unfold respSet_Next. cbn [i responses].
  destruct (i ss + 1 <? len (responses ss)) eqn:E.
  - apply Z.ltb_lt in E.
    unfold respSet_At. cbn [i responses]. unfold index.
    destruct (i ss + 1 <? 0) eqn:E0; [apply Z.ltb_lt in E0; lia|].
    unfold len in E.
    destruct (lookup_lt_is_Some_2 (responses ss) (Z.to_nat (i ss + 1)))
      as [r Hr]; [lia|].
    rewrite Hr. rewrite IH; cbn [i responses];
      [|lia|unfold len in Hlen; lia|done|lia].
    replace (Z.to_nat (i ss + 1 + 1)) with (S (Z.to_nat (i ss + 1))) by lia.
    by rewrite (drop_S _ _ _ Hr).
  - apply Z.ltb_ge in E. unfold len in E.
    rewrite drop_ge by lia. reflexivity.
Qed.

End cursor_facts.

(** X7.  A [respSet] whose cursor stands before its first response or
    on a response, at least two steps below the largest [int], over a
    slice whose length is an [int]: the consumer loop
    [for Next() { At() }] reads the responses after the cursor, each
    once and in order, without a panic and without a wrap-around of the
    cursor.  After [Next] has answered false it answers false again,
    and [At] past the end panics with an index out of range. *)
Theorem cursor_reads_the_rest (ss : heap.respSet) :
  -1 <= heap.i ss ->
  heap.i ss + 2 <= cursor.MaxInt ->
  len (heap.responses ss) <= cursor.MaxInt ->
  cursor.drain (S (length (heap.responses ss))) ss
    = Ret (drop (Z.to_nat (heap.i ss + 1)) (heap.responses ss)) /\
  (forall ss', cursor.Next ss = (false, ss') ->
     fst (cursor.Next ss') = false /\
     heap.respSet_At ss' = Panic index_out_of_range).
Proof.
  intros Hi Hmax Hlen. split; [apply cursor_facts.drain_from; lia|].
  intros ss' H. rewrite cursor_facts.Next_below in H by lia.
  unfold heap.respSet_Next in H. cbn [heap.i heap.responses] in H.
  injection H as Hlt Hs. subst ss'. apply Z.ltb_ge in Hlt. split.
  - rewrite cursor_facts.Next_below by (cbn [heap.i]; lia).
    unfold heap.respSet_Next. cbn [heap.i heap.responses fst].
    apply Z.ltb_ge. lia.
  - unfold heap.respSet_At, index. cbn [heap.i heap.responses].
    destruct (heap.i ss + 1 <? 0); [done|].
    rewrite lookup_ge_None_2; [done|]. unfold len in Hlt. lia.
Qed.

Lemma cursor_reads_the_rest_witness :
  cursor.drain 3
    (heap.mkRespSet [WarningFrame "a"; WarningFrame "b"] (-1))
  = Ret [WarningFrame "a"; WarningFrame "b"].
Proof.
  apply (cursor_reads_the_rest
           (heap.mkRespSet [WarningFrame "a"; WarningFrame "b"] (-1))).
  - cbn. lia.
  - vm_compute. discriminate.
  - vm_compute. discriminate.
Defined.

Module dedup_more.

Import heap dedup dedup_spec dedup_calls.

Section Facts.

Variable Hash : AggrChunk -> string.

Lemma firstWithHash_hash h cs c :
  firstWithHash Hash h cs = Some c -> Hash c = h.
Proof.
  induction cs as [|x cs IH]; cbn [firstWithHash]; [done|].
  destruct (String.eqb (Hash x) h) eqn:E; [|done].
  intros H. inversion H; subst. by apply String.eqb_eq.
Qed.

Lemma lookup_addChunks (cs : list AggrChunk) :
  forall (m : gmap string AggrChunk) h,
    foldl (addChunk Hash) m cs !! h =
    match m !! h with
    | Some c => Some c
    | None => firstWithHash Hash h cs
    end.
Proof.
  induction cs as [|x cs IH]; intros m h; cbn [foldl firstWithHash].
  - by destruct (m !! h).
  - rewrite IH. unfold addChunk.
    destruct (m !! Hash x) as [y|] eqn:Ex.
    + destruct (m !! h) as [c|] eqn:Eh; [done|].
      destruct (String.eqb (Hash x) h) eqn:E; [|done].
      apply String.eqb_eq in E. congruence.
    + destruct (String.eqb (Hash x) h) eqn:E.
      * apply String.eqb_eq in E. subst h.
        rewrite lookup_insert_eq. by rewrite Ex.
      * apply String.eqb_neq in E. by rewrite lookup_insert_ne.
Qed.

Lemma collectChunks_all (resps : list SeriesResponse) :
  forall m,
    (forall r, r ∈ resps -> is_Some (GetSeries r)) ->
    collectChunks Hash m resps
    = Ret (foldl (addChunk Hash) m (allChunks resps)).
Proof.
  induction resps as [|r resps IH]; intros m Hall; [done|].
  cbn [collectChunks allChunks flat_map].
  destruct (Hall r) as [s Hs]; [by left|]. rewrite Hs.
  rewrite foldl_app. apply IH. intros r' Hr'. apply Hall. by right.
Qed.

Lemma with_defer_inv {W L A} (l0 : L) (body : M (W * L) A) deferred
    w o w' :
  with_defer l0 body deferred w = (o, w') ->
  exists w1 l, body (w, l0) = (o, (w1, l)) /\ w' = deferred l w1.
Proof.
  unfold with_defer. destruct (body (w, l0)) as [o1 [w1 l]].
  intros H. inversion H. eauto.
Qed.

Lemma dNext_true_or_stopped d d' :
  dNext d = (Ret false, d') ->
  previousNext d = false /\ responses d = [] /\ d' = d.
Proof.
  unfold dNext, bind at 1, get.
  destruct (previousNext d) eqn:Ep; cbn [negb].
  - intros H. exfalso.
    apply bind_Ret_inv in H as (resp & d1 & _ & H).
    apply with_defer_inv in H as (w2 & l & Eb & _).
    apply bind_Ret_inv in Eb as ([] & dl & _ & Eb).
    destruct (GetSeries resp).
    + apply bind_Ret_inv in Eb as ([] & dl' & _ & Eb). inversion Eb.
    + apply bind_Ret_inv in Eb as ([] & dl' & _ & Eb). inversion Eb.
  - unfold ret. intros H. injection H as Hl Hd. subst d'.
    apply Z.ltb_ge in Hl. unfold len in Hl.
    split; [done|]. split; [|done].
    destruct (responses d) as [|r l]; [done|]. cbn [length] in Hl. lia.
Qed.

End Facts.

End dedup_more.

(** X8.  The end of the wrapped stream is final: once [Next] has
    answered false, the wrapper is as it was before that call and its
    buffer is empty, and after any further calls of [Next] and [At], in
    any order, it is still the same wrapper; [Next] answers false again
    and [At] answers nil. *)
Theorem dedup_end_is_final (Hash : AggrChunk -> string) d d' :
  dedup.dNext d = (Ret false, d') ->
  d' = d /\
  dedup.responses d = [] /\
  forall cs,
    dedup_calls.after Hash cs d = d /\
    dedup.dNext (dedup_calls.after Hash cs d) = (Ret false, d) /\
    dedup.dAt Hash (dedup_calls.after Hash cs d) = (Ret None, d).
Proof.
  intros H.
  pose proof (dedup_more.dNext_true_or_stopped _ _ H) as (Hp & Hr & ->).
  split; [done|]. split; [done|].
  assert (dedup.dAt Hash d = (Ret None, d)) as HAt.
  { unfold dedup.dAt. rewrite Hr. destruct d. cbn in *. by subst. }
  assert (forall cs, dedup_calls.after Hash cs d = d) as Hcs.
  { induction cs as [|[|] cs IH]; cbn [dedup_calls.after]; [done|..].
    - by rewrite H.
    - by rewrite HAt. }
  intros cs. rewrite Hcs. auto.
Qed.

Lemma dedup_end_is_final_witness :
  dedup_calls.after dedup_scenarios.chunk_hash
    [dedup_calls.CallAt; dedup_calls.CallNext]
    (snd (dedup.dAt dedup_scenarios.chunk_hash dedup_scenarios.bufferedRun))
  = snd (dedup.dAt dedup_scenarios.chunk_hash dedup_scenarios.bufferedRun).
Proof.
  apply (dedup_end_is_final dedup_scenarios.chunk_hash
           (snd (dedup.dAt dedup_scenarios.chunk_hash
                   dedup_scenarios.bufferedRun))
           (snd (dedup.dAt dedup_scenarios.chunk_hash
                   dedup_scenarios.bufferedRun))).
  vm_compute. reflexivity.
Defined.

(** X9.  [At] over a buffer of two series responses or more: the chunk
    list returned holds, after as many zero-valued chunks, the chunks
    kept; the chunks kept have pairwise different hashes and are, for
    every hash that occurs in the buffer, the first chunk with that hash
    in the order of the buffer; the labels are those of the first
    response, and the buffer is emptied. *)
Theorem At_keeps_the_first_of_each_hash (Hash : AggrChunk -> string)
    d r1 r2 rest :
  dedup.responses d = r1 :: r2 :: rest ->
  (forall r, r ∈ dedup.responses d -> is_Some (GetSeries r)) ->
  exists s1 kept,
    GetSeries r1 = Some s1 /\
    dedup.dAt Hash d =
      (Ret (Some (SeriesFrame
                    (mkSeries (storepb.Labels s1)
                       (replicate (length kept) zeroChunk ++ kept)))),
       dedup.set_responses [] d) /\
    NoDup (Hash <$> kept) /\
    forall c,
      c ∈ kept <->
      dedup_spec.firstWithHash Hash (Hash c)
        (dedup_spec.allChunks (dedup.responses d)) = Some c.
Proof.
  intros Hr Hall.
  destruct (Hall r1) as [s1 Hs1]; [rewrite Hr; by left|].
  set (m := foldl (dedup.addChunk Hash) ∅
              (dedup_spec.allChunks (dedup.responses d))).
  assert (forall k c, m !! k = Some c <->
            dedup_spec.firstWithHash Hash k
              (dedup_spec.allChunks (dedup.responses d)) = Some c) as Hm.
  { intros k c. unfold m. rewrite dedup_more.lookup_addChunks.
    by rewrite lookup_empty. }
  exists s1, (map snd (map_to_list m)). split; [done|]. split.
  - rewrite (dedup_facts.dAt_run Hash d r1 r2 rest s1 m Hr Hs1).
    + by rewrite length_map, length_map_to_list.
    + by apply dedup_more.collectChunks_all.
  - split.
    + assert (Hash <$> map snd (map_to_list m) = (map_to_list m).*1) as ->.
      { rewrite <- list_fmap_compose. apply list_fmap_ext.
        intros j [k c] Hj. cbn.
        apply list_elem_of_lookup_2 in Hj.
        apply elem_of_map_to_list in Hj. apply Hm in Hj.
        by apply dedup_more.firstWithHash_hash in Hj. }
      apply NoDup_fst_map_to_list.
    + intros c. rewrite <- Hm. split.
      * intros Hc. apply list_elem_of_fmap in Hc as ([k c'] & -> & Hkc).
        apply elem_of_map_to_list in Hkc. cbn.
        pose proof Hkc as Hk. apply Hm in Hk.
        apply dedup_more.firstWithHash_hash in Hk. by subst.
      * intros Hc. apply list_elem_of_fmap. exists (Hash c, c).
        split; [done|]. by apply elem_of_map_to_list.
Qed.

Lemma At_keeps_the_first_of_each_hash_witness :
  exists s1 kept,
    GetSeries (dedup_scenarios.seriesResp "A" [dedup_scenarios.chunk "h1"])
      = Some s1 /\
    dedup.dAt dedup_scenarios.chunk_hash dedup_scenarios.bufferedRun =
      (Ret (Some (SeriesFrame
                    (mkSeries (storepb.Labels s1)
                       (replicate (length kept) zeroChunk ++ kept)))),
       dedup.set_responses [] dedup_scenarios.bufferedRun).
Proof.
  destruct (At_keeps_the_first_of_each_hash dedup_scenarios.chunk_hash
              dedup_scenarios.bufferedRun
              (dedup_scenarios.seriesResp "A" [dedup_scenarios.chunk "h1"])
              (dedup_scenarios.seriesResp "A" [dedup_scenarios.chunk "h2"])
              []) as (s1 & kept & H1 & H2 & _).
  - vm_compute. reflexivity.
  - intros r Hr.
    assert (dedup.responses dedup_scenarios.bufferedRun
            = [dedup_scenarios.seriesResp "A" [dedup_scenarios.chunk "h1"];
               dedup_scenarios.seriesResp "A" [dedup_scenarios.chunk "h2"]])
      as Hb by (vm_compute; reflexivity).
    rewrite Hb in Hr.
    apply elem_of_cons in Hr as [->|Hr]; [by eexists|].
    apply elem_of_cons in Hr as [->|Hr]; [by eexists|]. inversion Hr.
  - exists s1, kept. split; [exact H1 | exact H2].
Defined.

Module dedup_run.

Import heap dedup dedup_spec.

Lemma on_world_Ret {W L A} (m : M W A) (w : W) (l : L) a wl :
  on_world m (w, l) = (Ret a, wl) ->
  exists w1, m w = (Ret a, w1) /\ wl = (w1, l).
Proof.
  unfold on_world. cbn [fst snd]. destruct (m w) as [o w1].
  intros H. inversion H. eauto.
Qed.

Lemma on_heap_Ret {A} (m : M (heap.world respSet) A) d a d1 :
  on_heap m d = (Ret a, d1) ->
  exists w', m (hw d) = (Ret a, w') /\ d1 = set_hw w' d.
Proof.
  unfold on_heap. destruct (m (hw d)) as [o w'].
  intros H. inversion H. eauto.
Qed.

Lemma series_run_last lbls resps :
  series_run lbls resps ->
  exists r s, last resps = Some r /\ GetSeries r = Some s /\
              storepb.Labels s = lbls.
Proof.
  intros [Hne Hall].
  destruct (last resps) as [r|] eqn:El.
  - destruct (Hall r) as (s & Hs & Hl).
    { apply last_Some in El as [l' ->]. apply elem_of_app. right. by left. }
    eauto.
  - apply last_None in El. done.
Qed.

Lemma series_run_app lbls resps r s :
  series_run lbls resps -> GetSeries r = Some s ->
  storepb.Labels s = lbls -> series_run lbls (resps ++ [r]).
Proof.
  intros [Hne Hall] Hs Hl. split.
  - destruct resps; discriminate.
  - intros r' Hr'. apply elem_of_app in Hr' as [Hr'|Hr']; [by apply Hall|].
    apply list_elem_of_singleton in Hr' as ->. eauto.
Qed.

Lemma Next_loop_run lbls fuel :
  forall d l d' l',
    Next_loop fuel (d, l) = (Ret tt, (d', l')) ->
    series_run lbls (responses d) -> series_run lbls (responses d').
Proof.
  induction fuel as [|f IH]; intros d l d' l' H Hrun; [inversion H|].
  cbn [Next_loop] in H.
  apply bind_Ret_inv in H as (nextHeap & dl1 & Hn & H).
  apply on_world_Ret in Hn as (d1 & Hn & ->).
  apply on_heap_Ret in Hn as (w1 & _ & ->).
  apply bind_Ret_inv in H as ([] & dl2 & Hloc & H).
  inversion Hloc; subst dl2. clear Hloc. cbn [fst] in H.
  destruct nextHeap; cbn [negb] in H; [|by inversion H; subst].
  apply bind_Ret_inv in H as (resp & dl3 & Hat & H).
  apply on_world_Ret in Hat as (d3 & Hat & ->).
  apply on_heap_Ret in Hat as (w3 & _ & ->).
  destruct (GetSeries resp) as [s|] eqn:Es.
  - apply bind_Ret_inv in H as (dl & dl4 & Hg & H).
    inversion Hg; subst dl dl4. clear Hg. cbn [fst responses set_hw] in H.
    destruct (series_run_last _ _ Hrun) as (lastResp & sl & Hlast & Hsl & Hl).
    rewrite Hlast, Hsl in H.
    destruct (Compare (storepb.Labels s) (storepb.Labels sl) =? 0) eqn:Ec.
    + apply Z.eqb_eq in Ec. apply labels_facts.Compare_eq in Ec.
      apply bind_Ret_inv in H as ([] & dl5 & Happ & H).
      apply on_world_Ret in Happ as (d5 & Happ & ->).
      inversion Happ; subst d5. clear Happ.
      eapply IH; [exact H|]. cbn [responses set_responses set_hw].
      eapply series_run_app; eauto. congruence.
    + apply on_world_Ret in H as (d5 & Hm & Heq).
      inversion Hm; subst d5. inversion Heq; subst. by cbn.
  - apply on_world_Ret in H as (d5 & Hm & Heq).
    inversion Hm; subst d5. inversion Heq; subst. by cbn.
Qed.

Lemma series_run_one_run lbls resps :
  series_run lbls resps -> one_run resps.
Proof.
  intros [Hne Hall]. destruct resps as [|r0 rest]; [done|]. cbn.
  destruct (Hall r0) as (s0 & Hs0 & Hl0); [by left|]. rewrite Hs0.
  intros r Hr. destruct (Hall r) as (s & Hs & Hl); [by right|].
  exists s. split; [done|]. congruence.
Qed.

Lemma dAt_one_run Hash d :
  one_run (responses d) ->
  exists out, dAt Hash d = (Ret (Some out), set_responses [] d).
Proof.
  intros Hrun. destruct (responses d) as [|r0 [|r1 rest]] eqn:Er; [done|..].
  - exists r0. unfold dAt. by rewrite Er.
  - cbn in Hrun. destruct (GetSeries r0) as [s0|] eqn:Es0; [|discriminate].
    eexists.
    eapply (dedup_facts.dAt_run Hash d r0 r1 rest s0); [exact Er|exact Es0|].
    apply dedup_more.collectChunks_all. rewrite Er.
    intros r Hr. apply elem_of_cons in Hr as [->|Hr]; [by eexists|].
    destruct (Hrun r Hr) as (s & Hs & _). by eexists.
Qed.

End dedup_run.

(** X10.  A [Next] that reads from the heap and answers true leaves in
    the buffer one run: a single non-series response, or series
    responses that all carry the label set of the first.  The [At] that
    follows returns a response, without a panic, and empties the
    buffer. *)
Theorem Next_buffers_one_run (Hash : AggrChunk -> string) d d' :
  dedup.previousNext d = true ->
  dedup.dNext d = (Ret true, d') ->
  dedup_spec.one_run (dedup.responses d') /\
  exists out,
    dedup.dAt Hash d' = (Ret (Some out), dedup.set_responses [] d').
Proof.
  intros Hp H.
  assert (dedup_spec.one_run (dedup.responses d')) as Hrun.
  { unfold dedup.dNext, bind at 1, get in H. rewrite Hp in H.
    cbn [negb] in H.
    apply bind_Ret_inv in H as (resp & d1 & _ & H).
    apply dedup_more.with_defer_inv in H as (d2 & l & Hb & ->).
    cbn [dedup.responses dedup.set_previousNext].
    apply bind_Ret_inv in Hb as ([] & dl & Hset & Hb).
    apply dedup_run.on_world_Ret in Hset as (d3 & Hset & ->).
    inversion Hset; subst d3. clear Hset.
    destruct (GetSeries resp) as [s|] eqn:Es.
    - apply bind_Ret_inv in Hb as ([] & [d4 l4] & Hloop & Hb).
      inversion Hb; subst. clear Hb.
      eapply dedup_run.series_run_one_run.
      eapply (dedup_run.Next_loop_run (storepb.Labels s)); [exact Hloop|].
      cbn. split; [done|]. intros r Hr.
      apply list_elem_of_singleton in Hr as ->. eauto.
    - apply bind_Ret_inv in Hb as ([] & dl & Hm & Hb).
      apply dedup_run.on_world_Ret in Hm as (d4 & Hm & ->).
      inversion Hm; subst d4. inversion Hb; subst. cbn. by rewrite Es. }
  split; [done|]. by apply dedup_run.dAt_one_run.
Qed.

Lemma Next_buffers_one_run_witness :
  dedup_spec.one_run (dedup.responses dedup_scenarios.bufferedRun).
Proof.
  apply (Next_buffers_one_run dedup_scenarios.chunk_hash
           (snd dedup_scenarios.runOfTwo) dedup_scenarios.bufferedRun).
  - vm_compute. reflexivity.
  - vm_compute. reflexivity.
Defined.

(** ** The order of the heap *)

Module order_facts.

Import heap_order.

Lemma string_lt_trans a : forall b c,
  String.compare a b = Lt -> String.compare b c = Lt ->
  String.compare a c = Lt.
Proof.
  induction a as [|x a IH]; intros [|y b] [|z c]; cbn; try done.
  unfold Ascii.compare.
  destruct (N.compare_spec (Ascii.N_of_ascii x) (Ascii.N_of_ascii y)) as [Exy|Exy|Exy],
    (N.compare_spec (Ascii.N_of_ascii y) (Ascii.N_of_ascii z)) as [Eyz|Eyz|Eyz],
    (N.compare_spec (Ascii.N_of_ascii x) (Ascii.N_of_ascii z)) as [Exz|Exz|Exz];
    try done; try lia.
  apply IH.
Qed.

Lemma Compare_cons x a y b :
  Compare (x :: a) (y :: b)
  = match pair_cmp x y with
    | Lt => -1
    | Gt => 1
    | Eq => Compare a b
    end.
Proof.
  cbn [Compare]. unfold pair_cmp.
  destruct (String.compare (Name x) (Name y)); [|done..].
  by destruct (String.compare (Value x) (Value y)).
Qed.

Lemma pair_cmp_eq x y : pair_cmp x y = Eq -> x = y.
Proof.
  unfold pair_cmp.
  destruct (String.compare (Name x) (Name y)) eqn:En; try done.
  intros Ev. apply String.compare_eq_iff in En, Ev.
  destruct x, y. cbn in *. by subst.
Qed.

Lemma pair_cmp_antisym x y : pair_cmp x y = CompOpp (pair_cmp y x).
Proof.
  unfold pair_cmp.
  rewrite (String.compare_antisym (Name x) (Name y)),
    (String.compare_antisym (Value x) (Value y)).
  by destruct (String.compare (Name y) (Name x)).
Qed.

Lemma pair_cmp_lt_trans x y z :
  pair_cmp x y = Lt -> pair_cmp y z = Lt -> pair_cmp x z = Lt.
Proof.
  unfold pair_cmp.
  destruct (String.compare (Name x) (Name y)) eqn:Exy; try done;
    destruct (String.compare (Name y) (Name z)) eqn:Eyz; try done;
    intros Hxy Hyz.
  - apply String.compare_eq_iff in Exy, Eyz. rewrite Exy, Eyz.
    rewrite labels_facts.string_compare_refl.
    by eapply string_lt_trans.
  - apply String.compare_eq_iff in Exy. by rewrite Exy, Eyz.
  - apply String.compare_eq_iff in Eyz. by rewrite <- Eyz, Exy.
  - by rewrite (string_lt_trans _ _ _ Exy Eyz).
Qed.

Lemma Compare_antisym a : forall b,
  (Compare a b ?= 0) = CompOpp (Compare b a ?= 0).
Proof.
  induction a as [|x a IH]; intros [|y b].
  - done.
  - cbn [Compare length]. by destruct (length b).
  - cbn [Compare length]. by destruct (length a).
  - rewrite !Compare_cons, (pair_cmp_antisym x y).
    destruct (pair_cmp y x); cbn [CompOpp]; [apply IH|done..].
Qed.

Lemma Compare_gt a b : Compare a b < 0 <-> 0 < Compare b a.
Proof.
  pose proof (Compare_antisym a b) as H.
  destruct (Z.compare_spec (Compare a b) 0),
    (Z.compare_spec (Compare b a) 0); try done; lia.
Qed.

Lemma Compare_lt_trans a : forall b c,
  Compare a b < 0 -> Compare b c < 0 -> Compare a c < 0.
Proof.
  induction a as [|x a IH]; intros [|y b] [|z c];
    try (cbn [Compare length]; lia).
  rewrite !Compare_cons.
  destruct (pair_cmp x y) eqn:Exy; try lia;
    destruct (pair_cmp y z) eqn:Eyz; try lia; intros Hxy Hyz.
  - apply pair_cmp_eq in Exy, Eyz. subst.
    assert (pair_cmp z z = Eq) as ->.
    { unfold pair_cmp. by rewrite !labels_facts.string_compare_refl. }
    by eapply IH.
  - apply pair_cmp_eq in Exy. subst. by rewrite Eyz.
  - apply pair_cmp_eq in Eyz. subst. by rewrite Exy.
  - by rewrite (pair_cmp_lt_trans _ _ _ Exy Eyz).
Qed.

(** [Less] is a strict weak order on the responses. *)
Lemma less_irrefl x : less x x = false.
Proof.
  unfold less. destruct (GetSeries x); [|done].
  rewrite labels_facts.Compare_refl. done.
Qed.

Lemma less_asym x y : less x y = true -> less y x = false.
Proof.
  unfold less. destruct (GetSeries x), (GetSeries y); try done.
  intros H. apply Z.ltb_lt in H. apply Z.ltb_ge.
  apply Compare_gt in H. lia.
Qed.

Lemma not_after_trans x y z :
  not_after x y -> not_after y z -> not_after x z.
Proof.
  unfold not_after, less.
  destruct (GetSeries x) as [sx|], (GetSeries y) as [sy|],
    (GetSeries z) as [sz|]; try done.
  intros Hyx Hzy. apply Z.ltb_ge in Hyx, Hzy. apply Z.ltb_ge.
  destruct (Z.lt_ge_cases (Compare (storepb.Labels sz) (storepb.Labels sx)) 0)
    as [Hlt|]; [|lia].
  destruct (Z.eq_dec (Compare (storepb.Labels sy) (storepb.Labels sx)) 0)
    as [E|E].
  - apply labels_facts.Compare_eq in E. rewrite E in Hzy. lia.
  - assert (Compare (storepb.Labels sx) (storepb.Labels sy) < 0) as Hxy
      by (apply Compare_gt; lia).
    pose proof (Compare_lt_trans _ _ _ Hlt Hxy). lia.
Qed.

Lemma not_after_total x y : not_after x y \/ not_after y x.
Proof.
  unfold not_after. destruct (less y x) eqn:E; [|by left].
  right. by apply less_asym.
Qed.

End order_facts.

Module heap_facts.

Import heap heap_spec heap_order.

Lemma swap_one {A} (l : list A) j a b :
  l !! j = Some b -> b :: <[j:=a]> l ≡ₚ a :: l.
Proof.
  revert j. induction l as [|x l IH]; intros [|j] H; try done.
  - cbn in H. injection H as ->. cbn. apply perm_swap.
  - cbn in H. cbn. rewrite (perm_swap x b), (IH _ H). apply perm_swap.
Qed.

Lemma swap_perm {A} (l : list A) k j a b :
  l !! k = Some a -> l !! j = Some b ->
  <[j:=a]> (<[k:=b]> l) ≡ₚ l.
Proof.
  revert k j. induction l as [|x l IH]; intros [|k] [|j] Hk Hj; try done.
  - cbn in *. by injection Hk as ->.
  - cbn in *. injection Hk as ->. by apply swap_one.
  - cbn in *. injection Hj as ->. by apply swap_one.
  - cbn in *. f_equiv. by apply IH.
Qed.

Lemma index_Some {A} (l : list A) (k : Z) x :
  index l k = Some x <-> 0 <= k /\ l !! Z.to_nat k = Some x.
Proof.
  unfold index. destruct (k <? 0) eqn:E.
  - apply Z.ltb_lt in E. split; [done|]. lia.
  - apply Z.ltb_ge in E. tauto.
Qed.

Lemma index_lt {A} (l : list A) (k : Z) :
  0 <= k < len l -> exists x, index l k = Some x.
Proof.
  intros Hk. unfold len in Hk.
  destruct (lookup_lt_is_Some_2 l (Z.to_nat k)) as [x Hx]; [lia|].
  exists x. apply index_Some. split; [lia|done].
Qed.

Lemma elem_of_take_lookup {A} (l : list A) n k x :
  (k < n)%nat -> l !! k = Some x -> x ∈ take n l.
Proof.
  intros Hk Hx. apply list_elem_of_lookup. exists k.
  by rewrite lookup_take_lt.
Qed.

Lemma ok_below_transfer n w w' :
  store w' = store w -> take n (h w') ≡ₚ take n (h w) ->
  ok_below n w -> ok_below n w'.
Proof.
  intros Hs Hp Hok r Hr. rewrite Hs. apply Hok. by rewrite <- Hp.
Qed.

(** Inside the first [n] nodes the comparison reads two responses
    and changes nothing. *)
Lemma childAt_ok n w k :
  ok_below n w -> 0 <= k < Z.of_nat n -> Z.of_nat n <= Len w ->
  exists r c x,
    index (h w) k = Some r /\ store w !! r = Some c /\
    index (responses c) (heap.i c) = Some x /\
    childAt k w = (Ret x, w).
Proof.
  intros Hok Hk Hn. unfold Len in Hn.
  destruct (index_lt (h w) k) as [r Hr]; [lia|].
  pose proof Hr as Hr'. apply index_Some in Hr' as [_ Hl].
  destruct (Hok r) as (c & Hc & Hpos).
  { eapply elem_of_take_lookup; [|exact Hl]. lia. }
  destruct (index_lt (responses c) (heap.i c)) as [x Hx]; [exact Hpos|].
  exists r, c, x. repeat split; try done.
  unfold childAt. rewrite Hr, Hc. cbn. unfold respSet_At.
  by rewrite Hx.
Qed.

Lemma Less_ok n w k j :
  ok_below n w -> 0 <= k < Z.of_nat n -> 0 <= j < Z.of_nat n ->
  Z.of_nat n <= Len w ->
  exists b, Less k j w = (Ret b, w).
Proof.
  intros Hok Hk Hj Hn.
  destruct (childAt_ok n w k Hok Hk Hn) as (? & ? & x & _ & _ & _ & Ek).
  destruct (childAt_ok n w j Hok Hj Hn) as (? & ? & y & _ & _ & _ & Ej).
  unfold Less, bind. rewrite Ek, Ej.
  destruct (GetSeries x), (GetSeries y); by eexists.
Qed.

Lemma Swap_ok n (w : world respSet) k j :
  0 <= k < Z.of_nat n -> 0 <= j < Z.of_nat n -> Z.of_nat n <= Len w ->
  exists w',
    Swap k j w = (Ret tt, w') /\ store w' = store w /\
    take n (h w') ≡ₚ take n (h w) /\ drop n (h w') = drop n (h w).
Proof.
  intros Hk Hj Hn. unfold Len in Hn.
  destruct (index_lt (h w) k) as [a Ha]; [lia|].
  destruct (index_lt (h w) j) as [b Hb]; [lia|].
  unfold Swap. rewrite Ha, Hb. eexists. split; [done|].
  apply index_Some in Ha as [_ Ha]. apply index_Some in Hb as [_ Hb].
  cbn. split; [done|]. split.
  - rewrite !take_insert_lt by lia.
    apply swap_perm; rewrite lookup_take_lt by lia; done.
  - by rewrite !drop_insert_lt by lia.
Qed.

(** [Less] reads the two responses the nodes are ordered by. *)
Lemma Less_key (w : world respSet) a b x y :
  key w a = Some x -> key w b = Some y ->
  Less a b w = (Ret (less x y), w).
Proof.
  unfold key, top. intros Ha Hb.
  destruct (index (h w) a) as [ra|] eqn:Ea; [|done].
  destruct (store w !! ra) as [ca|] eqn:Eca; [|done].
  destruct (index (h w) b) as [rb|] eqn:Eb; [|done].
  destruct (store w !! rb) as [cb|] eqn:Ecb; [|done].
  assert (childAt a w = (Ret x, w)) as Ex.
  { unfold childAt. rewrite Ea, Eca. cbn [At respSet_ops].
    unfold respSet_At. by rewrite Ha. }
  assert (childAt b w = (Ret y, w)) as Ey.
  { unfold childAt. rewrite Eb, Ecb. cbn [At respSet_ops].
    unfold respSet_At. by rewrite Hb. }
  unfold Less, bind. rewrite Ex, Ey. unfold less.
  by destruct (GetSeries x), (GetSeries y).
Qed.

Lemma key_ok n (w : world respSet) p :
  ok_below n w -> 0 <= p < Z.of_nat n -> Z.of_nat n <= Len w ->
  exists x, key w p = Some x.
Proof.
  intros Hok Hp Hn.
  destruct (childAt_ok n w p Hok Hp Hn) as (r & c & x & Hr & Hc & Hx & _).
  exists x. unfold key, top. by rewrite Hr, Hc.
Qed.

Lemma heap_from_nil i0 n (w : world respSet) : h w = [] -> heap_from i0 n w.
Proof.
  intros Hh p c x y _ _ _ Hx. unfold key in Hx. rewrite Hh in Hx.
  unfold index in Hx. destruct (p <? 0); [done|].
  by rewrite lookup_nil in Hx.
Qed.

(** After [Swap] the two nodes are ordered by each other's response. *)
Lemma key_Swap (w w' : world respSet) a b :
  Swap a b w = (Ret tt, w') ->
  forall p, key w' p
            = key w (if p =? a then b else if p =? b then a else p).
Proof.
  unfold Swap. destruct (index (h w) a) as [ra|] eqn:Ea; [|done].
  destruct (index (h w) b) as [rb|] eqn:Eb; [|done].
  intros E p. injection E as <-.
  apply index_Some in Ea as [Ha0 Ea]. apply index_Some in Eb as [Hb0 Eb].
  unfold key.
  change (store (set_h (<[Z.to_nat b:=ra]> (<[Z.to_nat a:=rb]> (h w))) w))
    with (store w).
  change (h (set_h (<[Z.to_nat b:=ra]> (<[Z.to_nat a:=rb]> (h w))) w))
    with (<[Z.to_nat b:=ra]> (<[Z.to_nat a:=rb]> (h w))).
  assert (index (<[Z.to_nat b:=ra]> (<[Z.to_nat a:=rb]> (h w))) p
          = index (h w) (if p =? a then b else if p =? b then a else p))
    as ->; [|done].
  unfold index at 1. destruct (p <? 0) eqn:Ep.
  - apply Z.ltb_lt in Ep.
    destruct (Z.eqb_spec p a); [lia|]. destruct (Z.eqb_spec p b); [lia|].
    unfold index. by rewrite (proj2 (Z.ltb_lt _ _) Ep).
  - apply Z.ltb_ge in Ep. symmetry.
    destruct (Z.eqb_spec p b) as [->|Hpb].
    + rewrite list_lookup_insert_eq
        by (rewrite length_insert; by eapply lookup_lt_Some).
      destruct (Z.eqb_spec b a) as [->|Hba]; apply index_Some;
        (split; [lia|congruence]).
    + rewrite list_lookup_insert_ne by lia.
      destruct (Z.eqb_spec p a) as [->|Hpa].
      * rewrite list_lookup_insert_eq by (by eapply lookup_lt_Some).
        apply index_Some. by split.
      * rewrite list_lookup_insert_ne by lia.
        unfold index. by rewrite (proj2 (Z.ltb_ge _ _) Ep).
Qed.

(** [down] inside the first [n] nodes: it returns, permutes those
    nodes and touches neither the others nor a child; when the heap
    condition held but for the node that is sifted, it holds
    afterwards. *)
Lemma down_loop_ok fuel : forall i0 k n (w : world respSet),
  0 <= k -> n <= Len w -> ok_below (Z.to_nat n) w ->
  (Z.to_nat (n - k) < fuel)%nat ->
  exists b w',
    down_loop fuel i0 k n w = (Ret b, w') /\ store w' = store w /\
    take (Z.to_nat n) (h w') ≡ₚ take (Z.to_nat n) (h w) /\
    drop (Z.to_nat n) (h w') = drop (Z.to_nat n) (h w) /\
    (i0 <= k -> hole_at i0 k n w -> heap_from i0 n w').
Proof.
  induction fuel as [|f IH]; intros i0 k n w Hk Hn Hok Hf; [lia|].
  cbn [down_loop].
  destruct ((n <=? 2 * k + 1) || (2 * k + 1 <? 0)) eqn:E.
  { exists (i0 <? k), w. do 4 (split; [done|]).
    intros _ [Ha _] p c x y Hp Hc Hch Hx Hy.
    apply orb_true_iff in E as [E|E];
      [apply Z.leb_le in E|apply Z.ltb_lt in E; lia].
    destruct (decide (p = k)) as [->|Hpk].
    - unfold child_of in Hch. lia.
    - by eapply Ha. }
  apply orb_false_iff in E as [E1 E2].
  apply Z.leb_gt in E1. apply Z.ltb_ge in E2.
  assert (Z.of_nat (Z.to_nat n) <= Len w) as Hn' by lia.
  destruct (key_ok _ w k Hok) as [xk Hkk]; [lia|done|].
  assert (exists j xj,
            2 * k + 1 <= j < n /\ child_of k j /\ key w j = Some xj /\
            (forall c y, c < n -> child_of k c -> key w c = Some y ->
                         not_after xj y) /\
            (let* j := (if 2 * k + 1 + 1 <? n
                        then (let* b := Less (2 * k + 1 + 1) (2 * k + 1) in
                              ret (if (b : bool) then 2 * k + 1 + 1
                                   else 2 * k + 1))
                        else ret (2 * k + 1)) in
             let* b := Less j k in
             if (b : bool) then do* Swap k j in down_loop f i0 j n
             else ret (i0 <? k)) w
            = (let* b := Less j k in
               if (b : bool) then do* Swap k j in down_loop f i0 j n
               else ret (i0 <? k)) w)
    as (j & xj & Hj & Hcj & Hkj & Hmin & ->).
  { destruct (key_ok _ w (2 * k + 1) Hok) as [x1 H1]; [lia|done|].
    destruct (2 * k + 1 + 1 <? n) eqn:E3.
    - apply Z.ltb_lt in E3.
      destruct (key_ok _ w (2 * k + 1 + 1) Hok) as [x2 H2]; [lia|done|].
      destruct (less x2 x1) eqn:El.
      + exists (2 * k + 1 + 1), x2. split; [lia|]. split; [by right|].
        split; [done|]. split.
        * intros c y Hc [->| ->] Hy.
          -- assert (y = x1) as -> by congruence.
             by apply order_facts.less_asym.
          -- assert (y = x2) as -> by congruence.
             apply order_facts.less_irrefl.
        * unfold bind at 1 2.
          rewrite (Less_key w _ _ _ _ H2 H1), El. done.
      + exists (2 * k + 1), x1. split; [lia|]. split; [by left|].
        split; [done|]. split.
        * intros c y Hc [->| ->] Hy.
          -- assert (y = x1) as -> by congruence.
             apply order_facts.less_irrefl.
          -- assert (y = x2) as -> by congruence. exact El.
        * unfold bind at 1 2.
          rewrite (Less_key w _ _ _ _ H2 H1), El. done.
    - apply Z.ltb_ge in E3.
      exists (2 * k + 1), x1. split; [lia|]. split; [by left|].
      split; [done|]. split; [|done].
      intros c y Hc [->| ->] Hy; [|lia].
      assert (y = x1) as -> by congruence.
      apply order_facts.less_irrefl. }
  unfold bind at 1. rewrite (Less_key w j k xj xk Hkj Hkk).
  destruct (less xj xk) eqn:El.
  2: { exists (i0 <? k), w. do 4 (split; [done|]).
       intros _ [Ha _] p c x y Hp Hc Hch Hx Hy.
       destruct (decide (p = k)) as [->|Hpk].
       - assert (x = xk) as -> by congruence.
         eapply order_facts.not_after_trans; [exact El|].
         by eapply Hmin.
       - by eapply Ha. }
  destruct (Swap_ok (Z.to_nat n) w k j) as (w1 & Es & Hs1 & Hp1 & Hd1);
    [lia|lia|done|].
  pose proof (key_Swap w w1 k j Es) as Hkey.
  unfold bind at 1. rewrite Es.
  assert (length (h w1) = length (h w)) as Hlen.
  { rewrite <- (take_drop (Z.to_nat n) (h w1)),
      <- (take_drop (Z.to_nat n) (h w)), !length_app, Hd1.
    f_equal. by apply Permutation_length. }
  destruct (IH i0 j n w1) as (b & w' & E' & Hs' & Hp' & Hd' & Hord');
    [lia|..].
  - unfold Len, len in *. lia.
  - by eapply ok_below_transfer.
  - lia.
  - exists b, w'. split; [done|]. split; [congruence|].
    split; [by rewrite Hp'|]. split; [congruence|].
    intros Hi0 [Ha Hb]. apply Hord'; [lia|]. split.
    + intros p c x y Hp Hpj Hc Hch Hx Hy. rewrite Hkey in Hx, Hy.
      destruct (Z.eqb_spec p k) as [->|Hpk].
      * assert (x = xj) as -> by congruence.
        destruct (Z.eqb_spec c k) as [->|Hck];
          [unfold child_of in Hch; lia|].
        destruct (Z.eqb_spec c j) as [->|Hcj'].
        -- assert (y = xk) as -> by congruence.
           by apply order_facts.less_asym.
        -- by eapply Hmin.
      * destruct (Z.eqb_spec p j) as [->|_]; [done|].
        destruct (Z.eqb_spec c k) as [->|Hck].
        -- assert (y = xj) as -> by congruence.
           eapply (Hb p j); eauto; lia.
        -- destruct (Z.eqb_spec c j) as [->|Hcj'];
             [unfold child_of in *; lia|].
           by eapply Ha.
    + intros g c x y Hg Hgj Hc Hch Hx Hy. rewrite Hkey in Hx, Hy.
      assert (g = k) as -> by (unfold child_of in *; lia).
      rewrite Z.eqb_refl in Hx. assert (x = xj) as -> by congruence.
      destruct (Z.eqb_spec c k); [unfold child_of in *; lia|].
      destruct (Z.eqb_spec c j); [unfold child_of in *; lia|].
      eapply (Ha j c); eauto; lia.
Qed.

Lemma down_ok i0 n (w : world respSet) :
  0 <= i0 -> 0 <= n <= Len w -> ok_below (Z.to_nat n) w ->
  exists b w',
    down i0 n w = (Ret b, w') /\ store w' = store w /\
    take (Z.to_nat n) (h w') ≡ₚ take (Z.to_nat n) (h w) /\
    drop (Z.to_nat n) (h w') = drop (Z.to_nat n) (h w) /\
    (heap_from (i0 + 1) n w -> heap_from i0 n w').
Proof.
  intros H0 Hn Hok. unfold down.
  destruct (down_loop_ok (S (Z.to_nat n)) i0 i0 n w)
    as (b & w' & E & Hs & Hp & Hd & Hord); [done|lia|done|lia|].
  exists b, w'. do 4 (split; [done|]).
  intros Hh. apply Hord; [lia|]. split.
  - intros p c x y Hp' Hne. apply Hh. lia.
  - intros g c x y Hg Hch. unfold child_of in Hch. lia.
Qed.

(** At the root [up] has nothing to do. *)
Lemma up_root (w : world respSet) : up 0 w = (Ret tt, w).
Proof. reflexivity. Qed.

Lemma same_length (w w' : world respSet) n :
  take n (h w') ≡ₚ take n (h w) -> drop n (h w') = drop n (h w) ->
  h w' ≡ₚ h w.
Proof.
  intros Hp Hd.
  rewrite <- (take_drop n (h w')), <- (take_drop n (h w)), Hd.
  by f_equiv.
Qed.

(** [heap.Fix] at the root of a heap whose children all stand on a
    response. *)
Lemma heap_Fix_ok (w : world respSet) :
  ok_below (length (h w)) w ->
  exists w', heap_Fix 0 w = (Ret tt, w') /\ store w' = store w /\
             h w' ≡ₚ h w /\
             (heap_from 1 (Len w) w -> heap_from 0 (Len w') w').
Proof.
  intros Hok. unfold heap_Fix, bind at 1, get.
  destruct (down_ok 0 (Len w) w) as (b & w' & E & Hs & Hp & Hd & Hord);
    [done|unfold Len, len; lia|..].
  { unfold Len, len. by rewrite Nat2Z.id. }
  unfold bind. rewrite E.
  assert (h w' ≡ₚ h w) as Hperm by (by eapply same_length).
  exists w'. split; [by destruct b|]. split; [done|]. split; [done|].
  intros Hh. unfold Len, len. rewrite (Permutation_length Hperm).
  by apply Hord.
Qed.

Lemma index_inner {A} (a a' b b' : A) (mid : list A) (p : Z) :
  0 < p < Z.of_nat (S (length mid)) ->
  index (a :: mid ++ [b]) p = index (a' :: mid ++ [b']) p.
Proof.
  intros Hp. unfold index.
  destruct (p <? 0) eqn:E; [done|].
  destruct (Z.to_nat p) as [|q] eqn:Eq; [lia|].
  change ((mid ++ [b]) !! q = (mid ++ [b']) !! q).
  rewrite !lookup_app_l by lia. done.
Qed.

Lemma index_take {A} (l : list A) (n : nat) (p : Z) :
  p < Z.of_nat n -> index (take n l) p = index l p.
Proof.
  intros Hp. unfold index. destruct (p <? 0) eqn:E; [done|].
  apply Z.ltb_ge in E. rewrite lookup_take_lt by lia. done.
Qed.

(** [heap.Remove] at the root: the root is taken out, whatever its
    child stands on, when the other children stand on a response. *)
Lemma heap_Remove_ok (w : world respSet) min tl :
  h w = min :: tl ->
  (forall r, r ∈ tl -> exists c, store w !! r = Some c /\ positioned c) ->
  exists w', heap_Remove 0 w = (Ret min, w') /\ store w' = store w /\
             h w' ≡ₚ tl /\
             (heap_from 1 (Len w) w -> heap_from 0 (Len w') w').
Proof.
  intros Hh Htl. unfold heap_Remove, bind at 1, get.
  assert (Len w - 1 = len tl) as Hlen.
  { unfold Len, len. rewrite Hh. cbn [length]. lia. }
  rewrite Hlen.
  destruct (decide (tl = [])) as [->|Etl].
  { assert ((len (@nil ref) =? 0) = true) as -> by done. cbn [negb].
    unfold bind, ret, hPop, Len, len. rewrite Hh. cbn.
    eexists. split; [done|]. split; [done|]. split; [done|].
    intros _. by apply heap_from_nil. }
  assert ((len tl =? 0) = false) as ->.
  { apply Z.eqb_neq. unfold len. destruct tl; [done|]. cbn [length]. lia. }
  cbn [negb].
  assert (exists mid last, tl = mid ++ [last]) as (mid & last & Hml).
  { destruct (last tl) as [l|] eqn:El.
    - apply last_Some in El as [mid ->]. eauto.
    - apply last_None in El. congruence. }
  set (n := S (length mid)).
  assert (len tl = Z.of_nat n) as Hn.
  { unfold len. rewrite Hml, length_app. cbn [length]. lia. }
  rewrite Hn.
  (* the swap *)
  assert (Swap 0 (Z.of_nat n) w
          = (Ret tt, set_h (last :: mid ++ [min]) w)) as Es.
  { unfold Swap. rewrite Hh.
    assert (index (min :: tl) 0 = Some min) as -> by done.
    assert (index (min :: tl) (Z.of_nat n) = Some last) as ->.
    { apply index_Some. split; [lia|]. rewrite Nat2Z.id.
      subst n. rewrite Hml. cbn. by apply list_lookup_middle. }
    do 2 f_equal. rewrite Nat2Z.id. subst n. rewrite Hml.
    change (last :: <[length mid:=min]> (mid ++ [last])
            = last :: mid ++ [min]).
    f_equal. rewrite insert_app_r_alt by lia. by rewrite Nat.sub_diag. }
  unfold bind at 1 2. rewrite Es.
  set (w1 := set_h (last :: mid ++ [min]) w).
  assert (take n (h w1) = last :: mid) as Ht1.
  { cbn. f_equal. by rewrite take_app_length. }
  assert (drop n (h w1) = [min]) as Hd1.
  { cbn. by rewrite drop_app_length. }
  assert (last :: mid ≡ₚ tl) as Hperm.
  { rewrite Hml. by rewrite Permutation_app_comm. }
  destruct (down_ok 0 (Z.of_nat n) w1)
    as (b & w2 & Ed & Hs2 & Hp2 & Hd2 & Hord2); [done|..].
  { unfold Len, len. cbn. rewrite length_app. cbn. lia. }
  { rewrite Nat2Z.id. intros r Hr. rewrite Ht1, Hperm in Hr.
    by apply Htl. }
  rewrite Nat2Z.id in Hp2, Hd2.
  unfold bind at 1. rewrite Ed.
  assert ((if b then ret tt else up 0) w2 = (Ret tt, w2)) as ->
    by (by destruct b).
  assert (h w2 = take n (h w2) ++ [min]) as Hh2.
  { rewrite <- (take_drop n (h w2)) at 1. by rewrite Hd2, Hd1. }
  assert (length (take n (h w2)) = n) as Hl2.
  { rewrite (Permutation_length Hp2), Ht1. done. }
  exists (set_h (take n (h w2)) w2). split.
  - assert (length (h w2) = (n + 1)%nat) as Hlen2.
    { rewrite Hh2, length_app, Hl2. done. }
    unfold hPop, Len, len. rewrite Hlen2.
    replace (Z.of_nat (n + 1) - 1) with (Z.of_nat n) by lia.
    assert (index (h w2) (Z.of_nat n) = Some min) as ->.
    { apply index_Some. split; [lia|]. rewrite Nat2Z.id, Hh2.
      by apply list_lookup_middle. }
    by rewrite Nat2Z.id.
  - split; [done|]. split.
    { change (take n (h w2) ≡ₚ tl). by rewrite Hp2, Ht1. }
    intros Hfrom.
    assert (heap_from 0 (Z.of_nat n) w2) as H2.
    { apply Hord2. intros p c x y Hp Hc Hch Hx Hy.
      apply (Hfrom p c x y); [done| |done|..].
      - unfold Len, len. rewrite Hh. cbn [length]. unfold len in Hn. lia.
      - rewrite <- Hx. unfold key. rewrite Hh, Hml.
        change (h w1) with (last :: mid ++ [min]).
        change (store w1) with (store w).
        rewrite (index_inner min last last min mid p); [done|].
        unfold child_of in Hch. lia.
      - rewrite <- Hy. unfold key. rewrite Hh, Hml.
        change (h w1) with (last :: mid ++ [min]).
        change (store w1) with (store w).
        rewrite (index_inner min last last min mid c); [done|].
        unfold child_of in Hch. lia. }
    assert (Len (set_h (take n (h w2)) w2) = Z.of_nat n) as ->.
    { unfold Len, len. change (h (set_h (take n (h w2)) w2))
        with (take n (h w2)). by rewrite Hl2. }
    intros p c x y Hp Hc Hch Hx Hy.
    apply (H2 p c x y); try done.
    + rewrite <- Hx. unfold key.
      change (h (set_h (take n (h w2)) w2)) with (take n (h w2)).
      change (store (set_h (take n (h w2)) w2)) with (store w2).
      rewrite index_take; [done|]. unfold child_of in Hch. lia.
    + rewrite <- Hy. unfold key.
      change (h (set_h (take n (h w2)) w2)) with (take n (h w2)).
      change (store (set_h (take n (h w2)) w2)) with (store w2).
      rewrite index_take; [done|]. lia.
Qed.

Lemma rest_of_insert_ne st r r' c :
  r <> r' -> rest_of (<[r:=c]> st) r' = rest_of st r'.
Proof. intros Hne. unfold rest_of. by rewrite list_lookup_insert_ne. Qed.

Lemma bind_rest_of_insert st r c (l : list ref) :
  r ∉ l -> l ≫= rest_of (<[r:=c]> st) = l ≫= rest_of st.
Proof.
  induction l as [|x l IH]; intros Hr; [done|].
  apply not_elem_of_cons in Hr as [Hx Hl]. cbn.
  rewrite rest_of_insert_ne by done. by rewrite IH.
Qed.

(** Advancing the child at the root leaves the other nodes ordered by
    the responses they were ordered by. *)
Lemma key_advance (w : world respSet) min tl c' p :
  h w = min :: tl -> min ∉ tl -> p <> 0 ->
  key (set_store (<[min:=c']> (store w)) w) p = key w p.
Proof.
  intros Hh Hmin Hp. unfold key.
  change (h (set_store (<[min:=c']> (store w)) w)) with (h w).
  change (store (set_store (<[min:=c']> (store w)) w))
    with (<[min:=c']> (store w)).
  destruct (index (h w) p) as [r|] eqn:E; [|done].
  unfold top. rewrite list_lookup_insert_ne; [done|].
  intros <-. apply index_Some in E as [Hp0 E]. rewrite Hh in E.
  destruct (Z.to_nat p) as [|q] eqn:Eq; [lia|]. cbn in E.
  apply list_elem_of_lookup_2 in E. done.
Qed.

(** In a heap the root is ordered before every node. *)
Lemma root_le (w : world respSet) n x :
  heap_from 0 n w -> key w 0 = Some x ->
  (forall q, 0 <= q < n -> is_Some (key w q)) ->
  forall (m : nat) p kp,
    (Z.to_nat p < m)%nat -> 0 <= p < n -> key w p = Some kp ->
    not_after x kp.
Proof.
  intros Hfrom Hx Hall. induction m as [|m IH]; intros p kp Hm Hp Hkp;
    [lia|].
  destruct (decide (p = 0)) as [->|Hp0].
  - assert (kp = x) as -> by congruence. apply order_facts.less_irrefl.
  - set (g := (p - 1) / 2).
    assert (child_of g p) as Hch.
    { unfold child_of, g. Z.div_mod_to_equations. lia. }
    assert (0 <= g < p) as Hg.
    { unfold g. Z.div_mod_to_equations. lia. }
    destruct (Hall g) as [kg Hkg]; [lia|].
    eapply order_facts.not_after_trans.
    + apply (IH g kg); [lia|lia|done].
    + apply (Hfrom g p kg kp); try done; lia.
Qed.

(** In a heap whose children give their responses in order, no
    response still to come is less than the one at the root. *)
Lemma root_least (w : world respSet) x :
  live w -> heap_from 0 (Len w) w -> sorted_rest w ->
  key w 0 = Some x ->
  forall y, y ∈ remaining w -> not_after x y.
Proof.
  intros [Hnd Hok] Hfrom Hsorted Hx y Hy.
  assert (forall q, 0 <= q < Len w -> is_Some (key w q)) as Hall.
  { intros q Hq. destruct (key_ok (length (h w)) w q Hok) as [kq Hkq];
      [done|done|]. by exists kq. }
  unfold remaining in Hy. apply list_elem_of_bind in Hy as (r & Hy & Hr).
  pose proof Hr as Hr'. apply list_elem_of_lookup in Hr' as [q Hq].
  destruct (Hok r) as (c & Hc & Hpos); [by rewrite firstn_all|].
  destruct (index_lt (responses c) (heap.i c) Hpos) as [t Ht].
  assert (key w (Z.of_nat q) = Some t) as Hkq.
  { unfold key.
    assert (index (h w) (Z.of_nat q) = Some r) as ->.
    { apply index_Some. split; [lia|]. by rewrite Nat2Z.id. }
    unfold top. by rewrite Hc. }
  assert (not_after x t) as Hxt.
  { apply (root_le w (Len w) x Hfrom Hx Hall (S q) (Z.of_nat q) t);
      [lia| |done].
    apply lookup_lt_Some in Hq. unfold Len, len. lia. }
  pose proof (Hsorted r Hr) as Hs.
  unfold rest_of in Hy, Hs. rewrite Hc in Hy, Hs.
  apply index_Some in Ht as [Hi Ht].
  rewrite (drop_S _ _ _ Ht) in Hy, Hs.
  apply elem_of_cons in Hy as [->|Hy]; [done|].
  apply StronglySorted_cons in Hs as [Hs _].
  rewrite list.Forall_forall in Hs.
  eapply order_facts.not_after_trans; [exact Hxt|].
  by apply Hs.
Qed.

(** [At] on a heap whose children all stand on a response: it hands
    out the response under the cursor of the root, advances that child
    and no other, and leaves a heap of the same kind that holds what the
    children have still to give.  On an ordered heap no response still
    to come is less than the one handed out, and the heap stays
    ordered. *)
Lemma hAt_ok (w : world respSet) :
  live w -> h w <> [] ->
  exists x w',
    hAt w = (Ret x, w') /\ live w' /\
    remaining w ≡ₚ x :: remaining w' /\
    (exists min c, h w !! 0%nat = Some min /\ store w !! min = Some c /\
       index (responses c) (heap.i c) = Some x /\
       store w' = <[min := mkRespSet (responses c) (heap.i c + 1)]>
                    (store w)) /\
    (ordered w ->
     ordered w' /\ forall y, y ∈ remaining w -> not_after x y).
Proof.
  intros Hlive Hne. pose proof Hlive as [Hnd Hok].
  assert (exists min tl, h w = min :: tl) as (min & tl & Hh)
    by (destruct (h w); [done|eauto]).
  clear Hne.
  assert (Len w = Z.of_nat (length (h w))) as HLen by done.
  destruct (childAt_ok (length (h w)) w 0 Hok)
    as (r & c & x & Hr & Hc & Hx & Eat);
    [rewrite Hh; cbn [length]; lia|lia|].
  assert (r = min) as ->.
  { pose proof Hr as Hr'. apply index_Some in Hr' as [_ Hr'].
    rewrite Hh in Hr'. by injection Hr'. }
  assert (key w 0 = Some x) as Hkey0.
  { unfold key, top. by rewrite Hr, Hc. }
  unfold hAt, bind at 1, get. rewrite Hr.
  unfold bind at 1. rewrite Eat.
  unfold bind at 1, childNext. rewrite Hc.
  cbn [Next respSet_ops respSet_Next responses heap.i].
  set (c' := mkRespSet (responses c) (heap.i c + 1)).
  set (w1 := set_store (<[min:=c']> (store w)) w).
  rewrite Hh in Hnd. apply NoDup_cons in Hnd as [Hmin Hnd].
  assert (forall r, r ∈ tl ->
            exists c0, store w1 !! r = Some c0 /\ positioned c0) as Htl.
  { intros r Hr'. destruct (Hok r) as (c0 & Hc0 & Hp0).
    { rewrite Hh, firstn_all. by right. }
    exists c0. split; [|done]. cbn.
    rewrite list_lookup_insert_ne; [done|]. intros ->. done. }
  assert (rest_of (store w) min = x :: rest_of (store w1) min) as Hrest.
  { unfold rest_of. rewrite Hc. cbn.
    rewrite list_lookup_insert_eq by (by eapply lookup_lt_Some).
    cbn. apply index_Some in Hx as [Hi Hx].
    rewrite (drop_S _ _ _ Hx). do 2 f_equal. lia. }
  assert (remaining w = x :: rest_of (store w1) min
                          ++ (tl ≫= rest_of (store w1))) as Hrem.
  { unfold remaining. rewrite Hh. cbn [mbind list_bind].
    change (rest_of (store w) min ++ (tl ≫= rest_of (store w))
            = x :: rest_of (store w1) min ++ (tl ≫= rest_of (store w1))).
    rewrite Hrest. cbn. by rewrite bind_rest_of_insert. }
  assert (heap_from 0 (Len w) w -> heap_from 1 (Len w1) w1) as Hfrom1.
  { intros Hfrom p q kp kq Hp Hq Hch Hkp Hkq.
    unfold w1 in Hkp, Hkq.
    rewrite (key_advance w min tl c' p Hh Hmin) in Hkp by lia.
    rewrite (key_advance w min tl c' q Hh Hmin) in Hkq
      by (unfold child_of in Hch; lia).
    apply (Hfrom p q kp kq); try done. lia. }
  assert (sorted_rest w ->
          forall r, r ∈ min :: tl ->
            StronglySorted not_after (rest_of (store w1) r)) as Hsorted1.
  { intros Hs r Hr'. apply elem_of_cons in Hr' as [->|Hr'].
    - pose proof (Hs min) as Hm. rewrite Hrest in Hm.
      apply StronglySorted_cons in Hm as [_ Hm]; [done|].
      rewrite Hh. by left.
    - unfold w1. cbn [store set_store].
      rewrite rest_of_insert_ne by (intros ->; done).
      apply Hs. rewrite Hh. by right. }
  destruct (heap.i c + 1 <? len (responses c)) eqn:Emore.
  - apply Z.ltb_lt in Emore.
    assert (ok_below (length (h w1)) w1) as Hok1.
    { intros r Hr'. rewrite firstn_all in Hr'. cbn in Hr'. rewrite Hh in Hr'.
      apply elem_of_cons in Hr' as [->|Hr']; [|by apply Htl].
      exists c'. split.
      - cbn. by rewrite list_lookup_insert_eq by (by eapply lookup_lt_Some).
      - unfold positioned. cbn. apply index_Some in Hx. lia. }
    destruct (heap_Fix_ok w1 Hok1) as (w' & Ef & Hs & Hp & Hord).
    unfold bind at 1. rewrite Ef. exists x, w'. split; [done|].
    assert (live w') as Hlive'.
    { split; [rewrite Hp; cbn; rewrite Hh; by apply NoDup_cons|].
      apply (ok_below_transfer _ w1 w' Hs).
      * rewrite firstn_all, (Permutation_length Hp), firstn_all. exact Hp.
      * by rewrite (Permutation_length Hp). }
    split; [done|]. split; [|split].
    + rewrite Hrem. unfold remaining. rewrite Hs, Hp. cbn. by rewrite Hh.
    + exists min, c. by rewrite Hs.
    + intros (_ & Hfrom & Hsorted). split.
      * split; [done|]. split; [by apply Hord, Hfrom1|].
        intros r Hr'. rewrite Hs. apply Hsorted1; [done|].
        rewrite Hp in Hr'. cbn in Hr'. by rewrite Hh in Hr'.
      * by apply root_least.
  - apply Z.ltb_ge in Emore.
    destruct (heap_Remove_ok w1 min tl) as (w' & Er & Hs & Hp & Hord);
      [by cbn|done|].
    unfold bind at 1 2. rewrite Er. exists x, w'. split; [done|].
    assert (live w') as Hlive'.
    { split; [by rewrite Hp|].
      intros r Hr'. rewrite firstn_all, Hp in Hr'. rewrite Hs.
      by apply Htl. }
    split; [done|]. split; [|split].
    + rewrite Hrem. unfold remaining. rewrite Hs, Hp.
      assert (rest_of (store w1) min = []) as ->; [|done].
      unfold rest_of. cbn.
      rewrite list_lookup_insert_eq by (by eapply lookup_lt_Some).
      cbn. apply drop_ge. unfold len in Emore. lia.
    + exists min, c. by rewrite Hs.
    + intros (_ & Hfrom & Hsorted). split.
      * split; [done|]. split; [by apply Hord, Hfrom1|].
        intros r Hr'. rewrite Hs. apply Hsorted1; [done|].
        rewrite Hp in Hr'. by right.
      * by apply root_least.
Qed.

Lemma live_remaining w : live w -> (length (h w) <= length (remaining w))%nat.
Proof.
  intros [_ Hall].
  assert (forall r, r ∈ h w ->
            exists c, store w !! r = Some c /\ positioned c) as Hok.
  { intros r Hr. apply Hall. by rewrite firstn_all. }
  clear Hall. unfold remaining. revert Hok. generalize (store w). intros st.
  induction (h w) as [|r l IH]; intros Hok; [done|].
  cbn. rewrite length_app.
  destruct (Hok r) as (c & Hc & Hp); [by left|].
  assert (0 < length (rest_of st r))%nat.
  { unfold rest_of. rewrite Hc, length_drop. unfold positioned, len in Hp.
    lia. }
  assert (length l <= length (l ≫= rest_of st))%nat.
  { apply IH. intros r' Hr'. apply Hok. by right. }
  change (S (length l) <= length (rest_of st r) + length (l ≫= rest_of st))%nat.
  lia.
Qed.

Lemma nextAll_ok rounds : forall w,
  live w -> (length (remaining w) <= rounds)%nat ->
  exists out w',
    scenarios.nextAll rounds w = (Ret out, w') /\
    out ≡ₚ remaining w /\ h w' = [] /\
    (ordered w -> StronglySorted not_after out).
Proof.
  induction rounds as [|k IH]; intros w Hlive Hr.
  - pose proof (live_remaining w Hlive).
    assert (h w = []) as Hh by (destruct (h w); [done|cbn in *; lia]).
    exists [], w. split; [done|]. split; [|split; [done|constructor]].
    unfold remaining. by rewrite Hh.
  - cbn [scenarios.nextAll]. unfold hNext, Empty, Len, len.
    destruct (h w) as [|min tl] eqn:Hh.
    + exists [], w. cbn. split; [done|].
      split; [|split; [done|constructor]].
      unfold remaining. by rewrite Hh.
    + cbn [length]. rewrite Nat2Z.inj_succ.
      assert ((Z.succ (Z.of_nat (length tl)) =? 0) = false) as ->
        by (apply Z.eqb_neq; lia).
      cbn [negb].
      destruct (hAt_ok w Hlive) as (x & w1 & Eat & Hl1 & Hrem & _ & Hord);
        [by rewrite Hh|].
      rewrite Eat.
      destruct (IH w1 Hl1) as (out & w' & En & Hout & Hh' & Hs').
      { apply Permutation_length in Hrem. cbn in Hrem. lia. }
      rewrite En. exists (x :: out), w'. split; [done|].
      split; [by rewrite Hrem, Hout|]. split; [done|].
      intros Ho. destruct (Hord Ho) as [Ho1 Hleast].
      apply StronglySorted_cons. split; [|by apply Hs'].
      apply list.Forall_forall. intros y Hy. apply Hleast.
      rewrite Hrem. right. by rewrite <- Hout.
Qed.

End heap_facts.

Module heap_build.

Import heap heap_spec heap_order.

Lemma forM_Push (refs : list ref) : forall (w : world respSet),
  forM refs Push w = (Ret tt, set_h (h w ++ refs) w).
Proof.
  induction refs as [|r refs IH]; intros w.
  - cbn. unfold ret. destruct w. cbn. by rewrite app_nil_r.
  - cbn [forM]. unfold bind, Push at 1, modify. rewrite IH. cbn.
    by rewrite <- app_assoc.
Qed.

(** The pass of [heap.Init]: [down] from position [q-1-a] back to the
    root, over a heap whose children all stand on a response. *)
Lemma downs_ok (m : nat) : forall a q (w : world respSet),
  0 <= a -> a + Z.of_nat m = q ->
  ok_below (length (h w)) w ->
  exists w',
    forM (map (fun k => q - 1 - k) (zrange a m))
      (fun k => do* down k (Z.of_nat (length (h w))) in ret tt) w
    = (Ret tt, w') /\
    store w' = store w /\ h w' ≡ₚ h w /\
    (heap_from (q - a) (Len w) w -> heap_from 0 (Len w') w').
Proof.
  induction m as [|m IH]; intros a q w Ha Hq Hok.
  - exists w. do 3 (split; [done|]).
    by replace (q - a) with 0 by lia.
  - cbn [zrange map forM].
    destruct (heap_facts.down_ok (q - 1 - a) (Z.of_nat (length (h w))) w)
      as (b & w1 & Ed & Hs1 & Hp1 & Hd1 & Hord1).
    { lia. }
    { unfold Len, len. lia. }
    { by rewrite Nat2Z.id. }
    rewrite Nat2Z.id in Hp1, Hd1.
    pose proof (heap_facts.same_length w w1 _ Hp1 Hd1) as Hp.
    unfold bind at 1 2. rewrite Ed. cbn [ret].
    rewrite <- (Permutation_length Hp).
    destruct (IH (a + 1) q w1) as (w' & E' & Hs' & Hp' & Hord'); [lia|lia|..].
    { apply (heap_facts.ok_below_transfer _ w w1 Hs1).
      - rewrite firstn_all, (Permutation_length Hp), firstn_all. exact Hp.
      - by rewrite (Permutation_length Hp). }
    exists w'. split; [exact E'|]. split; [congruence|].
    split; [by rewrite Hp'|].
    intros Hfrom. apply Hord'.
    replace (q - (a + 1)) with (q - 1 - a) by lia.
    unfold Len, len. rewrite (Permutation_length Hp).
    apply Hord1. by replace (q - 1 - a + 1) with (q - a) by lia.
Qed.

Lemma heap_Init_ok (w : world respSet) :
  ok_below (length (h w)) w ->
  exists w', heap_Init w = (Ret tt, w') /\ store w' = store w /\
             h w' ≡ₚ h w /\ heap_from 0 (Len w') w'.
Proof.
  intros Hok. unfold heap_Init, bind at 1, get.
  assert (0 <= Z.quot (Len w) 2) as Hq.
  { apply Z.quot_pos; [unfold Len, len|]; lia. }
  destruct (downs_ok (Z.to_nat (Z.quot (Len w) 2)) 0 (Z.quot (Len w) 2) w)
    as (w' & E & Hs & Hp & Hord); [done|lia|done|].
  exists w'. split; [exact E|]. split; [done|]. split; [done|].
  apply Hord. intros p c x y Hp' Hc Hch _ _. exfalso.
  rewrite Z.quot_div_nonneg in Hp' by (unfold Len, len; lia).
  unfold child_of in Hch. Z.div_mod_to_equations. lia.
Qed.

(** [NewProxyResponseHeap] over distinct children that stand on a
    response. *)
Lemma NewProxyResponseHeap_ok (st : list respSet) (refs : list ref) :
  NoDup refs ->
  (forall r, r ∈ refs -> exists c, st !! r = Some c /\ positioned c) ->
  exists w,
    NewProxyResponseHeap st refs = (Ret tt, w) /\
    store w = st /\ h w ≡ₚ refs /\ live w /\
    remaining w ≡ₚ refs ≫= rest_of st /\
    heap_from 0 (Len w) w.
Proof.
  intros Hnd Hall. unfold NewProxyResponseHeap, bind.
  rewrite forM_Push. cbn [h set_h app].
  set (w0 := set_h refs (mkWorld st [])).
  destruct (heap_Init_ok w0) as (w & Ei & Hs & Hp & Hfrom).
  { intros r Hr. rewrite firstn_all in Hr. by apply Hall. }
  exists w. split; [exact Ei|]. split; [done|]. split; [done|].
  split; [|split; [|done]].
  - split; [by rewrite Hp|].
    intros r Hr. rewrite firstn_all, Hp in Hr. rewrite Hs. by apply Hall.
  - unfold remaining. by rewrite Hs, Hp.
Qed.

(** Discharges [StronglySorted] on a list of responses given in
    full. *)
Ltac in_order :=
  match goal with
  | |- StronglySorted _ ?l =>
      let l' := eval vm_compute in l in change l with l'
  end;
  repeat first
    [ apply SSorted_nil | apply SSorted_cons
    | apply List.Forall_nil | apply List.Forall_cons
    | (vm_compute; reflexivity) ].

(** Discharges [live] and the like on a heap given in full. *)
Ltac stands_on_a_response :=
  eexists; split; [reflexivity|]; unfold positioned; vm_compute;
  split; [discriminate|reflexivity].

Ltac on_members :=
  let r := fresh "r" in
  let Hmem := fresh "Hmem" in
  let Heq := fresh "Heq" in
  intros r Hmem; vm_compute in Hmem;
  repeat (apply elem_of_cons in Hmem; destruct Hmem as [Heq|Hmem];
          [rewrite Heq; stands_on_a_response|]);
  by apply elem_of_nil in Hmem.

Ltac no_dup := apply (bool_decide_unpack _); vm_compute; exact I.

Ltac is_live := split; [no_dup|on_members].

End heap_build.

(** X11.  From a heap in which no child occurs twice and every child
    stands on a response, the consumer loop [for h.Next() { h.At() }]
    never panics and gives every response the children have still to
    give, each exactly once; it ends with an empty heap. *)
Theorem heap_gives_every_response
  (w : heap.world heap.respSet) (rounds : nat) :
  heap_spec.live w ->
  (length (heap_spec.remaining w) <= rounds)%nat ->
  exists out w',
    scenarios.nextAll rounds w = (Ret out, w') /\
    out ≡ₚ heap_spec.remaining w /\
    heap.h w' = [].
Proof.
  intros Hl Hr.
  destruct (heap_facts.nextAll_ok rounds w Hl Hr)
    as (out & w' & E & Hout & Hh & _).
  by exists out, w'.
Qed.

Lemma heap_gives_every_response_witness :
  exists out w',
    scenarios.nextAll 2 (snd scenarios.heap2) = (Ret out, w') /\
    out ≡ₚ heap_spec.remaining (snd scenarios.heap2) /\
    heap.h w' = [].
Proof.
  apply (heap_gives_every_response (snd scenarios.heap2) 2).
  - heap_build.is_live.
  - vm_compute. lia.
Defined.

(** X12.  [NewProxyResponseHeap] over distinct children that all stand
    on a response returns without a panic; it advances no child, and the
    heap holds exactly the given children. *)
Theorem heap_construction_keeps_the_children
  (st : list heap.respSet) (refs : list ref) :
  NoDup refs ->
  (forall r, r ∈ refs ->
     exists c, st !! r = Some c /\ heap_spec.positioned c) ->
  exists w,
    heap.NewProxyResponseHeap st refs = (Ret tt, w) /\
    heap.store w = st /\ heap.h w ≡ₚ refs /\ heap_spec.live w /\
    heap_spec.remaining w ≡ₚ refs ≫= heap_spec.rest_of st.
Proof.
  intros Hnd Hall.
  destruct (heap_build.NewProxyResponseHeap_ok st refs Hnd Hall)
    as (w & E & Hs & Hp & Hlive & Hrem & _).
  by exists w.
Qed.

Lemma heap_construction_keeps_the_children_witness :
  exists w,
    heap.NewProxyResponseHeap
      [scenarios.singleResp "baa"; scenarios.singleResp "bab"]
      [0%nat; 1%nat] = (Ret tt, w) /\
    heap.store w = [scenarios.singleResp "baa"; scenarios.singleResp "bab"] /\
    heap.h w ≡ₚ [0%nat; 1%nat] /\ heap_spec.live w /\
    heap_spec.remaining w
    ≡ₚ [0%nat; 1%nat]
       ≫= heap_spec.rest_of
            [scenarios.singleResp "baa"; scenarios.singleResp "bab"].
Proof.
  apply (heap_construction_keeps_the_children
           [scenarios.singleResp "baa"; scenarios.singleResp "bab"]
           [0%nat; 1%nat]).
  - heap_build.no_dup.
  - heap_build.on_members.
Defined.

(** X13.  On a heap in which no child occurs twice and every child
    stands on a response, [At] returns the response under the cursor of
    the child at the root, advances that child by one and touches no
    other child; the heap it leaves is of the same kind and holds what
    is still to come. *)
Theorem At_takes_from_the_root (w : heap.world heap.respSet) :
  heap_spec.live w -> heap.h w <> [] ->
  exists x w' min c,
    heap.hAt w = (Ret x, w') /\
    heap.h w !! 0%nat = Some min /\ heap.store w !! min = Some c /\
    heap.respSet_At c = Ret x /\
    heap.store w'
    = <[min := heap.mkRespSet (heap.responses c) (heap.i c + 1)]>
        (heap.store w) /\
    heap_spec.live w' /\
    heap_spec.remaining w ≡ₚ x :: heap_spec.remaining w'.
Proof.
  intros Hl Hne.
  destruct (heap_facts.hAt_ok w Hl Hne)
    as (x & w' & E & Hl' & Hrem & (min & c & Hm & Hc & Hx & Hs) & _).
  exists x, w', min, c. repeat split; try done.
  - unfold heap.respSet_At. by rewrite Hx.
  - by destruct Hl'.
  - by destruct Hl'.
Qed.

Lemma At_takes_from_the_root_witness :
  exists x w' min c,
    heap.hAt (snd scenarios.heap2) = (Ret x, w') /\
    heap.h (snd scenarios.heap2) !! 0%nat = Some min /\
    heap.store (snd scenarios.heap2) !! min = Some c /\
    heap.respSet_At c = Ret x /\
    heap.store w'
    = <[min := heap.mkRespSet (heap.responses c) (heap.i c + 1)]>
        (heap.store (snd scenarios.heap2)) /\
    heap_spec.live w' /\
    heap_spec.remaining (snd scenarios.heap2)
    ≡ₚ x :: heap_spec.remaining w'.
Proof.
  apply (At_takes_from_the_root (snd scenarios.heap2)).
  - heap_build.is_live.
  - vm_compute. discriminate.
Defined.

(** X14.  The heap does not look at a child before it is at the root:
    a heap built over one child is built without a panic whatever the
    child stands on, and when the child at the root stands on no
    response [Next] still answers true and [At] panics with an index
    out of range, leaving the heap as it was. *)
Theorem exhausted_root_panics
  (w : heap.world heap.respSet) (min : ref) (c : heap.respSet) :
  heap.h w !! 0%nat = Some min -> heap.store w !! min = Some c ->
  ~ heap_spec.positioned c ->
  heap.hNext w = (Ret true, w) /\
  heap.hAt w = (Panic index_out_of_range, w) /\
  heap.NewProxyResponseHeap (heap.store w) [min]
  = (Ret tt, heap.mkWorld (heap.store w) [min]).
Proof.
  intros Hm Hc Hnp. split; [|split].
  - unfold heap.hNext, heap.Empty, heap.Len, len.
    destruct (heap.h w); [done|]. done.
  - unfold heap.hAt, bind at 1, get.
    assert (index (heap.h w) 0 = Some min) as -> by done.
    unfold bind at 1, heap.childAt.
    assert (index (heap.h w) 0 = Some min) as -> by done.
    rewrite Hc. cbn [heap.At heap.respSet_ops]. unfold heap.respSet_At.
    destruct (index (heap.responses c) (heap.i c)) as [x|] eqn:Ex; [|done].
    exfalso. apply Hnp. apply heap_facts.index_Some in Ex as [H0 Hx].
    apply lookup_lt_Some in Hx. unfold heap_spec.positioned, len. lia.
  - reflexivity.
Qed.

Lemma exhausted_root_panics_witness :
  heap.hNext (heap.mkWorld [heap.mkRespSet [] 0] [0%nat])
  = (Ret true, heap.mkWorld [heap.mkRespSet [] 0] [0%nat]) /\
  heap.hAt (heap.mkWorld [heap.mkRespSet [] 0] [0%nat])
  = (Panic index_out_of_range,
     heap.mkWorld [heap.mkRespSet [] 0] [0%nat]) /\
  heap.NewProxyResponseHeap [heap.mkRespSet [] 0] [0%nat]
  = (Ret tt, heap.mkWorld [heap.mkRespSet [] 0] [0%nat]).
Proof.
  apply (exhausted_root_panics
           (heap.mkWorld [heap.mkRespSet [] 0] [0%nat]) 0%nat
           (heap.mkRespSet [] 0)).
  - reflexivity.
  - reflexivity.
  - unfold heap_spec.positioned. vm_compute. intros [_ H]. discriminate.
Defined.

(** X15.  The heap merges: built over distinct children that stand on a
    response and give their responses in the order of [Less], it is
    ordered, and the consumer loop returns all their responses, each
    once, in that order. *)
Theorem heap_merges_in_order
  (st : list heap.respSet) (refs : list ref) :
  NoDup refs ->
  (forall r, r ∈ refs ->
     exists c, st !! r = Some c /\ heap_spec.positioned c /\
               StronglySorted heap_order.not_after
                 (heap_spec.rest_of st r)) ->
  exists w out w',
    heap.NewProxyResponseHeap st refs = (Ret tt, w) /\
    heap_order.ordered w /\
    scenarios.nextAll (length (refs ≫= heap_spec.rest_of st)) w
    = (Ret out, w') /\
    out ≡ₚ refs ≫= heap_spec.rest_of st /\
    StronglySorted heap_order.not_after out.
Proof.
  intros Hnd Hall.
  destruct (heap_build.NewProxyResponseHeap_ok st refs Hnd)
    as (w & E & Hs & Hp & Hlive & Hrem & Hfrom).
  { intros r Hr. destruct (Hall r Hr) as (c & Hc & Hpos & _). eauto. }
  assert (heap_order.ordered w) as Hord.
  { split; [done|]. split; [done|].
    intros r Hr. rewrite Hs. rewrite Hp in Hr.
    by destruct (Hall r Hr) as (c & _ & _ & Hsorted). }
  destruct (heap_facts.nextAll_ok
              (length (refs ≫= heap_spec.rest_of st)) w Hlive)
    as (out & w' & En & Hout & _ & Hsorted).
  { by rewrite (Permutation_length Hrem). }
  exists w, out, w'. split; [done|]. split; [done|]. split; [done|].
  split; [by rewrite Hout|]. by apply Hsorted.
Qed.

Lemma heap_merges_in_order_witness :
  exists w out w',
    heap.NewProxyResponseHeap heap_scenarios.interleaved [0%nat; 1%nat]
    = (Ret tt, w) /\
    heap_order.ordered w /\
    scenarios.nextAll
      (length ([0%nat; 1%nat]
               ≫= heap_spec.rest_of heap_scenarios.interleaved)) w
    = (Ret out, w') /\
    out ≡ₚ [0%nat; 1%nat] ≫= heap_spec.rest_of heap_scenarios.interleaved /\
    StronglySorted heap_order.not_after out.
Proof.
  apply (heap_merges_in_order heap_scenarios.interleaved [0%nat; 1%nat]).
  - heap_build.no_dup.
  - intros r Hr.
    apply elem_of_cons in Hr; destruct Hr as [Hr|Hr].
    { rewrite Hr. eexists. split; [reflexivity|]. split.
      - vm_compute. split; [discriminate|reflexivity].
      - heap_build.in_order. }
    apply elem_of_cons in Hr; destruct Hr as [Hr|Hr].
    { rewrite Hr. eexists. split; [reflexivity|]. split.
      - vm_compute. split; [discriminate|reflexivity].
      - heap_build.in_order. }
    by apply elem_of_nil in Hr.
Defined.

(** X16.  [Less] compares the responses under the cursors of the two
    nodes and changes nothing; the comparison is a strict weak order:
    no response is less than itself, two responses are never less than
    each other, "not less" is transitive, and a response without a
    series is less than every response with one. *)
Theorem Less_is_a_strict_weak_order
  (w : heap.world heap.respSet) (a b c : Z) (x y z : SeriesResponse) :
  heap_order.key w a = Some x ->
  heap_order.key w b = Some y ->
  heap_order.key w c = Some z ->
  heap.Less a b w = (Ret (heap_order.less x y), w) /\
  heap.Less a a w = (Ret false, w) /\
  (heap_order.less x y = true -> heap.Less b a w = (Ret false, w)) /\
  (heap_order.less x y = false -> heap_order.less y z = false ->
   heap.Less a c w = (Ret false, w)) /\
  (GetSeries x = None -> GetSeries y <> None ->
   heap.Less a b w = (Ret true, w)).
Proof.
  intros Ha Hb Hc. split; [by apply heap_facts.Less_key|].
  split; [|split; [|split]].
  - rewrite (heap_facts.Less_key w a a x x Ha Ha).
    by rewrite order_facts.less_irrefl.
  - intros Hxy. rewrite (heap_facts.Less_key w b a y x Hb Ha).
    by rewrite (order_facts.less_asym x y Hxy).
  - intros Hxy Hyz. rewrite (heap_facts.Less_key w a c x z Ha Hc).
    by rewrite (order_facts.not_after_trans z y x Hyz Hxy).
  - intros Hx Hy. rewrite (heap_facts.Less_key w a b x y Ha Hb).
    unfold heap_order.less. rewrite Hx. by destruct (GetSeries y).
Qed.

Lemma Less_is_a_strict_weak_order_witness :
  heap.Less 0 1 (snd scenarios.heap2)
  = (Ret (heap_order.less
            (SeriesFrame (mkSeries (FromStrings "test" "baa") []))
            (SeriesFrame (mkSeries (FromStrings "test" "bab") []))),
     snd scenarios.heap2).
Proof.
  refine (proj1 (Less_is_a_strict_weak_order (snd scenarios.heap2) 0 1 0
                   (SeriesFrame (mkSeries (FromStrings "test" "baa") []))
                   (SeriesFrame (mkSeries (FromStrings "test" "bab") []))
                   (SeriesFrame (mkSeries (FromStrings "test" "baa") []))
                   _ _ _)).
  - vm_compute. reflexivity.
  - vm_compute. reflexivity.
  - vm_compute. reflexivity.
Defined.

(** X17.  On an ordered heap [At] hands out a least response: none of
    the responses still to come is less than it; and the heap it leaves
    is ordered again. *)
Theorem At_gives_a_least_response (w : heap.world heap.respSet) :
  heap_order.ordered w -> heap.h w <> [] ->
  exists x w',
    heap.hAt w = (Ret x, w') /\
    heap_order.ordered w' /\
    forall y, y ∈ heap_spec.remaining w -> heap_order.less y x = false.
Proof.
  intros Hord Hne. pose proof Hord as [Hlive _].
  destruct (heap_facts.hAt_ok w Hlive Hne)
    as (x & w' & E & _ & _ & _ & Hafter).
  destruct (Hafter Hord) as [Hord' Hleast].
  exists x, w'. split; [done|]. split; [done|].
  intros y Hy. by apply Hleast.
Qed.

Lemma At_gives_a_least_response_witness :
  exists x w',
    heap.hAt (heap.mkWorld heap_scenarios.interleaved [0%nat; 1%nat])
    = (Ret x, w') /\
    heap_order.ordered w' /\
    forall y,
      y ∈ heap_spec.remaining
            (heap.mkWorld heap_scenarios.interleaved [0%nat; 1%nat]) ->
      heap_order.less y x = false.
Proof.
  apply (At_gives_a_least_response
           (heap.mkWorld heap_scenarios.interleaved [0%nat; 1%nat])).
  - split; [heap_build.is_live|]. split.
    + intros p c x y Hp Hc Hch Hx Hy.
      change (c < 2) in Hc. unfold heap_order.child_of in Hch.
      assert (p = 0) as -> by lia. assert (c = 1) as -> by lia.
      vm_compute in Hx, Hy.
      injection Hx as <-. injection Hy as <-. reflexivity.
    + intros r Hr.
      apply elem_of_cons in Hr; destruct Hr as [Hr|Hr].
      { rewrite Hr. heap_build.in_order. }
      apply elem_of_cons in Hr; destruct Hr as [Hr|Hr].
      { rewrite Hr. heap_build.in_order. }
      by apply elem_of_nil in Hr.
  - discriminate.
Defined.

(** ** The tree of [proxy_tree.go] *)

Module proxy_tree_facts.

Import proxy_tree tournament.

Lemma for_range_fuel_more fuel d :
  forall from until step,
    1 <= step -> until - from <= Z.of_nat fuel ->
    for_range_fuel (d + fuel) from until step
    = for_range_fuel fuel from until step.
Proof.
  induction d as [|d IH]; intros from until step Hs Hf; [done|].
  change (S d + fuel)%nat with (S (d + fuel)).
  rewrite for_range_fuel_stable by lia. by apply IH.
Qed.

Lemma for_range_nil from until step :
  until <= from -> for_range from until step = [].
Proof.
  intros H. unfold for_range.
  destruct (Z.to_nat (until - from)) eqn:E; [done|]. lia.
Qed.

Lemma for_range_cons from until step :
  1 <= step -> from < until ->
  for_range from until step = from :: for_range (from + step) until step.
Proof.
  intros Hs Hlt. unfold for_range.
  destruct (Z.to_nat (until - from)) as [|k] eqn:E; [lia|].
  cbn [for_range_fuel]. rewrite (proj2 (Z.ltb_lt _ _) Hlt). f_equal.
  replace k with ((k - Z.to_nat (until - (from + step)))
                  + Z.to_nat (until - (from + step)))%nat by lia.
  apply for_range_fuel_more; lia.
Qed.

Lemma pair_ind {A} (P : list A -> Prop) :
  P [] -> (forall a, P [a]) -> (forall a b l, P l -> P (a :: b :: l)) ->
  forall l, P l.
Proof.
  intros H0 H1 H2 l.
  assert (P l /\ forall a, P (a :: l)) as [H _]; [|done].
  induction l as [|x l [IH1 IH2]]; [by split|].
  split; [apply IH2|]. intros a. by apply H2.
Qed.

(** *** The winners of a level *)

Lemma winner_live st a b la lb :
  labelsAt st a = Ret la -> labelsAt st b = Ret lb ->
  winner st a b = if Compare la lb <? 0 then a else b.
Proof. intros Ha Hb. unfold winner. by rewrite Ha, Hb. Qed.

Lemma winner_cases st a b : winner st a b = a \/ winner st a b = b.
Proof.
  unfold winner. destruct (labelsAt st a); auto.
  destruct (labelsAt st b); auto. destruct (_ <? 0); auto.
Qed.

Lemma before_refl st a : live st a -> before st a a.
Proof.
  intros [l Hl]. exists l, l. repeat split; try done.
  rewrite labels_facts.Compare_refl. lia.
Qed.

Lemma before_trans st a b c :
  before st a b -> before st b c -> before st a c.
Proof.
  intros (la & lb & Ha & Hb & Hab) (lb' & lc & Hb' & Hc & Hbc).
  assert (lb' = lb) as -> by congruence.
  exists la, lc. repeat split; try done.
  destruct (Z.eq_dec (Compare la lb) 0) as [E|E].
  { apply labels_facts.Compare_eq in E. by subst. }
  destruct (Z.eq_dec (Compare lb lc) 0) as [E'|E'].
  { apply labels_facts.Compare_eq in E'. by subst. }
  pose proof (order_facts.Compare_lt_trans la lb lc). lia.
Qed.

Lemma winner_before st a b :
  live st a -> live st b ->
  live st (winner st a b) /\
  before st (winner st a b) a /\ before st (winner st a b) b.
Proof.
  intros [la Ha] [lb Hb]. rewrite (winner_live st a b la lb Ha Hb).
  destruct (Compare la lb <? 0) eqn:E.
  - apply Z.ltb_lt in E. split; [by exists la|]. split.
    + apply before_refl. by exists la.
    + exists la, lb. repeat split; try done. lia.
  - apply Z.ltb_ge in E. split; [by exists lb|]. split.
    + exists lb, la. repeat split; try done.
      pose proof (order_facts.Compare_gt lb la).
      destruct (Z.eq_dec (Compare la lb) 0) as [E0|E0].
      * apply labels_facts.Compare_eq in E0. subst.
        rewrite labels_facts.Compare_refl. lia.
      * pose proof (order_facts.Compare_gt la lb). lia.
    + apply before_refl. by exists lb.
Qed.

Lemma pairup_length st l :
  (2 * length (pairup st l) = length l
   \/ 2 * length (pairup st l) = length l + 1)%nat.
Proof.
  induction l as [|a|a b l IH] using pair_ind; cbn [pairup length]; lia.
Qed.

Lemma pairup_nonempty st l : l <> [] -> pairup st l <> [].
Proof. by destruct l as [|a [|b l]]. Qed.

Lemma pairup_elem st l e : e ∈ pairup st l -> e ∈ l.
Proof.
  induction l as [|a|a b l IH] using pair_ind; cbn [pairup]; [done..|].
  intros He. apply elem_of_cons in He as [->|He].
  - destruct (winner_cases st a b) as [->| ->]; [by left|].
    right. by left.
  - right. right. by apply IH.
Qed.

Lemma pairup_live st l :
  Forall (live st) l -> Forall (live st) (pairup st l).
Proof.
  induction l as [|a|a b l IH] using pair_ind; cbn [pairup]; [done..|].
  intros H. apply Forall_cons in H as [Ha H].
  apply Forall_cons in H as [Hb H].
  apply Forall_cons. split; [|by apply IH].
  by apply winner_before.
Qed.

Lemma pairup_covers st l s :
  Forall (live st) l -> s ∈ l ->
  exists e, e ∈ pairup st l /\ before st e s.
Proof.
  induction l as [|a|a b l IH] using pair_ind; cbn [pairup].
  - intros _ H. by apply elem_of_nil in H.
  - intros H Hs. apply list_elem_of_singleton in Hs as ->.
    exists a. split; [by left|]. apply before_refl.
    by apply Forall_cons in H as [H _].
  - intros H Hs. apply Forall_cons in H as [Ha H].
    apply Forall_cons in H as [Hb H].
    destruct (winner_before st a b Ha Hb) as (_ & Hwa & Hwb).
    apply elem_of_cons in Hs as [->|Hs]; [exists (winner st a b)|].
    { split; [by left|done]. }
    apply elem_of_cons in Hs as [->|Hs]; [exists (winner st a b)|].
    { split; [by left|done]. }
    destruct (IH H Hs) as (e & He & Hes). exists e. split; [by right|done].
Qed.

(** The last node of the tree is one of the leaves, and its labels are
    not greater than those of any leaf. *)
Lemma root_covers st f : forall lvl,
  (length lvl <= f)%nat -> lvl <> [] -> Forall (live st) lvl ->
  exists root,
    last (lvl ++ levels f st lvl) = Some root /\ root ∈ lvl /\
    forall s, s ∈ lvl -> before st root s.
Proof.
  induction f as [|f IH]; intros lvl Hf Hne Hlive.
  { destruct lvl; [done|cbn in Hf; lia]. }
  destruct lvl as [|a [|b rest]]; [done| |].
  - exists a. cbn. split; [done|]. split; [by left|].
    intros s Hs. apply list_elem_of_singleton in Hs as ->.
    apply before_refl. by apply Forall_cons in Hlive as [H _].
  - set (lvl := a :: b :: rest) in *.
    assert (levels (S f) st lvl = pairup st lvl ++ levels f st (pairup st lvl))
      as -> by done.
    destruct (IH (pairup st lvl)) as (root & Hlast & Hin & Hmin).
    { pose proof (pairup_length st lvl). cbn [length] in *.
      unfold lvl in *. cbn [length] in *. lia. }
    { by apply pairup_nonempty. }
    { by apply pairup_live. }
    exists root. split; [|split].
    + rewrite last_app, Hlast. done.
    + by apply pairup_elem in Hin.
    + intros s Hs. destruct (pairup_covers st lvl s Hlive Hs) as (e & He & Hes).
      eapply before_trans; [by apply Hmin|done].
Qed.

(** The loop of [NewProxyTournamentTree] counts the nodes of the
    levels. *)
Lemma count_levels st fuel : forall lvl acc,
  tree.countAuxNodes fuel (len lvl) acc
  = acc + len (levels fuel st lvl).
Proof.
  induction fuel as [|f IH]; intros lvl acc; cbn [tree.countAuxNodes levels].
  { unfold len. simpl. lia. }
  destruct lvl as [|a [|b rest]]; [unfold len; simpl; lia..|].
  set (lvl := a :: b :: rest).
  assert ((1 <? len lvl) = true) as ->.
  { apply Z.ltb_lt. unfold len, lvl. cbn [length]. lia. }
  assert (len (pairup st lvl)
          = if Z.rem (len lvl) 2 =? 0 then Z.quot (len lvl) 2
            else 1 + Z.quot (len lvl) 2) as Hc.
  { pose proof (pairup_length st lvl) as Hl. unfold len.
    rewrite Z.rem_mod_nonneg, Z.quot_div_nonneg by lia.
    destruct (_ =? 0) eqn:E;
      [apply Z.eqb_eq in E|apply Z.eqb_neq in E];
      Z.div_mod_to_equations; lia. }
  assert (len (pairup st lvl ++ levels f st (pairup st lvl))
          = len (pairup st lvl) + len (levels f st (pairup st lvl))) as ->.
  { unfold len. rewrite length_app. lia. }
  destruct (Z.rem (len lvl) 2 =? 0); rewrite <- Hc, IH; lia.
Qed.


(** *** The steps of [Fix] *)

Lemma index_app_at {A} (pre : list A) x post k :
  k = len pre -> index (pre ++ x :: post) k = Some x.
Proof.
  intros ->. unfold len. rewrite index_of_nat. by apply list_lookup_middle.
Qed.

Lemma getNode_at w k s :
  index (nodes (t w)) k = Some s -> getNode k w = (Ret s, w).
Proof. intros H. unfold getNode. by rewrite H. Qed.

Lemma getAux_at w k s :
  index (auxiliaryNodes (t w)) k = Some s -> getAux k w = (Ret s, w).
Proof. intros H. unfold getAux. by rewrite H. Qed.

Lemma callLabels_Ret w s l :
  labelsAt (store w) s = Ret l -> callLabels s w = (Ret l, w).
Proof. intros H. unfold callLabels. by rewrite H. Qed.

Lemma setAux_at w pre x post k y :
  auxiliaryNodes (t w) = pre ++ x :: post -> k = len pre ->
  setAux k y w = (Ret tt, set_aux (pre ++ y :: post) w).
Proof.
  intros Ha ->. unfold setAux. rewrite Ha.
  assert (in_range (pre ++ x :: post) (len pre) = true) as ->.
  { unfold in_range, len. rewrite length_app. cbn [length].
    apply andb_true_intro. split; [apply Z.leb_le|apply Z.ltb_lt]; lia. }
  do 2 f_equal. unfold len. rewrite Nat2Z.id.
  rewrite insert_app_r_alt by lia. by rewrite Nat.sub_diag.
Qed.

Ltac step H := rewrite (bind_Ret _ _ _ _ _ H); cbv beta.

Ltac norm_app :=
  repeat (rewrite <- app_assoc || rewrite <- app_comm_cons).

Ltac lens :=
  unfold len in *; rewrite ?length_app in *; cbn [length pairup] in *; lia.

Lemma Fix_leaves_pair w npre a b rest amid p0 post la lb :
  nodes (t w) = npre ++ a :: b :: rest ->
  auxiliaryNodes (t w) = amid ++ p0 :: post ->
  (length npre = 2 * length amid)%nat ->
  labelsAt (store w) a = Ret la -> labelsAt (store w) b = Ret lb ->
  Fix_leaves (len npre) w
  = (Ret (len amid), set_aux (amid ++ winner (store w) a b :: post) w).
Proof.
  intros Hn Ha Hlen Hla Hlb. unfold Fix_leaves. cbv zeta.
  assert (Z.quot (len npre) 2 = len amid) as ->.
  { unfold len. rewrite Hlen, Nat2Z.inj_mul, Z.mul_comm.
    apply Z.quot_mul. lia. }
  assert (getNode (len npre) w = (Ret a, w)) as Hga.
  { apply getNode_at. rewrite Hn. by apply index_app_at. }
  assert (getNode (len npre + 1) w = (Ret b, w)) as Hgb.
  { apply getNode_at. rewrite Hn, (cons_middle a npre), app_assoc.
    apply index_app_at. unfold len. rewrite length_app. cbn. lia. }
  pose proof (callLabels_Ret w a la Hla) as Hca.
  pose proof (callLabels_Ret w b lb Hlb) as Hcb.
  rewrite (winner_live _ a b la lb Hla Hlb).
  unfold bind at 1, get.
  assert ((len npre + 1 =? len (nodes (t w))) = false) as ->.
  { rewrite Hn. apply Z.eqb_neq. unfold len. rewrite length_app.
    cbn [length]. lia. }
  unfold bind at 1.
  step Hga. step Hca. step Hgb. step Hcb.
  destruct (Compare la lb <? 0).
  - step Hga. by rewrite (setAux_at w amid p0 post (len amid) a Ha).
  - step Hgb. by rewrite (setAux_at w amid p0 post (len amid) b Ha).
Qed.

Lemma Fix_leaves_single w npre a amid p0 post :
  nodes (t w) = npre ++ [a] ->
  auxiliaryNodes (t w) = amid ++ p0 :: post ->
  (length npre = 2 * length amid)%nat ->
  Fix_leaves (len npre) w = (Ret (len amid), set_aux (amid ++ a :: post) w).
Proof.
  intros Hn Ha Hlen. unfold Fix_leaves. cbv zeta.
  assert (Z.quot (len npre) 2 = len amid) as ->.
  { unfold len. rewrite Hlen, Nat2Z.inj_mul, Z.mul_comm.
    apply Z.quot_mul. lia. }
  assert (getNode (len npre) w = (Ret a, w)) as Hga.
  { apply getNode_at. rewrite Hn. by apply index_app_at. }
  unfold bind at 1, get.
  assert ((len npre + 1 =? len (nodes (t w))) = true) as ->.
  { rewrite Hn. apply Z.eqb_eq. unfold len. rewrite length_app.
    cbn [length]. lia. }
  unfold bind at 1. step Hga.
  by rewrite (setAux_at w amid p0 post (len amid) a Ha).
Qed.

Lemma live_not_nil st s : live st s -> isNil s = false.
Proof. intros [l Hl]. by destruct s. Qed.

Lemma Fix_upper_pair w pre a b rest mid p0 post la lb until last :
  auxiliaryNodes (t w) = pre ++ a :: b :: rest ++ mid ++ p0 :: post ->
  until = len pre + len (a :: b :: rest) ->
  last + 1 = until + len mid ->
  labelsAt (store w) a = Ret la -> labelsAt (store w) b = Ret lb ->
  Fix_upper until last (len pre) w
  = (Ret (last + 1),
     set_aux (pre ++ a :: b :: rest ++ mid
                ++ winner (store w) a b :: post) w).
Proof.
  intros Ha Hu Hl Hla Hlb. unfold Fix_upper. cbv zeta.
  assert (getAux (len pre) w = (Ret a, w)) as Hga.
  { apply getAux_at. rewrite Ha. by apply index_app_at. }
  assert (getAux (len pre + 1) w = (Ret b, w)) as Hgb.
  { apply getAux_at. rewrite Ha, (cons_middle a pre), app_assoc.
    apply index_app_at. unfold len. rewrite length_app. cbn. lia. }
  pose proof (callLabels_Ret w a la Hla) as Hca.
  pose proof (callLabels_Ret w b lb Hlb) as Hcb.
  rewrite (winner_live _ a b la lb Hla Hlb).
  assert ((len pre + 1 =? until) = false) as ->.
  { apply Z.eqb_neq. subst until. unfold len. cbn [length]. lia. }
  assert (isNil b = false) as Hnil by (apply (live_not_nil (store w)); by exists lb).
  assert (auxiliaryNodes (t w)
          = (pre ++ a :: b :: rest ++ mid) ++ p0 :: post) as Ha'.
  { rewrite Ha. by norm_app. }
  assert (last + 1 = len (pre ++ a :: b :: rest ++ mid)) as Hk.
  { rewrite Hl, Hu. unfold len. rewrite !length_app. cbn [length].
    rewrite length_app. lia. }
  unfold bind at 1. unfold bind at 1. rewrite Hgb. unfold ret at 1.
  rewrite Hnil. unfold bind at 1.
  step Hga. step Hca. step Hgb. step Hcb.
  destruct (Compare la lb <? 0).
  - step Hga. rewrite (setAux_at w _ p0 post (last + 1) a Ha' Hk).
    unfold ret. by norm_app.
  - step Hgb. rewrite (setAux_at w _ p0 post (last + 1) b Ha' Hk).
    unfold ret. by norm_app.
Qed.

Lemma Fix_upper_single w pre a mid p0 post until last :
  auxiliaryNodes (t w) = pre ++ a :: mid ++ p0 :: post ->
  until = len pre + 1 ->
  last + 1 = until + len mid ->
  Fix_upper until last (len pre) w
  = (Ret (last + 1), set_aux (pre ++ a :: mid ++ a :: post) w).
Proof.
  intros Ha Hu Hl. unfold Fix_upper. cbv zeta.
  assert (getAux (len pre) w = (Ret a, w)) as Hga.
  { apply getAux_at. rewrite Ha. by apply index_app_at. }
  assert ((len pre + 1 =? until) = true) as ->.
  { apply Z.eqb_eq. lia. }
  assert (auxiliaryNodes (t w) = (pre ++ a :: mid) ++ p0 :: post) as Ha'.
  { rewrite Ha. by norm_app. }
  assert (last + 1 = len (pre ++ a :: mid)) as Hk.
  { rewrite Hl, Hu. unfold len. rewrite !length_app. cbn [length]. lia. }
  unfold bind at 1. unfold ret at 1. unfold bind at 1.
  step Hga. rewrite (setAux_at w _ p0 post (last + 1) a Ha' Hk).
  unfold ret. by norm_app.
Qed.

Lemma set_aux_set_aux a b w : set_aux a (set_aux b w) = set_aux a w.
Proof. done. Qed.

Lemma set_aux_same w : set_aux (auxiliaryNodes (t w)) w = w.
Proof. by destruct w as [st [ns aux lci]]. Qed.

(** *** The first loop of [Fix] *)

Lemma leaves_pass st : forall todo w npre amid post acc,
  store w = st ->
  nodes (t w) = npre ++ todo ->
  auxiliaryNodes (t w) = amid ++ post ->
  Forall (live st) todo ->
  (length npre = 2 * length amid)%nat ->
  (length (pairup st todo) <= length post)%nat ->
  acc = len amid - 1 ->
  foldM (for_range (len npre) (len (nodes (t w))) 2) acc
    (fun _ left => Fix_leaves left) w
  = (Ret (len amid + len (pairup st todo) - 1),
     set_aux (amid ++ pairup st todo
                ++ drop (length (pairup st todo)) post) w).
Proof.
  induction todo as [|a|a b rest IH] using pair_ind;
    intros w npre amid post acc Hst Hn Ha Hlive Hlen Hpost Hacc.
  - rewrite for_range_nil.
    2: { rewrite Hn, app_nil_r. lia. }
    cbn [foldM pairup length app]. rewrite drop_0. unfold ret.
    rewrite <- Ha, set_aux_same. do 2 f_equal. lens.
  - destruct post as [|p0 post]; [cbn in Hpost; lia|].
    rewrite for_range_cons; [|lia|].
    2: { rewrite Hn. unfold len. rewrite length_app. cbn. lia. }
    rewrite for_range_nil.
    2: { rewrite Hn. unfold len. rewrite length_app. cbn. lia. }
    cbn [foldM pairup].
    rewrite (bind_Ret _ _ _ _ _ (Fix_leaves_single w npre a amid p0 post
                                  Hn Ha Hlen)).
    unfold ret. do 2 f_equal. lens.
  - destruct post as [|p0 post]; [cbn in Hpost; lia|].
    apply Forall_cons in Hlive as [[la Hla] Hlive].
    apply Forall_cons in Hlive as [[lb Hlb] Hlive].
    rewrite <- Hst in Hla, Hlb.
    rewrite for_range_cons; [|lia|].
    2: { rewrite Hn. unfold len. rewrite length_app. cbn. lia. }
    cbn [foldM pairup].
    rewrite (bind_Ret _ _ _ _ _
               (Fix_leaves_pair w npre a b rest amid p0 post la lb
                  Hn Ha Hlen Hla Hlb)).
    set (w1 := set_aux (amid ++ winner (store w) a b :: post) w).
    specialize (IH w1 (npre ++ [a; b]) (amid ++ [winner (store w) a b])
                  post (len amid)).
    assert (len (npre ++ [a; b]) = len npre + 2) as Hl2.
    { unfold len. rewrite length_app. cbn. lia. }
    rewrite Hl2 in IH. change (nodes (t w1)) with (nodes (t w)) in IH.
    rewrite IH; clear IH.
    + subst w1. rewrite set_aux_set_aux, Hst. f_equal.
      * f_equal. lens.
      * f_equal. cbn [length]. rewrite skipn_cons. by norm_app.
    + done.
    + rewrite Hn. by norm_app.
    + unfold w1. cbn. by norm_app.
    + done.
    + rewrite !length_app. cbn. lia.
    + cbn [pairup length] in Hpost. lia.
    + unfold len. rewrite length_app. cbn. lia.
Qed.

(** *** The pass of [Fix] over one upper level *)

Lemma upper_pass st : forall todo w pre mid post until last,
  store w = st ->
  auxiliaryNodes (t w) = pre ++ todo ++ mid ++ post ->
  Forall (live st) todo ->
  until = len pre + len todo ->
  last + 1 = until + len mid ->
  (length (pairup st todo) <= length post)%nat ->
  foldM (for_range (len pre) until 2) last (Fix_upper until) w
  = (Ret (last + len (pairup st todo)),
     set_aux (pre ++ todo ++ mid ++ pairup st todo
                ++ drop (length (pairup st todo)) post) w).
Proof.
  induction todo as [|a|a b rest IH] using pair_ind;
    intros w pre mid post until last Hst Ha Hlive Hu Hl Hpost.
  - rewrite for_range_nil by (unfold len in *; cbn in *; lia).
    cbn [foldM pairup length app]. rewrite drop_0. unfold ret.
    cbn [app] in Ha. rewrite <- Ha, set_aux_same.
    do 2 f_equal. lens.
  - destruct post as [|p0 post]; [cbn in Hpost; lia|].
    rewrite for_range_cons; [|lia|unfold len in *; cbn in *; lia].
    rewrite for_range_nil by (unfold len in *; cbn in *; lia).
    cbn [foldM pairup].
    cbn [app] in Ha.
    rewrite (bind_Ret _ _ _ _ _
               (Fix_upper_single w pre a mid p0 post until last Ha
                  ltac:(unfold len in *; cbn in *; lia) Hl)).
    unfold ret. repeat f_equal; lens.
  - destruct post as [|p0 post]; [cbn in Hpost; lia|].
    apply Forall_cons in Hlive as [[la Hla] Hlive].
    apply Forall_cons in Hlive as [[lb Hlb] Hlive].
    rewrite <- Hst in Hla, Hlb.
    rewrite for_range_cons; [|lia|unfold len in *; cbn in *; lia].
    cbn [foldM pairup]. cbn [app] in Ha.
    rewrite (bind_Ret _ _ _ _ _
               (Fix_upper_pair w pre a b rest mid p0 post la lb until last
                  Ha Hu Hl Hla Hlb)).
    set (win := winner (store w) a b).
    set (w1 := set_aux (pre ++ a :: b :: rest ++ mid ++ win :: post) w).
    specialize (IH w1 (pre ++ [a; b]) (mid ++ [win]) post until (last + 1)).
    assert (len (pre ++ [a; b]) = len pre + 2) as Hl2.
    { unfold len. rewrite length_app. cbn. lia. }
    rewrite Hl2 in IH. rewrite IH; clear IH.
    + subst w1 win. rewrite set_aux_set_aux, Hst. f_equal.
      * f_equal. lens.
      * f_equal. cbn [length]. rewrite skipn_cons. by norm_app.
    + done.
    + unfold w1. cbn. by norm_app.
    + done.
    + unfold len in *. cbn [length] in *. lia.
    + unfold len in *. rewrite length_app. cbn [length] in *. lia.
    + cbn [pairup length] in Hpost. lia.
Qed.

(** *** The outer loop of [Fix] *)

Lemma levels_exit fuel firstIter old w pre lvl :
  auxiliaryNodes (t w) = pre ++ lvl -> lvl <> [] ->
  Fix_levels (S fuel) firstIter old (len pre + len lvl - 1) w = (Ret tt, w).
Proof.
  intros Ha Hne. cbn [Fix_levels]. unfold bind at 1, get.
  assert ((len pre + len lvl - 1 =? len (auxiliaryNodes (t w)) - 1) = true)
    as ->; [|done].
  apply Z.eqb_eq. rewrite Ha. lens.
Qed.

Lemma levels_loop st : forall f fuel firstIter old w pre lvl post,
  store w = st ->
  auxiliaryNodes (t w) = pre ++ lvl ++ post ->
  lvl <> [] -> Forall (live st) lvl ->
  length post = length (levels f st lvl) ->
  (if firstIter : bool then 0 else old + 1) = len pre ->
  (length post < fuel)%nat ->
  Fix_levels fuel firstIter old (len pre + len lvl - 1) w
  = (Ret tt, set_aux (pre ++ lvl ++ levels f st lvl) w).
Proof.
  assert (forall fuel firstIter old w pre lvl post f,
            auxiliaryNodes (t w) = pre ++ lvl ++ post ->
            lvl <> [] -> levels f st lvl = [] ->
            length post = length (levels f st lvl) ->
            (length post < fuel)%nat ->
            Fix_levels fuel firstIter old (len pre + len lvl - 1) w
            = (Ret tt, set_aux (pre ++ lvl ++ levels f st lvl) w)) as Hexit.
  { intros fuel firstIter old w pre lvl post f Ha Hne Hnil Hpost Hfuel.
    rewrite Hnil in *. destruct post; [|done]. rewrite app_nil_r in *.
    destruct fuel; [lia|]. rewrite <- Ha, set_aux_same.
    by apply levels_exit. }
  induction f as [|f IH];
    intros fuel firstIter old w pre lvl post Hst Ha Hne Hlive Hpost Hfrom
      Hfuel.
  { by eapply Hexit. }
  destruct lvl as [|a [|b rest]]; [done|by eapply Hexit|].
  set (lvl := a :: b :: rest) in *.
  assert (levels (S f) st lvl = pairup st lvl ++ levels f st (pairup st lvl))
    as Hlv by done.
  rewrite Hlv in *.
  assert (pairup st lvl <> []) as Hpne by (by apply pairup_nonempty).
  assert (0 < length (pairup st lvl))%nat as Hc
    by (destruct (pairup st lvl); [done|cbn; lia]).
  rewrite length_app in Hpost.
  destruct fuel as [|fuel]; [lia|]. cbn [Fix_levels].
  unfold bind at 1, get.
  assert ((len pre + len lvl - 1 =? len (auxiliaryNodes (t w)) - 1) = false)
    as ->.
  { apply Z.eqb_neq. rewrite Ha. unfold len. rewrite !length_app. lia. }
  cbv zeta. rewrite Hfrom.
  assert (auxiliaryNodes (t w) = pre ++ lvl ++ [] ++ post) as Ha' by done.
  pose proof (upper_pass st lvl w pre [] post
                (len pre + len lvl - 1 + 1) (len pre + len lvl - 1)
                Hst Ha' Hlive) as Hpass.
  specialize (Hpass ltac:(lia) ltac:(unfold len; cbn [length]; lia)
                ltac:(lia)).
  rewrite (bind_Ret _ _ _ _ _ Hpass).
  set (w1 := set_aux _ w).
  replace (len pre + len lvl - 1 + len (pairup st lvl))
    with (len (pre ++ lvl) + len (pairup st lvl) - 1)
    by (unfold len; rewrite length_app; lia).
  rewrite (IH fuel false (len pre + len lvl - 1) w1 (pre ++ lvl)
             (pairup st lvl) (drop (length (pairup st lvl)) post)).
  - subst w1. rewrite set_aux_set_aux. do 2 f_equal. by norm_app.
  - done.
  - subst w1. cbn. by norm_app.
  - done.
  - by apply pairup_live.
  - rewrite length_drop. lia.
  - unfold len. rewrite length_app. lia.
  - rewrite length_drop. lia.
Qed.

(** [Fix] over two or more leaves that stand on a series, whatever the
    auxiliary nodes hold before: it returns, and the auxiliary nodes are
    the levels of the tournament. *)
Lemma Fix_builds st ns aux0 :
  (2 <= length ns)%nat -> Forall (live st) ns ->
  length aux0 = length (levels (length ns) st ns) ->
  Fix (mkWorld st (mkTree ns aux0 (-1)))
  = (Ret tt, mkWorld st (mkTree ns (levels (length ns) st ns) (-1))).
Proof.
  intros Hn Hlive Hlen.
  destruct ns as [|a [|b rest]]; [cbn in Hn; lia..|].
  set (ns := a :: b :: rest) in *.
  assert (length ns = S (S (length rest))) as Hl by done.
  rewrite Hl in *.
  assert (levels (S (S (length rest))) st ns
          = pairup st ns ++ levels (S (length rest)) st (pairup st ns))
    as Hlv by done.
  rewrite Hlv in *. rewrite length_app in Hlen.
  set (w := mkWorld st (mkTree ns aux0 (-1))).
  unfold Fix. unfold bind at 1, get.
  change (lastChangedIndex (t w) =? -1) with true. cbv iota.
  pose proof (leaves_pass st ns w [] [] aux0 (-1)
                eq_refl eq_refl eq_refl Hlive eq_refl
                ltac:(lia) eq_refl) as Hpass.
  change (len []) with 0 in Hpass. rewrite Z.add_0_l in Hpass.
  rewrite (bind_Ret _ _ _ _ _ Hpass).
  assert (pairup st ns <> []) as Hpne by (by apply pairup_nonempty).
  assert (0 < length (pairup st ns))%nat as Hc
    by (destruct (pairup st ns); [done|cbn; lia]).
  assert ((len (pairup st ns) - 1 <? len (auxiliaryNodes (t w))) = true)
    as ->.
  { apply Z.ltb_lt. unfold w, len. cbn [auxiliaryNodes t]. lia. }
  set (w1 := set_aux _ w).
  replace (len (pairup st ns) - 1)
    with (len (@nil SeriesSet) + len (pairup st ns) - 1)
    by (unfold len; cbn [length]; lia).
  rewrite (levels_loop st (S (length rest)) _ true 0 w1 []
             (pairup st ns) (drop (length (pairup st ns)) aux0)).
  - done.
  - done.
  - done.
  - done.
  - by apply pairup_live.
  - rewrite length_drop. lia.
  - done.
  - rewrite length_drop. unfold w. cbn [auxiliaryNodes t]. lia.
Qed.

Lemma pairup_lookup st l : forall k a b,
  l !! (2 * k)%nat = Some a -> l !! (2 * k + 1)%nat = Some b ->
  pairup st l !! k = Some (winner st a b).
Proof.
  induction l as [|x|x y l IH] using pair_ind; intros k a b Ha Hb.
  - by rewrite lookup_nil in Ha.
  - apply lookup_lt_Some in Hb. cbn [length] in Hb. lia.
  - destruct k as [|k].
    + cbn in Ha, Hb. injection Ha as ->. injection Hb as ->. done.
    + replace (2 * S k)%nat with (S (S (2 * k))) in Ha by lia.
      replace (2 * S k + 1)%nat with (S (S (2 * k + 1))) in Hb by lia.
      cbn in Ha, Hb. cbn [pairup]. by apply IH.
Qed.

Lemma NewProxyTournamentTree_builds st ns :
  (2 <= length ns)%nat -> Forall (live st) ns ->
  NewProxyTournamentTree st ns
  = (Ret tt, mkWorld st (mkTree ns (levels (length ns) st ns) (-1))).
Proof.
  intros Hn Hlive. unfold NewProxyTournamentTree. cbv zeta.
  apply Fix_builds; [done..|].
  rewrite length_replicate, (count_levels st). unfold len.
  rewrite Z.add_0_l. by rewrite Nat2Z.id.
Qed.

Lemma levels_nonempty st f a b rest :
  levels (S f) st (a :: b :: rest) <> [].
Proof. cbn [levels pairup]. done. Qed.

Ltac all_live :=
  repeat (apply Forall_cons; split;
          [eexists; vm_compute; reflexivity|]);
  apply Forall_nil_2.

(** *** [Fix] ends *)

Lemma untouched_refl w : untouched w w.
Proof. by repeat split. Qed.

Lemma untouched_trans a b c : untouched a b -> untouched b c -> untouched a c.
Proof.
  intros (H1 & H2 & H3 & H4) (G1 & G2 & G3 & G4).
  repeat split; congruence.
Qed.

Lemma labelsAt_ends st s :
  (exists l, labelsAt st s = Ret l) \/ (exists msg, labelsAt st s = Panic msg).
Proof.
  unfold labelsAt, mock_At. repeat case_match; eauto; discriminate.
Qed.

Lemma ok_ret {A} (a : A) w (Q : A -> world -> Prop) :
  Q a w -> ok (ret a) w Q.
Proof. intros H. split; [apply untouched_refl|done]. Qed.

Lemma ok_bind {A B} (m : M world A) (k : A -> M world B) w
    (Q1 : A -> world -> Prop) (Q2 : B -> world -> Prop) :
  ok m w Q1 ->
  (forall a w1, untouched w w1 -> Q1 a w1 -> ok (k a) w1 Q2) ->
  ok (bind m k) w Q2.
Proof.
  unfold ok, bind. destruct (m w) as [[a|msg| |] w1]; try done.
  intros [Hu H1] Hk. specialize (Hk a w1 Hu H1).
  destruct (k a w1) as [[b|msg| |] w2]; try done.
  - destruct Hk as [Hu2 H2]. split; [by eapply untouched_trans|done].
  - by eapply untouched_trans.
Qed.

Lemma ok_get w : ok get w (fun a w' => a = w /\ w' = w).
Proof. split; [apply untouched_refl|done]. Qed.

Lemma ok_getNode k w : ok (getNode k) w (fun _ w' => w' = w).
Proof.
  unfold ok, getNode. destruct (index _ _);
    [split; [apply untouched_refl|done]|apply untouched_refl].
Qed.

Lemma ok_getAux k w : ok (getAux k) w (fun _ w' => w' = w).
Proof.
  unfold ok, getAux. destruct (index _ _);
    [split; [apply untouched_refl|done]|apply untouched_refl].
Qed.

Lemma ok_callLabels s w : ok (callLabels s) w (fun _ w' => w' = w).
Proof.
  unfold ok, callLabels.
  destruct (labelsAt_ends (store w) s) as [[l ->]|[msg ->]];
    [split; [apply untouched_refl|done]|apply untouched_refl].
Qed.

Lemma ok_setAux k s w :
  ok (setAux k s) w
    (fun _ _ => in_range (auxiliaryNodes (t w)) k = true).
Proof.
  unfold ok, setAux. destruct (in_range _ _) eqn:E;
    [|apply untouched_refl].
  split; [|done]. repeat split; try done. cbn. by rewrite length_insert.
Qed.

Ltac reads_step :=
  let H := fresh "H" in
  eapply ok_bind;
  [first [apply ok_getNode|apply ok_getAux|apply ok_callLabels]
  |intros ? ? _ H; cbv beta in H; subst].

Lemma ok_Fix_leaves left w :
  ok (Fix_leaves left) w
    (fun r _ => r = Z.quot left 2 /\
                in_range (auxiliaryNodes (t w)) r = true).
Proof.
  unfold Fix_leaves. cbv zeta.
  eapply ok_bind; [apply ok_get|]. intros a w1 _ [-> ->].
  eapply (ok_bind _ _ _
            (fun _ _ => in_range (auxiliaryNodes (t w)) (Z.quot left 2)
                        = true)).
  - destruct (_ =? _).
    + reads_step. apply ok_setAux.
    + do 4 reads_step. destruct (_ <? _); reads_step; apply ok_setAux.
  - intros _ w1 _ Hin. by apply ok_ret.
Qed.

Lemma ok_Fix_upper until last left w :
  ok (Fix_upper until last left) w
    (fun r _ => r = last + 1 /\
                in_range (auxiliaryNodes (t w)) r = true).
Proof.
  unfold Fix_upper. cbv zeta.
  eapply (ok_bind _ _ _ (fun _ w' => w' = w)).
  { destruct (_ =? _); [by apply ok_ret|].
    reads_step. by apply ok_ret. }
  intros alone w1 _ ->.
  eapply (ok_bind _ _ _
            (fun _ _ => in_range (auxiliaryNodes (t w)) (last + 1) = true)).
  - destruct alone.
    + reads_step. apply ok_setAux.
    + do 4 reads_step. destruct (_ <? _); reads_step; apply ok_setAux.
  - intros _ w1 _ Hin. by apply ok_ret.
Qed.

Lemma in_range_untouched w w' k :
  untouched w w' ->
  in_range (auxiliaryNodes (t w')) k = in_range (auxiliaryNodes (t w)) k.
Proof. intros (_ & _ & _ & Hl). unfold in_range. by rewrite Hl. Qed.

Lemma ok_weaken {A} (m : M world A) w (Q Q' : A -> world -> Prop) :
  ok m w Q -> (forall a w', untouched w w' -> Q a w' -> Q' a w') ->
  ok m w Q'.
Proof.
  unfold ok. destruct (m w) as [[a|msg| |] w1]; try done.
  intros [Hu H] HQ. split; [done|by apply HQ].
Qed.

(** A pass of [Fix] over a level writes one auxiliary node per step. *)
Lemma ok_upper_fold until xs : forall last w,
  ok (foldM xs last (Fix_upper until)) w
    (fun r _ => r = last + len xs /\
                (xs <> [] -> in_range (auxiliaryNodes (t w)) r = true)).
Proof.
  induction xs as [|x xs IH]; intros last w; cbn [foldM].
  { apply ok_ret. split; [unfold len; cbn; lia|done]. }
  eapply ok_bind; [apply ok_Fix_upper|].
  intros r w1 Hu [-> Hin]. cbv beta.
  eapply ok_weaken; [apply IH|].
  intros r w2 Hu2 [-> Hin2]. split.
  - unfold len. cbn [length]. lia.
  - intros _. destruct xs as [|y xs].
    + replace (last + 1 + len []) with (last + 1)
        by (unfold len; cbn; lia). done.
    + rewrite <- (in_range_untouched w w1) by done. by apply Hin2.
Qed.

(** The first loop of [Fix]: the index it ends on is that of an
    auxiliary node, unless there is no leaf. *)
Lemma ok_leaves_fold xs : forall acc w,
  ok (foldM xs acc (fun _ left => Fix_leaves left)) w
    (fun r _ => (xs = [] /\ r = acc) \/
                in_range (auxiliaryNodes (t w)) r = true).
Proof.
  induction xs as [|x xs IH]; intros acc w; cbn [foldM].
  { apply ok_ret. by left. }
  eapply ok_bind; [apply ok_Fix_leaves|].
  intros r w1 Hu [-> Hin]. cbv beta.
  eapply ok_weaken; [apply IH|].
  intros r w2 Hu2 Hr. right.
  destruct Hr as [[-> ->]|Hr]; [done|].
  by rewrite <- (in_range_untouched w w1).
Qed.

(** The outer loop of [Fix] ends when each pass has a node to read. *)
Lemma ok_Fix_levels fuel : forall firstIter old last w,
  last < len (auxiliaryNodes (t w)) ->
  (Z.to_nat (len (auxiliaryNodes (t w)) - 1 - last) < fuel)%nat ->
  (firstIter = true /\ 0 <= last) \/ (firstIter = false /\ old < last)
  \/ last = len (auxiliaryNodes (t w)) - 1 ->
  ok (Fix_levels fuel firstIter old last) w (fun _ _ => True).
Proof.
  induction fuel as [|f IH]; intros firstIter old last w Hlt Hf Hprog;
    [lia|].
  cbn [Fix_levels].
  eapply ok_bind; [apply ok_get|]. intros a w1 _ [-> ->].
  destruct (last =? len (auxiliaryNodes (t w)) - 1) eqn:E;
    [by apply ok_ret|].
  apply Z.eqb_neq in E. cbv zeta.
  eapply ok_bind; [apply ok_upper_fold|].
  intros r w1 Hu [-> Hin]. cbv beta.
  set (from := if firstIter then 0 else old + 1) in *.
  assert (from < last + 1) as Hfrom.
  { unfold from. destruct Hprog as [[-> ?]|[[-> ?]|?]]; lia. }
  assert (for_range from (last + 1) 2 <> []) as Hne.
  { rewrite for_range_cons by lia. done. }
  specialize (Hin Hne). apply in_range_true in Hin.
  assert (0 < len (for_range from (last + 1) 2)) as Hpos.
  { unfold len. destruct (for_range from (last + 1) 2); [done|].
    cbn [length]. lia. }
  pose proof Hu as (_ & _ & _ & Hl).
  apply IH; unfold len in *; rewrite ?Hl; lia.
Qed.

Lemma ok_Fix w :
  nodes (t w) <> [] \/ auxiliaryNodes (t w) = [] ->
  ok Fix w (fun _ _ => True).
Proof.
  intros Hw. unfold Fix.
  eapply ok_bind; [apply ok_get|]. intros a w1 _ [-> ->].
  destruct (_ =? -1); [|by apply ok_ret].
  eapply ok_bind; [apply ok_leaves_fold|].
  intros r w1 Hu Hr. cbv beta.
  destruct (r <? len (auxiliaryNodes (t w))) eqn:E; [|by apply ok_ret].
  apply Z.ltb_lt in E.
  pose proof Hu as (_ & _ & _ & Hl).
  eapply ok_weaken.
  - apply ok_Fix_levels.
    + unfold len in *. rewrite Hl. lia.
    + destruct Hr as [[Hnil ->]|Hr].
      * unfold len. rewrite Hl. lia.
      * apply in_range_true in Hr. unfold len. rewrite Hl. lia.
    + destruct Hr as [[Hnil ->]|Hr].
      * right. right. destruct Hw as [Hw|Hw].
        -- exfalso. apply Hw.
           destruct (nodes (t w)) as [|x l]; [done|].
           rewrite for_range_cons in Hnil; [done|lia|].
           unfold len. cbn [length]. lia.
        -- unfold len. rewrite Hl, Hw. done.
      * left. apply in_range_true in Hr. split; [done|lia].
  - done.
Qed.

End proxy_tree_facts.

(** X18.  Over two or more streams that stand on a series the
    constructor of [proxy_tree.go] returns without a panic; it moves no
    stream, and the auxiliary nodes are the levels of a tournament: each
    level holds the winners of the pairs of the level below, the left
    stream of a pair winning only when its labels are strictly
    smaller. *)
Theorem proxy_tree_builds_the_tournament
  (st : list mockSeriesSet) (ns : list SeriesSet) :
  (2 <= length ns)%nat -> Forall (tournament.live st) ns ->
  proxy_tree.NewProxyTournamentTree st ns
  = (Ret tt,
     proxy_tree.mkWorld st
       (proxy_tree.mkTree ns (tournament.levels (length ns) st ns) (-1))).
Proof. apply proxy_tree_facts.NewProxyTournamentTree_builds. Qed.

Lemma proxy_tree_builds_the_tournament_witness :
  proxy_tree.NewProxyTournamentTree
    [scenarios.single "foo"; scenarios.single "bar"; scenarios.single "baz"]
    (scenarios.leaves 3)
  = (Ret tt,
     proxy_tree.mkWorld
       [scenarios.single "foo"; scenarios.single "bar";
        scenarios.single "baz"]
       (proxy_tree.mkTree (scenarios.leaves 3)
          (tournament.levels 3
             [scenarios.single "foo"; scenarios.single "bar";
              scenarios.single "baz"]
             (scenarios.leaves 3)) (-1))).
Proof.
  apply (proxy_tree_builds_the_tournament
           [scenarios.single "foo"; scenarios.single "bar";
            scenarios.single "baz"] (scenarios.leaves 3)).
  - vm_compute. lia.
  - proxy_tree_facts.all_live.
Defined.

(** X19.  In the tree of [proxy_tree.go] built over two or more streams
    that stand on a series, the last auxiliary node, the root, is one of
    the given streams, and no stream stands on labels smaller than
    those under the root. *)
Theorem proxy_tree_root_is_the_minimum
  (st : list mockSeriesSet) (ns : list SeriesSet) :
  (2 <= length ns)%nat -> Forall (tournament.live st) ns ->
  exists w root,
    proxy_tree.NewProxyTournamentTree st ns = (Ret tt, w) /\
    proxy_tree.nodes (proxy_tree.t w) = ns /\
    proxy_tree.store w = st /\
    last (proxy_tree.auxiliaryNodes (proxy_tree.t w)) = Some root /\
    root ∈ ns /\
    forall s, s ∈ ns -> tournament.before st root s.
Proof.
  intros Hn Hlive.
  rewrite (proxy_tree_facts.NewProxyTournamentTree_builds st ns Hn Hlive).
  destruct (proxy_tree_facts.root_covers st (length ns) ns)
    as (root & Hlast & Hin & Hmin); [done| |done|].
  { destruct ns; [cbn in Hn; lia|done]. }
  eexists _, root. split; [done|]. split; [done|]. split; [done|].
  split; [|done]. cbn [proxy_tree.auxiliaryNodes proxy_tree.t].
  rewrite last_app in Hlast.
  destruct (last (tournament.levels (length ns) st ns)) eqn:E; [done|].
  apply last_None in E. destruct ns as [|a [|b rest]]; [cbn in Hn; lia..|].
  by apply proxy_tree_facts.levels_nonempty in E.
Qed.

Lemma proxy_tree_root_is_the_minimum_witness :
  exists w root,
    proxy_tree.NewProxyTournamentTree
      (map scenarios.single ["m"; "m"; "m"; "m"; "a"; "m"; "m";
                             "m"; "m"; "m"; "m"; "m"; "m"; "m"])
      (scenarios.leaves 14) = (Ret tt, w) /\
    proxy_tree.nodes (proxy_tree.t w) = scenarios.leaves 14 /\
    proxy_tree.store w
    = map scenarios.single ["m"; "m"; "m"; "m"; "a"; "m"; "m";
                            "m"; "m"; "m"; "m"; "m"; "m"; "m"] /\
    last (proxy_tree.auxiliaryNodes (proxy_tree.t w)) = Some root /\
    root ∈ scenarios.leaves 14 /\
    forall s, s ∈ scenarios.leaves 14 ->
      tournament.before
        (map scenarios.single ["m"; "m"; "m"; "m"; "a"; "m"; "m";
                               "m"; "m"; "m"; "m"; "m"; "m"; "m"])
        root s.
Proof.
  apply (proxy_tree_root_is_the_minimum
           (map scenarios.single ["m"; "m"; "m"; "m"; "a"; "m"; "m";
                                  "m"; "m"; "m"; "m"; "m"; "m"; "m"])
           (scenarios.leaves 14)).
  - vm_compute. lia.
  - proxy_tree_facts.all_live.
Defined.

(** X20.  The constructor of [proxy_tree.go] cannot build a tree over a
    single stream: no auxiliary node is allocated for one leaf, and
    [Fix] panics with an index out of range when it stores the leaf.
    Over no stream at all it returns an empty tree. *)
Theorem proxy_tree_of_one_stream_panics
  (st : list mockSeriesSet) (s : SeriesSet) :
  proxy_tree.NewProxyTournamentTree st [s]
  = (Panic index_out_of_range,
     proxy_tree.mkWorld st (proxy_tree.mkTree [s] [] (-1))) /\
  proxy_tree.NewProxyTournamentTree st []
  = (Ret tt, proxy_tree.mkWorld st (proxy_tree.mkTree [] [] (-1))).
Proof. split; reflexivity. Qed.

(** X21.  [Fix] of [proxy_tree.go] never leaves the build: it does not
    write [lastChangedIndex], and on a tree built over two or more
    streams that stand on a series a further [Fix] builds the same tree
    again, whatever the auxiliary nodes held. *)
Theorem proxy_tree_Fix_rebuilds
  (st : list mockSeriesSet) (ns aux0 : list SeriesSet) :
  (2 <= length ns)%nat -> Forall (tournament.live st) ns ->
  length aux0 = length (tournament.levels (length ns) st ns) ->
  exists w,
    proxy_tree.Fix (proxy_tree.mkWorld st (proxy_tree.mkTree ns aux0 (-1)))
    = (Ret tt, w) /\
    proxy_tree.NewProxyTournamentTree st ns = (Ret tt, w) /\
    proxy_tree.lastChangedIndex (proxy_tree.t w) = -1 /\
    proxy_tree.Fix w = (Ret tt, w).
Proof.
  intros Hn Hlive Hlen.
  rewrite (proxy_tree_facts.NewProxyTournamentTree_builds st ns Hn Hlive).
  rewrite (proxy_tree_facts.Fix_builds st ns aux0 Hn Hlive Hlen).
  eexists. split; [done|]. split; [done|]. split; [done|].
  by apply proxy_tree_facts.Fix_builds.
Qed.

Lemma proxy_tree_Fix_rebuilds_witness :
  exists w,
    proxy_tree.Fix
      (proxy_tree.mkWorld
         [scenarios.single "baa"; scenarios.single "bab"]
         (proxy_tree.mkTree (scenarios.leaves 2) [Some 1%nat] (-1)))
    = (Ret tt, w) /\
    proxy_tree.NewProxyTournamentTree
      [scenarios.single "baa"; scenarios.single "bab"] (scenarios.leaves 2)
    = (Ret tt, w) /\
    proxy_tree.lastChangedIndex (proxy_tree.t w) = -1 /\
    proxy_tree.Fix w = (Ret tt, w).
Proof.
  apply (proxy_tree_Fix_rebuilds
           [scenarios.single "baa"; scenarios.single "bab"]
           (scenarios.leaves 2) [Some 1%nat]).
  - vm_compute. lia.
  - proxy_tree_facts.all_live.
  - reflexivity.
Defined.

(** X22.  The first level of the tree of [proxy_tree.go]: the auxiliary
    node above the leaves [2k] and [2k+1] holds the left leaf when its
    labels are strictly smaller, and the right leaf otherwise, also when
    the labels are equal. *)
Theorem proxy_tree_first_level
  (st : list mockSeriesSet) (ns : list SeriesSet) (k : nat)
  (a b : SeriesSet) (la lb : Labels) :
  Forall (tournament.live st) ns ->
  ns !! (2 * k)%nat = Some a -> ns !! (2 * k + 1)%nat = Some b ->
  proxy_tree.labelsAt st a = Ret la -> proxy_tree.labelsAt st b = Ret lb ->
  exists w,
    proxy_tree.NewProxyTournamentTree st ns = (Ret tt, w) /\
    proxy_tree.auxiliaryNodes (proxy_tree.t w) !! k
    = Some (if Compare la lb <? 0 then a else b).
Proof.
  intros Hlive Ha Hb Hla Hlb.
  assert (2 <= length ns)%nat as Hn.
  { apply lookup_lt_Some in Hb. lia. }
  rewrite (proxy_tree_facts.NewProxyTournamentTree_builds st ns Hn Hlive).
  eexists. split; [done|].
  cbn [proxy_tree.auxiliaryNodes proxy_tree.t].
  destruct ns as [|x [|y rest]]; [cbn in Hn; lia..|].
  set (ns := x :: y :: rest) in *.
  assert (tournament.levels (length ns) st ns
          = tournament.pairup st ns
              ++ tournament.levels (S (length rest)) st
                   (tournament.pairup st ns)) as -> by done.
  rewrite <- (proxy_tree_facts.winner_live st a b la lb Hla Hlb).
  apply lookup_app_l_Some.
  by apply proxy_tree_facts.pairup_lookup.
Qed.

Lemma proxy_tree_first_level_witness :
  exists w,
    proxy_tree.NewProxyTournamentTree
      [scenarios.single "baa"; scenarios.single "baa"] (scenarios.leaves 2)
    = (Ret tt, w) /\
    proxy_tree.auxiliaryNodes (proxy_tree.t w) !! 0%nat
    = Some (if Compare (FromStrings "test" "baa") (FromStrings "test" "baa")
               <? 0
            then Some 0%nat else Some 1%nat).
Proof.
  apply (proxy_tree_first_level
           [scenarios.single "baa"; scenarios.single "baa"]
           (scenarios.leaves 2) 0 (Some 0%nat) (Some 1%nat)
           (FromStrings "test" "baa") (FromStrings "test" "baa")).
  - proxy_tree_facts.all_live.
  - reflexivity.
  - reflexivity.
  - reflexivity.
  - reflexivity.
Defined.

(** X23.  The tree of [proxy_tree.go] has no sentinel: when the first
    or the second stream is nil or stands past its last series, the
    constructor over two or more streams panics with a nil dereference
    before it writes an auxiliary node. *)
Theorem proxy_tree_needs_live_streams
  (st : list mockSeriesSet) (a b : SeriesSet) (rest : list SeriesSet)
  (msg : string) :
  proxy_tree.labelsAt st a = Panic msg \/
  (tournament.live st a /\ proxy_tree.labelsAt st b = Panic msg) ->
  proxy_tree.NewProxyTournamentTree st (a :: b :: rest)
  = (Panic msg,
     proxy_tree.mkWorld st
       (proxy_tree.mkTree (a :: b :: rest)
          (replicate
             (Z.to_nat (tree.countAuxNodes (length (a :: b :: rest))
                          (len (a :: b :: rest)) 0)) None) (-1))).
Proof.
  intros H. unfold proxy_tree.NewProxyTournamentTree. cbv zeta.
  set (w := proxy_tree.mkWorld st _).
  unfold proxy_tree.Fix, bind at 1, get.
  change (proxy_tree.lastChangedIndex (proxy_tree.t w) =? -1) with true.
  cbv iota.
  rewrite proxy_tree_facts.for_range_cons;
    [|lia|unfold w, len; cbn [proxy_tree.nodes proxy_tree.t length]; lia].
  cbn [foldM].
  assert (proxy_tree.Fix_leaves 0 w = (Panic msg, w)) as Hstep.
  { unfold proxy_tree.Fix_leaves. cbv zeta. unfold bind at 1, get.
    assert ((0 + 1 =? len (proxy_tree.nodes (proxy_tree.t w))) = false)
      as ->.
    { apply Z.eqb_neq. unfold w, len.
      cbn [proxy_tree.nodes proxy_tree.t length]. lia. }
    assert (proxy_tree.getNode 0 w = (Ret a, w)) as Hga by done.
    assert (proxy_tree.getNode (0 + 1) w = (Ret b, w)) as Hgb by done.
    unfold bind at 1.
    rewrite (bind_Ret _ _ _ _ _ Hga). cbv beta.
    destruct H as [Ha|[[la Hla] Hb]].
    - unfold bind at 1, proxy_tree.callLabels at 1.
      change (proxy_tree.store w) with st. by rewrite Ha.
    - rewrite (bind_Ret _ _ _ _ _
                 (proxy_tree_facts.callLabels_Ret w a la Hla)). cbv beta.
      rewrite (bind_Ret _ _ _ _ _ Hgb). cbv beta.
      unfold bind at 1, proxy_tree.callLabels at 1.
      change (proxy_tree.store w) with st. by rewrite Hb. }
  unfold bind at 1. unfold bind at 1. by rewrite Hstep.
Qed.

Lemma proxy_tree_needs_live_streams_witness :
  proxy_tree.NewProxyTournamentTree
    [scenarios.single "baa"] [Some 0%nat; None]
  = (Panic nil_dereference,
     proxy_tree.mkWorld [scenarios.single "baa"]
       (proxy_tree.mkTree [Some 0%nat; None]
          (replicate
             (Z.to_nat (tree.countAuxNodes (length [Some 0%nat; None])
                          (len [Some 0%nat; @None ref]) 0)) None) (-1))).
Proof.
  apply (proxy_tree_needs_live_streams
           [scenarios.single "baa"] (Some 0%nat) None [] nil_dereference).
  right. split; [eexists; reflexivity|reflexivity].
Defined.

(** X24.  On every input the constructor of [proxy_tree.go] ends: it
    returns or it panics, it never loops.  Either way the streams and
    the leaves are as they were given, [lastChangedIndex] is -1, and
    there are as many auxiliary nodes as the counting loop says. *)
Theorem proxy_tree_construction_ends
  (st : list mockSeriesSet) (ns : list SeriesSet) :
  exists w,
    (proxy_tree.NewProxyTournamentTree st ns = (Ret tt, w) \/
     exists msg, proxy_tree.NewProxyTournamentTree st ns = (Panic msg, w)) /\
    proxy_tree.store w = st /\
    proxy_tree.nodes (proxy_tree.t w) = ns /\
    proxy_tree.lastChangedIndex (proxy_tree.t w) = -1 /\
    len (proxy_tree.auxiliaryNodes (proxy_tree.t w))
    = tree.countAuxNodes (length ns) (len ns) 0.
Proof.
  unfold proxy_tree.NewProxyTournamentTree. cbv zeta.
  set (n := tree.countAuxNodes (length ns) (len ns) 0).
  set (w0 := proxy_tree.mkWorld st _).
  assert (0 <= n) as Hn.
  { apply shape_facts.countAuxNodes_nonneg; unfold len; lia. }
  pose proof (proxy_tree_facts.ok_Fix w0) as Hok.
  unfold tournament.ok in Hok.
  destruct (proxy_tree.Fix w0) as [[[]|msg| |] w] eqn:E.
  - destruct Hok as [(H1 & H2 & H3 & H4) _].
    { destruct ns; [right|left]; done. }
    exists w. split; [by left|]. repeat split; try done.
    unfold len. rewrite H4. unfold w0. cbn.
    rewrite length_replicate. lia.
  - destruct Hok as (H1 & H2 & H3 & H4).
    { destruct ns; [right|left]; done. }
    exists w. split; [right; by exists msg|]. repeat split; try done.
    unfold len. rewrite H4. unfold w0. cbn.
    rewrite length_replicate. lia.
  - exfalso. apply Hok. destruct ns; [right|left]; done.
  - exfalso. apply Hok. destruct ns; [right|left]; done.
Qed.

(** ** The wrapper over an ordered heap *)

Module dedup_merge_facts.

Import heap dedup heap_spec heap_order dedup_spec dedup_merge.

Lemma on_world_eval {W L A} (m : M W A) (w : W) (l : L) o w' :
  m w = (o, w') -> on_world m (w, l) = (o, (w', l)).
Proof. intros H. unfold on_world. cbn [fst snd]. by rewrite H. Qed.

Lemma on_heap_eval {A} (m : M (heap.world respSet) A) d o w' :
  m (hw d) = (o, w') -> on_heap m d = (o, set_hw w' d).
Proof. intros H. unfold on_heap. by rewrite H. Qed.

Lemma set_hw_same d : set_hw (hw d) d = d.
Proof. by destruct d. Qed.

(** On series [not_after] is the order of the labels. *)
Lemma not_after_labels a b :
  GetSeries a <> None -> GetSeries b <> None ->
  not_after a b <-> Compare (labelOf a) (labelOf b) <= 0.
Proof.
  unfold not_after, less, labelOf.
  destruct (GetSeries a) as [sa|], (GetSeries b) as [sb|]; try done.
  intros _ _.
  pose proof (order_facts.Compare_gt (storepb.Labels sb) (storepb.Labels sa)).
  split; intros H'.
  - apply Z.ltb_ge in H'.
    destruct (Z.lt_ge_cases 0
                (Compare (storepb.Labels sa) (storepb.Labels sb))); lia.
  - apply Z.ltb_ge. lia.
Qed.

Lemma Compare_zero_sym a b : Compare a b = 0 -> Compare b a = 0.
Proof.
  intros H. apply labels_facts.Compare_eq in H as ->.
  apply labels_facts.Compare_refl.
Qed.

Lemma Compare_lt_le_trans a b c :
  Compare a b < 0 -> Compare b c <= 0 -> Compare a c < 0.
Proof.
  intros Hab Hbc.
  destruct (Z.eq_dec (Compare b c) 0) as [E|E].
  - apply labels_facts.Compare_eq in E. by subst.
  - apply (order_facts.Compare_lt_trans a b c); [done|lia].
Qed.

(** The fuel of the loop of [Next]: the children of a heap hold no more
    responses to come than they hold responses. *)
Lemma sum_insert (st : list respSet) r c c0 :
  st !! r = Some c ->
  (list_sum (map (fun c => length (heap.responses c)) (<[r:=c0]> st))
   + length (heap.responses c)
   = list_sum (map (fun c => length (heap.responses c)) st)
     + length (heap.responses c0))%nat.
Proof.
  revert r. induction st as [|x st IH]; intros [|r] H; try done.
  - simpl in H. injection H as ->. simpl. lia.
  - simpl in H. specialize (IH r H). simpl in *. lia.
Qed.

Lemma remaining_bound (l : list ref) : forall st,
  NoDup l ->
  (length (l ≫= rest_of st)
   <= list_sum (map (fun c => length (heap.responses c)) st))%nat.
Proof.
  induction l as [|r l IH]; intros st Hnd; [cbn; lia|].
  apply NoDup_cons in Hnd as [Hr Hnd].
  change ((r :: l) ≫= rest_of st) with (rest_of st r ++ (l ≫= rest_of st)).
  rewrite length_app.
  destruct (st !! r) as [c|] eqn:Ec.
  - specialize (IH (<[r := mkRespSet [] 0]> st) Hnd).
    rewrite heap_facts.bind_rest_of_insert in IH by done.
    pose proof (sum_insert st r c (mkRespSet [] 0) Ec) as Hs.
    cbn [heap.responses length] in Hs.
    assert (length (rest_of st r) <= length (heap.responses c))%nat.
    { unfold rest_of. rewrite Ec, length_drop. lia. }
    unfold ref in *.
    set (X := list_sum (map _ (<[r:=_]> st))) in *.
    set (T := list_sum (map _ st)) in *.
    lia.
  - assert (rest_of st r = []) as -> by (unfold rest_of; by rewrite Ec).
    cbn [length]. specialize (IH st Hnd). lia.
Qed.

Lemma fuel_bound (w : heap.world respSet) :
  live w ->
  (length (heap_spec.remaining w) <= dedup.remaining w)%nat.
Proof. intros [Hnd _]. by apply remaining_bound. Qed.

Lemma live_no_nodes (w : heap.world respSet) :
  h w = [] -> heap_spec.remaining w = [].
Proof. intros H. unfold heap_spec.remaining. by rewrite H. Qed.

Lemma live_nodes (w : heap.world respSet) :
  live w -> h w <> [] -> heap_spec.remaining w <> [].
Proof.
  intros Hl Hne Hr. pose proof (heap_facts.live_remaining w Hl) as Hle.
  rewrite Hr in Hle. destruct (h w); [done|cbn in Hle; lia].
Qed.

(** [At] of the heap on an ordered heap of series. *)
Lemma hAt_series (w : heap.world respSet) :
  ordered w -> all_series (heap_spec.remaining w) -> h w <> [] ->
  exists x w',
    hAt w = (Ret x, w') /\ ordered w' /\
    heap_spec.remaining w ≡ₚ x :: heap_spec.remaining w' /\
    GetSeries x <> None /\
    all_series (heap_spec.remaining w') /\
    at_least (labelOf x) (heap_spec.remaining w').
Proof.
  intros Hord Hall Hne. pose proof Hord as [Hl _].
  destruct (heap_facts.hAt_ok w Hl Hne)
    as (x & w' & E & _ & Hrem & _ & Hafter).
  destruct (Hafter Hord) as [Hord' Hleast].
  unfold all_series in *. rewrite Hrem in Hall.
  apply Forall_cons in Hall as [Hx Hall].
  exists x, w'. do 5 (split; [done|]).
  apply list.Forall_forall. intros y Hy.
  apply not_after_labels; [done| |].
  - rewrite list.Forall_forall in Hall. by apply Hall.
  - apply Hleast. rewrite Hrem. by right.
Qed.

Lemma labelOf_series x s : GetSeries x = Some s -> labelOf x = storepb.Labels s.
Proof. intros H. unfold labelOf. by rewrite H. Qed.

Lemma Forall_perm_tail {A} (P : A -> Prop) l x l' :
  l ≡ₚ x :: l' -> Forall P l -> P x /\ Forall P l'.
Proof. intros Hp H. rewrite Hp in H. by apply Forall_cons in H. Qed.

(** The loop of [Next] over an ordered heap of series: it takes from
    the heap the responses with the labels of the run and stops at the
    first response with greater labels, which it puts aside, or when the
    heap is empty. *)
Lemma Next_loop_spec L fuel : forall d l,
  in_run L d ->
  (length (heap_spec.remaining (hw d)) < fuel)%nat ->
  exists d' l',
    Next_loop fuel (d, l) = (Ret tt, (d', l')) /\
    ordered (hw d') /\
    series_run L (responses d') /\
    all_series (pending d') /\
    above L (pending d') /\
    (forall r, previousResponse d' = Some r ->
               at_least (labelOf r) (heap_spec.remaining (hw d'))) /\
    (l' = true <-> pending d' <> []) /\
    responses d ++ heap_spec.remaining (hw d)
      ≡ₚ responses d' ++ pending d' /\
    previousNext d' = previousNext d.
Proof.
  induction fuel as [|f IH];
    intros d l (Hord & Hall & Hrun & Hleast & Hprev) Hf; [lia|].
  cbn [Next_loop].
  assert (on_world (on_heap hNext) (d, l)
          = (Ret (negb (Empty (hw d))), (d, l))) as E1.
  { unfold on_world, on_heap, hNext. cbn [fst snd].
    by rewrite set_hw_same. }
  rewrite (bind_Ret _ _ _ _ _ E1). cbv beta.
  unfold bind at 1, set_local. cbn [fst snd].
  destruct (decide (h (hw d) = [])) as [Hh|Hh].
  - (* the heap is empty *)
    assert (Empty (hw d) = true) as ->.
    { unfold Empty, Len. by rewrite Hh. }
    cbn [negb]. exists d, false. split; [done|].
    assert (pending d = []) as Hp.
    { unfold pending. rewrite Hprev. by apply live_no_nodes. }
    rewrite Hp. split; [done|]. split; [done|].
    split; [by apply Forall_nil_2|]. split; [by apply Forall_nil_2|].
    split; [by rewrite Hprev|]. split; [done|].
    split; [|done]. by rewrite (live_no_nodes _ Hh).
  - (* the heap holds a node *)
    assert (Empty (hw d) = false) as ->.
    { unfold Empty, Len, len. apply Z.eqb_neq.
      destruct (h (hw d)); [done|cbn [length]; lia]. }
    cbn [negb].
    destruct (hAt_series (hw d) Hord Hall Hh)
      as (x & w' & Eat & Hord' & Hrem & Hx & Hall' & Hleast').
    assert (on_world (on_heap hAt) (d, true)
            = (Ret x, (set_hw w' d, true))) as E2.
    { apply on_world_eval. by apply on_heap_eval. }
    rewrite (bind_Ret _ _ _ _ _ E2). cbv beta.
    destruct (GetSeries x) as [s|] eqn:Hs; [|done].
    unfold bind at 1, get. cbn [fst responses set_hw].
    destruct (dedup_run.series_run_last _ _ Hrun)
      as (lastResp & sl & Hlast & Hsl & Hl).
    rewrite Hlast, Hsl, Hl.
    pose proof (Forall_perm_tail _ _ _ _ Hrem Hleast) as [HLx HL'].
    rewrite (labelOf_series x s Hs) in HLx, Hleast'.
    destruct (Compare (storepb.Labels s) L =? 0) eqn:Ec.
    + (* the same labels: the response joins the run *)
      apply Z.eqb_eq in Ec. apply labels_facts.Compare_eq in Ec.
      unfold bind at 1, on_world at 1, modify. cbn [fst snd].
      set (d1 := set_responses _ _).
      destruct (IH d1 true) as (d' & l' & E & H1 & H2 & H3 & H4 & H5 & H6
                                  & H7 & H8).
      { split; [done|]. split; [done|]. split; [|done].
        by eapply dedup_run.series_run_app. }
      { apply Permutation_length in Hrem. cbn in Hrem.
        unfold d1. cbn [hw set_responses set_hw]. lia. }
      exists d', l'. split; [done|]. do 6 (split; [done|]).
      split; [|done]. rewrite <- H7. unfold d1.
      cbn [responses hw set_responses set_hw].
      rewrite Hrem, <- app_assoc. done.
    + (* other labels: the response is put aside *)
      apply Z.eqb_neq in Ec.
      unfold on_world, modify. cbn [fst snd].
      eexists _, true. split; [done|].
      cbn [hw responses previousResponse previousNext
           set_previousResponse set_hw].
      assert (Compare L (storepb.Labels s) < 0) as Hlt.
      { destruct (Z.eq_dec (Compare L (storepb.Labels s)) 0) as [E0|E0];
          [|lia].
        apply Compare_zero_sym in E0. done. }
      unfold pending.
      cbn [hw responses previousResponse previousNext
           set_previousResponse set_hw app].
      split; [done|]. split; [done|].
      split; [apply Forall_cons; split; [by rewrite Hs|done]|]. split.
      { apply Forall_cons. split.
        - by rewrite (labelOf_series x s Hs).
        - eapply Forall_impl; [exact Hleast'|]. intros y Hy. cbv beta in Hy.
          by eapply Compare_lt_le_trans. }
      split.
      { intros r Hr. injection Hr as <-.
        by rewrite (labelOf_series x s Hs). }
      split; [done|]. split; [|done].
      by rewrite Hrem.
Qed.

(** [Next] after the response it starts the buffer with is known. *)
Lemma run_from d1 resp s fuel :
  GetSeries resp = Some s ->
  ordered (hw d1) -> all_series (heap_spec.remaining (hw d1)) ->
  at_least (storepb.Labels s) (heap_spec.remaining (hw d1)) ->
  previousResponse d1 = None ->
  (length (heap_spec.remaining (hw d1)) < fuel)%nat ->
  exists d',
    with_defer false
      (do* on_world (modify (set_responses [resp])) in
       match GetSeries resp with
       | None =>
           do* on_world (modify (set_previousResponse (Some resp))) in
           ret true
       | Some _ => do* Next_loop fuel in ret true
       end)
      set_previousNext d1
    = (Ret true, d') /\
    series_run (storepb.Labels s) (responses d') /\
    between_calls (set_responses [] d') /\
    above (storepb.Labels s) (pending d') /\
    resp :: heap_spec.remaining (hw d1) ≡ₚ responses d' ++ pending d'.
Proof.
  intros Hs Hord Hall Hleast Hprev Hf.
  set (d2 := set_responses [resp] d1).
  destruct (Next_loop_spec (storepb.Labels s) fuel d2 false)
    as (d' & l' & E & H1 & H2 & H3 & H4 & H5 & H6 & H7 & H8).
  { split; [done|]. split; [done|]. split; [|done].
    split; [done|]. intros r Hr. apply list_elem_of_singleton in Hr as ->.
    by exists s. }
  { done. }
  exists (set_previousNext l' d'). split.
  - unfold with_defer, bind at 1, on_world at 1, modify. cbn [fst snd].
    rewrite Hs. fold d2. unfold bind at 1. rewrite E. done.
  - split; [done|]. split; [|split; [done|exact H7]].
    split; [done|]. split; [done|]. split; [done|]. split; [done|].
    cbn [previousNext set_previousNext set_responses]. exact H6.
Qed.

(** [Next] between two runs, over an ordered heap of series with
    something to give: it answers true, the buffer holds a run, every
    response left has greater labels, and no response is lost. *)
Lemma dNext_spec d :
  between_calls d -> previousNext d = true ->
  exists d' L,
    dNext d = (Ret true, d') /\
    series_run L (responses d') /\
    between_calls (set_responses [] d') /\
    above L (pending d') /\
    pending d ≡ₚ responses d' ++ pending d'.
Proof.
  intros (Hord & Hbuf & Hall & Hleast & Hnext) Hp.
  pose proof Hord as [Hlive _].
  pose proof (fuel_bound (hw d) Hlive) as Hfuel.
  unfold dNext, bind at 1, get. rewrite Hp. cbn [negb].
  destruct (previousResponse d) as [r|] eqn:Hprev.
  - (* a response was put aside *)
    unfold pending in Hall. rewrite Hprev in Hall. cbn [app] in Hall.
    apply Forall_cons in Hall as [Hr Hall].
    destruct (GetSeries r) as [s|] eqn:Hs; [|done].
    unfold bind at 1. unfold bind at 1, modify, ret.
    set (d1 := set_previousResponse None d).
    destruct (run_from d1 r s (S (dedup.remaining (hw d))) Hs)
      as (d' & E & H1 & H2 & H3 & H4); try done.
    { specialize (Hleast r eq_refl).
      by rewrite (labelOf_series r s Hs) in Hleast. }
    { cbn [hw d1 set_previousResponse]. lia. }
    exists d', (storepb.Labels s). split; [exact E|].
    split; [done|]. split; [done|]. split; [done|].
    unfold pending at 1. rewrite Hprev. exact H4.
  - (* the heap gives the response *)
    assert (pending d = heap_spec.remaining (hw d)) as Hpd.
    { unfold pending. by rewrite Hprev. }
    rewrite Hpd in *.
    assert (h (hw d) <> []) as Hh.
    { intros Hh. apply Hnext in Hp. by apply Hp, live_no_nodes. }
    destruct (hAt_series (hw d) Hord Hall Hh)
      as (x & w' & Eat & Hord' & Hrem & Hx & Hall' & Hleast').
    destruct (GetSeries x) as [s|] eqn:Hs; [|done].
    rewrite (bind_Ret _ _ _ _ _ (on_heap_eval hAt d _ _ Eat)). cbv beta.
    set (d1 := set_hw w' d).
    destruct (run_from d1 x s (S (dedup.remaining (hw d))) Hs)
      as (d' & E & H1 & H2 & H3 & H4); try done.
    { by rewrite (labelOf_series x s Hs) in Hleast'. }
    { apply Permutation_length in Hrem. cbn [length] in Hrem.
      cbn [hw d1 set_hw]. lia. }
    exists d', (storepb.Labels s). split; [exact E|].
    split; [done|]. split; [done|]. split; [done|].
    rewrite Hrem. exact H4.
Qed.

(** [At] on a run: a series with the labels of the run. *)
Lemma dAt_label Hash d L :
  series_run L (responses d) ->
  exists out,
    dAt Hash d = (Ret (Some out), set_responses [] d) /\
    GetSeries out <> None /\ labelOf out = L.
Proof.
  intros [Hne Hrun].
  destruct (responses d) as [|r0 [|r1 rest]] eqn:Er; [done|..].
  - destruct (Hrun r0) as (s & Hs & Hl); [by left|].
    exists r0. split; [unfold dAt; by rewrite Er|].
    split; [by rewrite Hs|]. by rewrite (labelOf_series r0 s Hs).
  - destruct (Hrun r0) as (s0 & Hs0 & Hl0); [by left|].
    eexists. split.
    + eapply (dedup_facts.dAt_run Hash d r0 r1 rest s0);
        [exact Er|exact Hs0|].
      apply dedup_more.collectChunks_all. rewrite Er.
      intros r Hr. destruct (Hrun r Hr) as (s & Hs & _). by eexists.
    + split; [done|]. unfold labelOf. cbn. exact Hl0.
Qed.

Lemma labels_of_run L l :
  series_run L l -> forall x, x ∈ map labelOf l <-> x = L.
Proof.
  intros [Hne Hrun] x. split.
  - intros Hx. apply list_elem_of_fmap in Hx as (y & -> & Hy).
    destruct (Hrun y Hy) as (s & Hs & Hl).
    by rewrite (labelOf_series y s Hs).
  - intros ->. destruct l as [|y l]; [done|].
    destruct (Hrun y) as (s & Hs & Hl); [by left|].
    cbn [map]. rewrite (labelOf_series y s Hs), Hl. by left.
Qed.

(** The consumer loop over the wrapper, over an ordered heap of
    series. *)
Lemma dedup_loop_spec Hash rounds : forall d,
  between_calls d -> (length (pending d) <= rounds)%nat ->
  exists outs d',
    dedupAll Hash rounds d = (Ret (map Some outs), d') /\
    dNext d' = (Ret false, d') /\
    Forall (fun o => GetSeries o <> None) outs /\
    (forall l, l ∈ map labelOf outs <-> l ∈ map labelOf (pending d)) /\
    StronglySorted (fun a b => Compare a b < 0) (map labelOf outs).
Proof.
  assert (forall d, between_calls d -> previousNext d = false ->
                    dNext d = (Ret false, d) /\ pending d = []) as Hstop.
  { intros d (_ & Hbuf & _ & _ & Hnext) Hp. split.
    - rewrite (dedup_facts.dNext_stopped d Hp). by rewrite Hbuf.
    - destruct (pending d) eqn:E; [done|].
      assert (previousNext d = true) by (by apply Hnext). congruence. }
  induction rounds as [|k IH]; intros d Hbc Hlen.
  - assert (pending d = []) as Hp by (destruct (pending d); [done|cbn in *; lia]).
    assert (previousNext d = false) as Hpn.
    { destruct Hbc as (_ & _ & _ & _ & Hnext).
      destruct (previousNext d); [|done].
      by destruct (proj1 Hnext eq_refl). }
    destruct (Hstop d Hbc Hpn) as [Hd _].
    exists [], d. split; [done|]. split; [done|]. split; [done|].
    split; [by rewrite Hp|]. constructor.
  - cbn [dedupAll].
    destruct (previousNext d) eqn:Hpn.
    + destruct (dNext_spec d Hbc Hpn) as (d1 & L & E & Hrun & Hbc' & Habove & Hperm).
      rewrite E.
      destruct (dAt_label Hash d1 L Hrun) as (out & Eat & Hout & HL).
      rewrite Eat.
      destruct (IH (set_responses [] d1) Hbc')
        as (outs & d' & El & Hend & Hser & Hmem & Hsorted).
      { apply Permutation_length in Hperm. rewrite length_app in Hperm.
        destruct Hrun as [Hne _].
        destruct (responses d1); [done|]. cbn [length] in Hperm.
        change (pending (set_responses [] d1)) with (pending d1). lia. }
      rewrite El. exists (out :: outs), d'. split; [done|].
      split; [done|]. split; [by apply Forall_cons|].
      change (pending (set_responses [] d1)) with (pending d1) in Hmem.
      split.
      * intros l. cbn [map]. rewrite elem_of_cons, Hmem, Hperm, map_app.
        rewrite elem_of_app, (labels_of_run L _ Hrun l), HL. done.
      * cbn [map]. apply StronglySorted_cons. split; [|done].
        apply list.Forall_forall. intros l Hl. apply Hmem in Hl.
        apply list_elem_of_fmap in Hl as (y & -> & Hy).
        unfold above in Habove. rewrite list.Forall_forall in Habove.
        rewrite HL. by apply Habove.
    + destruct (Hstop d Hbc Hpn) as [Hd Hp]. rewrite Hd.
      exists [], d. split; [done|]. split; [done|]. split; [done|].
      split; [by rewrite Hp|]. constructor.
Qed.

End dedup_merge_facts.

(** X25.  The wrapper over an ordered heap whose children hold series
    only: the consumer loop [for d.Next() { d.At() }] never panics and
    ends with [Next] answering false; [At] returns a series each time,
    with label sets that grow strictly from one response to the next, so
    that no label set is given twice, and that are exactly the label
    sets the children had still to give. *)
Theorem dedup_gives_each_label_set_once
  (Hash : AggrChunk -> string) (w : heap.world heap.respSet)
  (rounds : nat) :
  heap_order.ordered w ->
  dedup_merge.all_series (heap_spec.remaining w) ->
  (length (heap_spec.remaining w) <= rounds)%nat ->
  exists d0 outs d',
    dedup.NewDedupResponseHeap w = (Ret tt, d0) /\
    dedup_merge.dedupAll Hash rounds d0 = (Ret (map Some outs), d') /\
    dedup.dNext d' = (Ret false, d') /\
    Forall (fun o => GetSeries o <> None) outs /\
    (forall l, l ∈ map dedup_merge.labelOf outs
               <-> l ∈ map dedup_merge.labelOf (heap_spec.remaining w)) /\
    StronglySorted (fun a b => Compare a b < 0)
      (map dedup_merge.labelOf outs).
Proof.
  intros Hord Hall Hlen.
  set (d0 := dedup.mkDedup w [] None (negb (heap.Empty w))).
  assert (dedup_merge.pending d0 = heap_spec.remaining w) as Hp by done.
  destruct (dedup_merge_facts.dedup_loop_spec Hash rounds d0)
    as (outs & d' & E & Hend & Hser & Hmem & Hsorted).
  - split; [done|]. split; [done|]. split; [by rewrite Hp|].
    split; [done|]. rewrite Hp. cbn [dedup.previousNext d0].
    pose proof Hord as [Hlive _].
    unfold heap.Empty, heap.Len, len.
    destruct (heap.h w) as [|r l] eqn:Hh.
    + cbn. split; [done|]. intros H. exfalso. apply H.
      by apply dedup_merge_facts.live_no_nodes.
    + cbn [length]. split; [|done]. intros _.
      apply dedup_merge_facts.live_nodes; [done|]. by rewrite Hh.
  - by rewrite Hp.
  - exists d0, outs, d'. split; [done|]. split; [done|]. split; [done|].
    split; [done|]. split; [|done]. intros l. by rewrite Hmem, Hp.
Qed.

Lemma dedup_gives_each_label_set_once_witness :
  exists d0 outs d',
    dedup.NewDedupResponseHeap
      (heap.mkWorld heap_scenarios.twins [0%nat; 1%nat]) = (Ret tt, d0) /\
    dedup_merge.dedupAll dedup_scenarios.chunk_hash 4 d0
    = (Ret (map Some outs), d') /\
    dedup.dNext d' = (Ret false, d') /\
    Forall (fun o => GetSeries o <> None) outs /\
    (forall l, l ∈ map dedup_merge.labelOf outs
               <-> l ∈ map dedup_merge.labelOf
                         (heap_spec.remaining
                            (heap.mkWorld heap_scenarios.twins
                               [0%nat; 1%nat]))) /\
    StronglySorted (fun a b => Compare a b < 0)
      (map dedup_merge.labelOf outs).
Proof.
  apply (dedup_gives_each_label_set_once dedup_scenarios.chunk_hash
           (heap.mkWorld heap_scenarios.twins [0%nat; 1%nat]) 4).
  - split; [heap_build.is_live|]. split.
    + intros p c x y Hp Hc Hch Hx Hy.
      change (c < 2) in Hc. unfold heap_order.child_of in Hch.
      assert (p = 0) as -> by lia. assert (c = 1) as -> by lia.
      vm_compute in Hx, Hy.
      injection Hx as <-. injection Hy as <-. reflexivity.
    + intros r Hr.
      apply elem_of_cons in Hr; destruct Hr as [Hr|Hr].
      { rewrite Hr. heap_build.in_order. }
      apply elem_of_cons in Hr; destruct Hr as [Hr|Hr].
      { rewrite Hr. heap_build.in_order. }
      by apply elem_of_nil in Hr.
  - repeat (apply Forall_cons; split; [discriminate|]).
    apply Forall_nil_2.
  - vm_compute. lia.
Defined.

